(** * Maxwell filtering (signal space separation) of [mne/preprocessing/maxwell.py]

    A shallow embedding of the module's functions and the properties of its
    basis assembly, projector and orchestration.

    Conventions of the embedding.
    - Python [int] is [Z]; [len] and array positions are [nat].
    - A NumPy [float64] is a real number or one of the IEEE special values
      ([float64] below).  Rounding and signed zeros are left out; what the
      IEEE rules say about [inf] and [nan] is kept, because the module
      initialises with [nan] and divides without guards.
    - A two-dimensional array is its shape and its entries ([ndarray]); a
      one-dimensional array or a Python list is a [list].
    - A Python exception is the [Raise] branch of [result]; code that mutates
      objects threads a [world] (the object store and a trace of the effects
      performed so far).
    - SciPy's [pinv] and the closed-form harmonic gradients are parameters of
      the development ([Section Maxwell]). *)

From Stdlib Require Import ZArith Reals Lra Lia List String DecimalString.
From stdpp Require Import base tactics option list numbers gmap strings.

(* ================================================================== *)
(** * 1. Python values: exceptions and results *)

Inductive exn : Type :=
  | RuntimeError (msg : string)
  | ValueError (msg : string)
  | IndexError (msg : string).

Inductive result (A : Type) : Type :=
  | Ok (a : A)
  | Raise (e : exn).
Arguments Ok {A} a.
Arguments Raise {A} e.

#[global] Instance result_ret : MRet result := fun _ a => Ok a.
#[global] Instance result_bind : MBind result :=
  fun _ _ f m => match m with Ok a => f a | Raise e => Raise e end.

Definition raises {A} (r : result A) : Prop := exists e, r = Raise e.

(** [str(n)] of a Python integer *)
Definition str_of_Z (z : Z) : string := NilZero.string_of_int (Z.to_int z).

(** [range(a, b)] *)
Definition py_range (a b : Z) : list Z := seqZ a (b - a).

(** [l[a:b]] for [0 <= a <= b] *)
Definition py_slice {A} (l : list A) (a b : nat) : list A := take (b - a) (drop a l).

(* ================================================================== *)
(** * 2. float64 *)

Inductive float64 : Type :=
  | Num (r : R)
  | PosInf
  | NegInf
  | NaN.

Definition is_finite (x : float64) : Prop :=
  match x with Num _ => True | _ => False end.

Definition inf_of_sign (s : R) : float64 :=
  if Rlt_dec 0 s then PosInf else if Rlt_dec s 0 then NegInf else NaN.

Definition f_add (x y : float64) : float64 :=
  match x, y with
  | Num a, Num b => Num (a + b)
  | NaN, _ => NaN
  | _, NaN => NaN
  | PosInf, NegInf => NaN
  | NegInf, PosInf => NaN
  | PosInf, _ => PosInf
  | _, PosInf => PosInf
  | NegInf, _ => NegInf
  | _, NegInf => NegInf
  end.

Definition f_mul (x y : float64) : float64 :=
  match x, y with
  | Num a, Num b => Num (a * b)
  | NaN, _ => NaN
  | _, NaN => NaN
  | Num a, PosInf => inf_of_sign a
  | PosInf, Num a => inf_of_sign a
  | Num a, NegInf => inf_of_sign (- a)
  | NegInf, Num a => inf_of_sign (- a)
  | PosInf, PosInf => PosInf
  | NegInf, NegInf => PosInf
  | PosInf, NegInf => NegInf
  | NegInf, PosInf => NegInf
  end.

(** [x / y] under NumPy's default error state: a division by zero warns and
    yields [inf] or [nan], it does not raise. *)
Definition f_div (x y : float64) : float64 :=
  match x, y with
  | NaN, _ => NaN
  | _, NaN => NaN
  | Num a, Num b => if Req_dec_T b 0 then inf_of_sign a else Num (a / b)
  | Num _, _ => Num 0
  | PosInf, Num b => if Rlt_dec b 0 then NegInf else PosInf
  | NegInf, Num b => if Rlt_dec b 0 then PosInf else NegInf
  | _, _ => NaN
  end.

Definition f_sqrt (x : float64) : float64 :=
  match x with
  | Num a => if Rlt_dec a 0 then NaN else Num (sqrt a)
  | PosInf => PosInf
  | _ => NaN
  end.

(** [x < y] and [x > y]: every comparison with [nan] is false. *)
Definition f_lt (x y : float64) : bool :=
  match x, y with
  | Num a, Num b => if Rlt_dec a b then true else false
  | NegInf, Num _ => true
  | NegInf, PosInf => true
  | Num _, PosInf => true
  | _, _ => false
  end.
Definition f_gt (x y : float64) : bool := f_lt y x.

(** [np.arccos] *)
Definition arccos (x : float64) : float64 :=
  match x with
  | Num a => if Rlt_dec a (-1) then NaN else if Rlt_dec 1 a then NaN else Num (acos a)
  | _ => NaN
  end.

(** [np.arctan2(y, x)] at finite arguments; [arctan2(0, 0) = 0]. *)
Definition arctan2 (y x : R) : R :=
  if Rlt_dec 0 x then atan (y / x)
  else if Rlt_dec x 0 then
    (if Rlt_dec y 0 then atan (y / x) - PI else atan (y / x) + PI)
  else if Rlt_dec 0 y then PI / 2
  else if Rlt_dec y 0 then - (PI / 2)
  else 0.

(** [np.sum] of a one-dimensional array *)
Definition np_sum (l : list float64) : float64 := foldl f_add (Num 0) l.

(** The sum of [f 0 .. f (n-1)] *)
Fixpoint f_sum_n (n : nat) (f : nat -> float64) : float64 :=
  match n with
  | O => Num 0
  | S k => f_add (f_sum_n k f) (f k)
  end.

Fixpoint sum_n (n : nat) (f : nat -> R) : R :=
  match n with
  | O => 0
  | S k => sum_n k f + f k
  end.

(* ================================================================== *)
(** * 3. Two-dimensional arrays *)

Record ndarray (A : Type) : Type := NdArray {
  nrows : nat;                 (* shape[0] *)
  ncols : nat;                 (* shape[1] *)
  item : nat -> nat -> A       (* the entry at [i, j], read for i < nrows, j < ncols *)
}.
Arguments NdArray {A} nrows ncols item.
Arguments nrows {A} _.
Arguments ncols {A} _.
Arguments item {A} _ _ _.

(** Two arrays are the same array: same shape, same entries. *)
Definition nd_eq {A} (a b : ndarray A) : Prop :=
  nrows a = nrows b /\ ncols a = ncols b /\
  forall i j, (i < nrows a)%nat -> (j < ncols a)%nat -> item a i j = item b i j.

(** NumPy's index normalisation along an axis of length [n]: a negative
    index counts from the end, anything else out of range is an error. *)
Definition np_index (n : nat) (i : Z) : result nat :=
  let i' := (if (i <? 0)%Z then i + Z.of_nat n else i)%Z in
  if ((0 <=? i') && (i' <? Z.of_nat n))%Z then Ok (Z.to_nat i')
  else Raise (IndexError "index is out of bounds").

(** [a[i, j] = v] *)
Definition nd_setitem {A} (a : ndarray A) (i j : Z) (v : A) : result (ndarray A) :=
  i' ← np_index (nrows a) i;
  j' ← np_index (ncols a) j;
  mret (NdArray (nrows a) (ncols a)
         (fun r c => if bool_decide (r = i' /\ c = j') then v else item a r c)).

(** [a = np.empty((n, c)); a.fill(v)] *)
Definition np_full {A} (n : nat) (c : Z) (v : A) : result (ndarray A) :=
  if (c <? 0)%Z then Raise (ValueError "negative dimensions are not allowed")
  else Ok (NdArray n (Z.to_nat c) (fun _ _ => v)).

(** [np.c_[a, b]]: the columns of [a], then those of [b]. *)
Definition np_c_ {A} (a b : ndarray A) : ndarray A :=
  NdArray (nrows a) (ncols a + ncols b)
    (fun i j => if (j <? ncols a)%nat then item a i j else item b i (j - ncols a)).

(** Arrays of reals: the operations the projector uses. *)

(** [np.dot(a, b)]: the inner dimensions have to agree. *)
Definition np_dot (a b : ndarray R) : result (ndarray R) :=
  if bool_decide (ncols a = nrows b) then
    Ok (NdArray (nrows a) (ncols b)
          (fun i j => sum_n (ncols a) (fun k => item a i k * item b k j)%R))
  else Raise (ValueError "shapes not aligned").

(** [a[:k, :]] *)
Definition rows_upto (k : nat) (a : ndarray R) : ndarray R :=
  NdArray (k `min` nrows a) (ncols a) (item a).

(** [a * v[:, np.newaxis]] and [a / v[:, np.newaxis]]: row [i] of [a] times
    (divided by) [v[i]]. *)
Definition mul_rows (a : ndarray R) (v : list R) : ndarray R :=
  NdArray (nrows a) (ncols a) (fun i j => item a i j * nth i v 1)%R.
Definition div_rows (a : ndarray R) (v : list R) : ndarray R :=
  NdArray (nrows a) (ncols a) (fun i j => item a i j / nth i v 1)%R.

(** [a[sel, :]] for a list of row positions *)
Definition take_rows (a : ndarray R) (sel : list nat) : ndarray R :=
  NdArray (length sel) (ncols a) (fun i j => item a (nth i sel O) j).

(* ================================================================== *)
(** * 4. Coordinate transform *)

Definition vec3 : Type := (R * R * R)%type.
Definition fvec3 : Type := (float64 * float64 * float64)%type.

(** [np.linalg.norm] of one row *)
Definition norm3 (p : vec3) : R :=
  let '(x, y, z) := p in sqrt (x * x + y * y + z * z).

(** [_cart_to_sph]: [rad], [az] and [pol] column by column, stacked by
    [np.c_].  Nothing in the body raises: the quotient [z / rad] is NumPy's
    array division. *)
Definition _cart_to_sph (cart_pts : list vec3) : result (list fvec3) :=
  let rad := (fun p => Num (norm3 p)) <$> cart_pts in
  let az := (fun p : vec3 => Num (arctan2 (p.1.2) (p.1.1))) <$> cart_pts in
  let pol := zip_with (fun (p : vec3) r => arccos (f_div (Num p.2) r)) cart_pts rad in
  Ok (zip_with (fun ra p => (ra.1, ra.2, p)) (zip rad az) pol).

(* ================================================================== *)
(** * 5. Coils, channels and the data container *)

(** One integration point of a coil: a row of [rmag], of [cosmag] and of [w]. *)
Record int_point : Type := IntPoint {
  pt_rmag : vec3;
  pt_cosmag : vec3;
  pt_w : R
}.

Record coil : Type := Coil {
  chname : string;
  coil_class : Z;
  int_points : list int_point
}.

Record channel : Type := Channel {
  ch_name : string;
  kind : Z;
  coil_type : Z
}.

(** [FIFF.FIFFV_MEG_CH] *)
Definition FIFFV_MEG_CH : Z := 1.

(** The dictionary [_update_info] builds. *)
Record proc_record : Type := ProcRecord {
  pr_int_order : Z;
  pr_ext_order : Z;
  pr_origin : vec3;
  pr_nsens : nat;
  pr_nmoments : nat;
  pr_creator : string
}.

(** [raw.info]: the keys the module reads or writes.  [ch_names] is kept in
    step with [chs] by the container, so it is read off [chs]. *)
Record Info : Type := MkInfo {
  chs : list channel;
  bads : list string;
  maxshield : option bool;
  proc_history : option (list proc_record)
}.
Definition ch_names (i : Info) : list string := ch_name <$> chs i.

Record Raw : Type := MkRaw {
  info : Info;
  _data : ndarray R
}.

(* ================================================================== *)
(** * 6. The world: object store and trace of effects *)

Definition loc : Type := nat.

Inductive space : Type := Internal | External.

Inductive event : Type :=
  | EvCreateCoils                        (* the coil list was built *)
  | EvPickChannels (raw : loc)           (* [raw.pick_channels(...)] *)
  | EvSetItem (spc : space) (i j : nat)  (* a basis entry was computed and stored *)
  | EvPinv                               (* the pseudo-inverse was taken *)
  | EvCopy (src dst : loc)               (* [raw.copy()] *)
  | EvAssignData (dst : loc).            (* [raw_sss._data[:, :] = ...] *)

Record world : Type := World {
  objs : gmap loc Raw;
  trace : list event
}.

Definition M (A : Type) : Type := world -> result A * world.

#[global] Instance M_ret : MRet M := fun _ a w => (Ok a, w).
#[global] Instance M_bind : MBind M :=
  fun _ _ f m w => match m w with
                   | (Ok a, w') => f a w'
                   | (Raise e, w') => (Raise e, w')
                   end.

Definition raise {A} (e : exn) : M A := fun w => (Raise e, w).
Definition lift {A} (r : result A) : M A := fun w => (r, w).
Definition emit (e : event) : M unit :=
  fun w => (Ok tt, World (objs w) (trace w ++ [e])).
Definition deref (l : loc) : M Raw :=
  fun w => match objs w !! l with
           | Some r => (Ok r, w)
           | None => (Raise (RuntimeError "no such object"), w)
           end.
Definition assign (l : loc) (r : Raw) : M unit :=
  fun w => (Ok tt, World (<[l := r]> (objs w)) (trace w)).
Definition alloc (r : Raw) : M loc :=
  fun w => let l := fresh (dom (objs w)) in
           (Ok l, World (<[l := r]> (objs w)) (trace w)).

(** [for x in l: s = body(x, s)] *)
Fixpoint for_each {A St} (l : list A) (body : A -> St -> M St) (s : St) : M St :=
  match l with
  | [] => mret s
  | x :: l' => s' ← body x s; for_each l' body s'
  end.

(* ================================================================== *)
(** * 7. Basis assembly *)

(** [get_num_moments] *)
Definition get_num_moments (int_order ext_order : Z) : Z :=
  int_order ^ 2 + 2 * int_order + ext_order ^ 2 + 2 * ext_order.

(** The column of the pair (degree, order): the subscript of
    [spc[pt_i, deg ** 2 + deg + order - 1]]. *)
Definition moment_column (deg order : Z) : Z := deg ^ 2 + deg + order - 1.

(** The number of columns [np.empty] is asked for: [(order + 1) ** 2 - 1]. *)
Definition n_columns (order : Z) : Z := (order + 1) ^ 2 - 1.

(** The argument checks of [_sph_harmonic], in the order of the source.
    [.any()] over an array is [existsb]. *)
Definition _sph_harmonic_checks (degree order : Z) (az pol : list float64)
  : result unit :=
  if (Z.abs order >? degree)%Z then
    Raise (ValueError "Absolute value of expansion coefficient must be <= degree")
  else if existsb (fun a => f_lt a (Num (-2 * PI))) az
          || existsb (fun a => f_gt a (Num (2 * PI))) az then
    Raise (ValueError "Azimuth coords must lie in [-2*pi, 2*pi]")
  else if existsb (fun p => f_lt p (Num 0)) pol
          || existsb (fun p => f_gt p (Num PI)) pol then
    Raise (ValueError "Polar coords must lie in [0, pi]")
  else Ok tt.

(** Modelled from the spec: [_concatenate_coils] is imported from
    [forward/_compute_forward.py]; BasisAssembler step 1 has it concatenate all
    coils' integration points, normals and weights, and list the per-coil point
    counts. *)
Definition _concatenate_coils (coils : list coil)
  : list vec3 * list vec3 * list R * list nat :=
  let pts := coils ≫= int_points in
  (pt_rmag <$> pts, pt_cosmag <$> pts, pt_w <$> pts,
   (fun c => length (int_points c)) <$> coils).

(** [np.cumsum] *)
Fixpoint cumsum_from (acc : nat) (l : list nat) : list nat :=
  match l with
  | [] => []
  | x :: l' => (acc + x)%nat :: cumsum_from (acc + x) l'
  end.
Definition np_cumsum (l : list nat) : list nat := cumsum_from 0 l.

(** The magnetometer scaling: [coil_scale = np.ones(len(coils))], then 100 at
    the coils whose [coil_class == 1.0]. *)
Definition coil_scale_of (coils : list coil) : list R :=
  (fun c => if (coil_class c =? 1)%Z then 100%R else 1%R) <$> coils.

(** One row of [np.einsum('ij,ij->i', grads, ncoils)] *)
Definition row_dot (g n : fvec3) : float64 :=
  f_add (f_add (f_mul g.1.1 n.1.1) (f_mul g.1.2 n.1.2)) (f_mul g.2 n.2).

Definition fvec_of (p : vec3) : fvec3 := (Num p.1.1, Num p.1.2, Num p.2).
Definition fvec_scale (c : float64) (g : fvec3) : fvec3 :=
  (f_mul c g.1.1, f_mul c g.1.2, f_mul c g.2).

(** [spc *= coil_scale[:, np.newaxis]] *)
Definition scale_rows (spc : ndarray float64) (coil_scale : list R)
  : ndarray float64 :=
  NdArray (nrows spc) (ncols spc)
    (fun i j => f_mul (item spc i j) (Num (nth i coil_scale 1%R))).

(** [np.sum(spc * spc, axis=0)[j]] *)
Definition column_sumsq (spc : ndarray float64) (j : nat) : float64 :=
  f_sum_n (nrows spc) (fun i => f_mul (item spc i j) (item spc i j)).

(** [spc /= np.sqrt(np.sum(spc * spc, axis=0))[np.newaxis, :]] *)
Definition normalize_columns (spc : ndarray float64) : ndarray float64 :=
  NdArray (nrows spc) (ncols spc)
    (fun i j => f_div (item spc i j) (f_sqrt (column_sumsq spc j))).

(** [spc[i, j] = v] inside the assembly loop, recorded in the trace. *)
Definition store_entry (sp : space) (spc : ndarray float64) (i j : Z)
    (v : float64) : M (ndarray float64) :=
  i' ← lift (np_index (nrows spc) i);
  j' ← lift (np_index (ncols spc) j);
  _ ← emit (EvSetItem sp i' j');
  mret (NdArray (nrows spc) (ncols spc)
          (fun r c => if bool_decide (r = i' /\ c = j') then v else item spc r c)).

Section Maxwell.

(** The numerical content of Eq. 6 and Eq. 7 at one integration point given
    in spherical coordinates [(rad, az, pol)]: what [_grad_in_components] and
    [_grad_out_components] compute from SciPy's [lpmv] and [factorial], made
    real by [_get_real_grad] and turned to Cartesian components by
    [_sph_to_cart_partials]. *)
Variable grad_in_at : Z -> Z -> fvec3 -> fvec3.
Variable grad_out_at : Z -> Z -> fvec3 -> fvec3.

(** [scipy.linalg.pinv(a, cond=c)] on an array of finite entries. *)
Variable pinv : R -> ndarray R -> ndarray R.

(** What [_create_coils] makes of one MEG channel from the coil definitions
    and the device-to-head transform: the coil class and the integration
    points. *)
Variable coil_geometry : channel -> Z * list int_point.

(** [_grad_in_components] and [_grad_out_components]: both evaluate
    [_sph_harmonic] on the whole [az] and [pol] columns first, which raises on
    an argument out of range. *)
Definition _grad_in_components (degree order : Z) (rad az pol : list float64)
  : result (list fvec3) :=
  _ ← _sph_harmonic_checks degree order az pol;
  mret (grad_in_at degree order <$> zip (zip rad az) pol).

Definition _grad_out_components (degree order : Z) (rad az pol : list float64)
  : result (list fvec3) :=
  _ ← _sph_harmonic_checks degree order az pol;
  mret (grad_out_at degree order <$> zip (zip rad az) pol).

(** The innermost loop, [for pt_i in range(0, len(int_lens) - 1)]. *)
Definition sum_over_sensors (sp : space) (all_grads : list float64)
    (int_lens : list nat) (col : Z) (spc : ndarray float64)
  : M (ndarray float64) :=
  for_each (seq 0 (length int_lens - 1))
    (fun pt_i spc =>
       let int_pts_sum :=
         np_sum (py_slice all_grads (nth pt_i int_lens O) (nth (pt_i + 1) int_lens O)) in
       store_entry sp spc (Z.of_nat pt_i) col int_pts_sum)
    spc.

(** The body of the loop over the orders: the gradients at every integration
    point, their weighted dot products with the normals, and the sums per
    sensor into column [deg ** 2 + deg + order - 1]. *)
Definition fill_column (sp : space)
    (g_func : Z -> Z -> list float64 -> list float64 -> list float64 -> result (list fvec3))
    (cvec_sph : list fvec3) (ncoils : list vec3) (wcoils : list R)
    (int_lens : list nat) (deg order : Z) (spc : ndarray float64)
  : M (ndarray float64) :=
  grads ← lift (g_func deg order ((fun s : fvec3 => s.1.1) <$> cvec_sph)
                                 ((fun s : fvec3 => s.1.2) <$> cvec_sph)
                                 ((fun s : fvec3 => s.2) <$> cvec_sph));
  let grads := fvec_scale (Num (-1)) <$> grads in
  let all_grads :=
    zip_with f_mul (Num <$> wcoils) (zip_with row_dot grads (fvec_of <$> ncoils)) in
  sum_over_sensors sp all_grads int_lens (moment_column deg order) spc.

(** The body of [for spc, g_func, order in zip(...)]: the loops over the
    degrees and orders, then the scaling and the normalisation of [spc].
    [range(1, order + 1)] is built before the inner loop rebinds [order]. *)
Definition fill_space (sp : space)
    (g_func : Z -> Z -> list float64 -> list float64 -> list float64 -> result (list fvec3))
    (order : Z) (cvec_sph : list fvec3) (ncoils : list vec3) (wcoils : list R)
    (int_lens : list nat) (coil_scale : list R) (spc : ndarray float64)
  : M (ndarray float64) :=
  spc ← for_each (py_range 1 (order + 1))
    (fun deg spc =>
       for_each (py_range (- deg) (deg + 1))
         (fill_column sp g_func cvec_sph ncoils wcoils int_lens deg)
         spc)
    spc;
  let spc := scale_rows spc coil_scale in
  mret (normalize_columns spc).

(** [_sss_basis] *)
Definition _sss_basis (origin : vec3) (coils : list coil) (int_order ext_order : Z)
  : M (ndarray float64 * ndarray float64) :=
  let '(r_int_pts, ncoils, wcoils, int_pts) := _concatenate_coils coils in
  let n_sens := length int_pts in
  let n_bases := get_num_moments int_order ext_order in
  let int_lens := O :: np_cumsum int_pts in
  S_in ← lift (np_full n_sens ((int_order + 1) ^ 2 - 1) NaN);
  S_out ← lift (np_full n_sens ((ext_order + 1) ^ 2 - 1) NaN);
  let coil_scale := coil_scale_of coils in
  if (n_bases >? Z.of_nat n_sens)%Z then
    raise (ValueError ("Number of requested bases (" +:+ str_of_Z n_bases
                       +:+ ") exceeds number of sensors ("
                       +:+ str_of_Z (Z.of_nat n_sens) +:+ ")"))
  else
    let cvec_cart :=
      (fun p : vec3 => (p.1.1 - origin.1.1, p.1.2 - origin.1.2, p.2 - origin.2)%R)
        <$> r_int_pts in
    cvec_sph ← lift (_cart_to_sph cvec_cart);
    S_in ← fill_space Internal _grad_in_components int_order cvec_sph ncoils
                      wcoils int_lens coil_scale S_in;
    S_out ← fill_space External _grad_out_components ext_order cvec_sph ncoils
                       wcoils int_lens coil_scale S_out;
    mret (S_in, S_out).

(* ================================================================== *)
(** * 8. Projector *)

(** [scipy.linalg.pinv] validates its argument with [asarray_chkfinite]: an
    array holding [inf] or [nan] is refused with a [ValueError]. *)
Definition finite_b (x : float64) : bool :=
  match x with Num _ => true | _ => false end.
Definition all_finite (a : ndarray float64) : bool :=
  forallb (fun i => forallb (fun j => finite_b (item a i j)) (seq 0 (ncols a)))
          (seq 0 (nrows a)).
Definition to_real (x : float64) : R :=
  match x with Num r => r | _ => 0%R end.
Definition real_part (a : ndarray float64) : ndarray R :=
  NdArray (nrows a) (ncols a) (fun i j => to_real (item a i j)).

Definition scipy_pinv (a : ndarray float64) (cond : R) : result (ndarray R) :=
  if all_finite a then Ok (pinv cond (real_part a))
  else Raise (ValueError "array must not contain infs or NaNs").

(** Lines 87 to 94 of [maxwell_filter]: the moments [mm] and the
    reconstruction [recon] from the two bases, the data rows and the
    magnetometer scaling. *)
Definition reconstruct (S_in S_out : ndarray float64) (data : ndarray R)
    (coil_scale : list R) : result (ndarray R * ndarray R) :=
  let S_tot := np_c_ S_in S_out in
  pS_tot ← scipy_pinv S_tot 1e-15;
  mm ← np_dot pS_tot (mul_rows data coil_scale);
  recon ← np_dot (real_part S_in) (rows_upto (ncols S_in) mm);
  mret (mm, recon).

(** The projection-and-reconstruction step on a data matrix: [reconstruct],
    then [recon / coil_scale[:, np.newaxis]] as line 99 stores it. *)
Definition projection_step (S_in S_out : ndarray float64) (coil_scale : list R)
    (data : ndarray R) : result (ndarray R) :=
  '(_, recon) ← reconstruct S_in S_out data coil_scale;
  mret (div_rows recon coil_scale).

(* ================================================================== *)
(** * 9. Orchestration *)

(** [[k for k, x in enumerate(l) if P(x)]] *)
Definition positions {A} (P : A -> Prop) `{forall x, Decision (P x)} (l : list A)
  : list nat :=
  (filter (fun kx : nat * A => P kx.2) (zip (seq 0 (length l)) l)).*1.

(** [l.index(x)] *)
Definition list_index (l : list string) (x : string) : result nat :=
  match list_find (fun y => y = x) l with
  | Some (i, _) => Ok i
  | None => Raise (ValueError "x is not in list")
  end.

(** [l[i]] for [i >= 0] *)
Definition list_getitem {A} (l : list A) (i : nat) : result A :=
  match l !! i with
  | Some x => Ok x
  | None => Raise (IndexError "list index out of range")
  end.

(** Modelled from the spec: [pick_types(info, meg=True, eeg=False,
    ref_meg=False, exclude=[])] is imported from the package; FilterOrchestrator
    step 2 has it select only the MEG-type channels, in channel order. *)
Definition pick_types_meg (i : Info) : list nat :=
  positions (fun c => kind c = FIFFV_MEG_CH) (chs i).

(** Modelled from the spec: [pick_info(info, sel)['chs']], the channel
    descriptions at the selected positions. *)
Definition pick_info_chs (i : Info) (sel : list nat) : list channel :=
  omap (fun k => chs i !! k) sel.

(** Modelled from the spec: [_create_coils] is imported from
    [forward/_make_forward.py]; section 6 has the geometry provider yield, per
    MEG channel, the integration points with normals and weights and the coil
    class; the coil carries its channel's name. *)
Definition _create_coils (megchs : list channel) : list coil :=
  (fun ch => Coil (ch_name ch) (coil_geometry ch).1 (coil_geometry ch).2) <$> megchs.

(** [_make_coils(info, accurate=True, elekta_defs=True)].  Reading the
    coil definition file has no part in what is returned beyond
    [coil_geometry]. *)
Definition _make_coils (i : Info) : M (list coil * list channel) :=
  let picks := pick_types_meg i in
  let nmeg := length picks in
  let megchs := pick_info_chs i picks in
  if (nmeg <=? 0)%nat then raise (RuntimeError "Could not find any MEG channels")
  else
    let meg_info := pick_info_chs i picks in
    _ ← emit EvCreateCoils;
    mret (_create_coils megchs, meg_info).

(** Modelled from the spec: [Raw.pick_channels(names)] belongs to the data
    container; FilterOrchestrator step 2 has the record restricted to the
    selected channels.  The source calls it as a statement on [raw] and drops
    what it returns: the restriction is made on the object itself.  The
    channels named are kept in the record's order, with their data rows. *)
Definition pick_channels (r : Raw) (names : list string) : Raw :=
  let idx := positions (fun c => ch_name c ∈ names) (chs (info r)) in
  MkRaw (MkInfo (pick_info_chs (info r) idx) (bads (info r))
                (maxshield (info r)) (proc_history (info r)))
        (take_rows (_data r) idx).

Definition pick_channels_inplace (raw : loc) (names : list string) : M unit :=
  r ← deref raw;
  _ ← emit (EvPickChannels raw);
  assign raw (pick_channels r names).

(** [raw[picks, :]]: the data rows at [picks] (the times are not used). *)
Definition raw_getitem (r : Raw) (picks : list nat) : result (ndarray R) :=
  if forallb (fun p => p <? nrows (_data r))%nat picks then Ok (take_rows (_data r) picks)
  else Raise (IndexError "index is out of bounds").

(** [raw.copy()]: a deep copy, a new object with the same contents. *)
Definition raw_copy (raw : loc) : M loc :=
  r ← deref raw;
  l ← alloc r;
  _ ← emit (EvCopy raw l);
  mret l.

(** [_update_info]: works on the object it is passed and returns it. *)
Definition _update_info (raw : loc) (origin : vec3) (int_order ext_order : Z)
    (nsens nmoments : nat) : M loc :=
  r ← deref raw;
  let info_dict := ProcRecord int_order ext_order origin nsens nmoments
                              "MNE's Maxwell Filter" in
  let history :=
    match proc_history (info r) with
    | Some h => info_dict :: h
    | None => [info_dict]
    end in
  _ ← assign raw (MkRaw (MkInfo (chs (info r)) (bads (info r)) (Some false) (Some history))
                        (_data r));
  mret raw.

(** [raw_sss._data[:, :] = v]: NumPy broadcasts [v] to the shape of [_data]
    or refuses. *)
Definition assign_data (raw_sss : loc) (v : ndarray R) : M unit :=
  r ← deref raw_sss;
  let n := nrows (_data r) in
  let t := ncols (_data r) in
  if bool_decide ((nrows v = n \/ nrows v = 1%nat) /\ (ncols v = t \/ ncols v = 1%nat)) then
    _ ← emit (EvAssignData raw_sss);
    assign raw_sss
      (MkRaw (info r)
         (NdArray n t (fun i j => item v (if bool_decide (nrows v = n) then i else O)
                                         (if bool_decide (ncols v = t) then j else O))))
  else raise (ValueError "could not broadcast input array").

(** Lines 66 to 77 of [maxwell_filter]: the coils of the MEG channels, their
    positions [picks] among the channels, the restriction of [raw] to them and
    the data rows [raw[picks, :]]. *)
Definition select_meg (raw : loc) : M (list coil * list nat * ndarray R) :=
  r ← deref raw;
  '(all_coils, meg_info) ← _make_coils (info r);
  picks ← lift (mapM (fun c => list_index (ch_names (info r)) (chname c)) all_coils);
  coils ← lift (mapM (list_getitem all_coils) picks);
  _ ← pick_channels_inplace raw (chname <$> coils);
  r ← deref raw;
  data ← lift (raw_getitem r picks);
  mret (coils, picks, data).

(** [maxwell_filter(raw, origin, int_order, ext_order)]; [raw] is a
    reference to the container. *)
Definition maxwell_filter (raw : loc) (origin : vec3) (int_order ext_order : Z)
  : M loc :=
  r ← deref raw;
  if (0 <? length (bads (info r)))%nat then
    raise (RuntimeError "Maxwell filter does not yet handle bad channels.")
  else
    '(coils, picks, data) ← select_meg raw;
    let coil_scale := coil_scale_of coils in
    let origin := (origin.1.1 / 1000, origin.1.2 / 1000, origin.2 / 1000)%R in
    '(S_in, S_out) ← _sss_basis origin coils int_order ext_order;
    _ ← emit EvPinv;
    '(mm, recon) ← lift (reconstruct S_in S_out data coil_scale);
    raw_copied ← raw_copy raw;
    raw_sss ← _update_info raw_copied origin int_order ext_order (nrows data) (nrows mm);
    _ ← assign_data raw_sss (div_rows recon coil_scale);
    mret raw_sss.

End Maxwell.

(* ================================================================== *)
(** * 10. Loops and array updates *)

(** The loop rule: an invariant indexed by the number of iterations done. *)
Lemma for_each_invariant {A St} (I : nat -> St -> world -> Prop) (l : list A)
    (body : A -> St -> M St) (s : St) (w : world) :
  I O s w ->
  (forall k x s w, l !! k = Some x -> I k s w ->
     exists s' w', body x s w = (Ok s', w') /\ I (S k) s' w') ->
  exists s' w', for_each l body s w = (Ok s', w') /\ I (length l) s' w'.
Proof.
  revert I s w. induction l as [|x l IH]; intros I s w H0 Hstep.
  - exists s, w. split; [reflexivity | exact H0].
  - destruct (Hstep O x s w eq_refl H0) as (s1 & w1 & Hb & H1).
    destruct (IH (fun k => I (S k)) s1 w1 H1) as (s2 & w2 & Hl & H2).
    { intros k y s' w' Hk HI. apply (Hstep (S k) y s' w' Hk HI). }
    exists s2, w2. split; [|exact H2].
    cbn [for_each]. unfold mbind, M_bind. rewrite Hb. exact Hl.
Qed.

Lemma for_each_app {A St} (l1 l2 : list A) (body : A -> St -> M St) s w :
  for_each (l1 ++ l2) body s w = (s' ← for_each l1 body s; for_each l2 body s') w.
Proof.
  revert s w. induction l1 as [|y l1 IH]; intros s w; [reflexivity|].
  cbn [app for_each]. unfold mbind, M_bind.
  destruct (body y s w) as [[s1|e] w1]; [|reflexivity].
  apply IH.
Qed.

Lemma for_each_fmap {A B St} (g : A -> B) (l : list A) (body : B -> St -> M St) s w :
  for_each (g <$> l) body s w = for_each l (fun x => body (g x)) s w.
Proof.
  revert s w. induction l as [|y l IH]; intros s w; [reflexivity|].
  rewrite fmap_cons. cbn [for_each]. unfold mbind, M_bind.
  destruct (body (g y) s w) as [[s1|e] w1]; [|reflexivity].
  apply IH.
Qed.

(** Two nested loops run like one loop over the list of pairs. *)
Lemma for_each_nested {A B St} (l : list A) (f : A -> list B)
    (body : A -> B -> St -> M St) (s : St) (w : world) :
  for_each l (fun x s => for_each (f x) (body x) s) s w =
  for_each (l ≫= (fun x => pair x <$> f x)) (fun p s => body p.1 p.2 s) s w.
Proof.
  revert s w. induction l as [|x l IH]; intros s w; [reflexivity|].
  rewrite bind_cons, for_each_app. cbn [for_each]. unfold mbind, M_bind.
  rewrite for_each_fmap. cbn [fst snd].
  destruct (for_each (f x) _ s w) as [[s1|e] w1]; [|reflexivity].
  apply IH.
Qed.

Lemma np_index_in_range (n i : nat) :
  (i < n)%nat -> np_index n (Z.of_nat i) = Ok i.
Proof.
  intros Hi. unfold np_index.
  destruct (Z.ltb_spec (Z.of_nat i) 0) as [Hneg|_]; [lia|].
  destruct (Z.leb_spec 0 (Z.of_nat i)) as [_|Hneg]; [|lia].
  destruct (Z.ltb_spec (Z.of_nat i) (Z.of_nat n)) as [_|Hge]; [|lia].
  cbn. by rewrite Nat2Z.id.
Qed.

(** An in-range [spc[i, j] = v]: the entry changes, the shape and every
    other entry stay, the write is recorded. *)
Lemma store_entry_in_range sp spc (i j : nat) v w :
  (i < nrows spc)%nat -> (j < ncols spc)%nat ->
  exists spc',
    store_entry sp spc (Z.of_nat i) (Z.of_nat j) v w =
      (Ok spc', World (objs w) (trace w ++ [EvSetItem sp i j])) /\
    nrows spc' = nrows spc /\ ncols spc' = ncols spc /\
    forall r c, item spc' r c = if bool_decide (r = i /\ c = j) then v else item spc r c.
Proof.
  intros Hi Hj. eexists. split.
  - unfold store_entry, lift, emit, mbind, M_bind, mret, M_ret.
    rewrite (np_index_in_range _ _ Hi), (np_index_in_range _ _ Hj). reflexivity.
  - cbn. auto.
Qed.

Lemma world_eta (w : world) o t : objs w = o -> trace w = t -> w = World o t.
Proof. destruct w; cbn; intros -> ->; reflexivity. Qed.

(** The value the innermost loop stores for sensor [r]. *)
Definition sensor_sum (all_grads : list float64) (int_lens : list nat) (r : nat)
  : float64 :=
  np_sum (py_slice all_grads (nth r int_lens O) (nth (r + 1) int_lens O)).

(** The innermost loop fills one column, one write per sensor. *)
Lemma sum_over_sensors_spec sp all_grads int_lens (col : nat) spc w :
  (length int_lens - 1 <= nrows spc)%nat -> (col < ncols spc)%nat ->
  exists spc',
    sum_over_sensors sp all_grads int_lens (Z.of_nat col) spc w =
      (Ok spc', World (objs w)
                  (trace w ++ ((fun i => EvSetItem sp i col) <$> seq 0 (length int_lens - 1)))) /\
    nrows spc' = nrows spc /\ ncols spc' = ncols spc /\
    forall r c, item spc' r c =
                if bool_decide ((r < length int_lens - 1)%nat /\ c = col)
                then sensor_sum all_grads int_lens r else item spc r c.
Proof.
  intros Hn Hc. unfold sum_over_sensors.
  set (n := (length int_lens - 1)%nat) in *.
  set (body := fun (pt_i : nat) (s : ndarray float64) => _).
  destruct (for_each_invariant
    (fun k s w' =>
       objs w' = objs w /\
       trace w' = trace w ++ ((fun i => EvSetItem sp i col) <$> seq 0 k) /\
       nrows s = nrows spc /\ ncols s = ncols spc /\
       forall r c, item s r c =
                   if bool_decide ((r < k)%nat /\ c = col)
                   then sensor_sum all_grads int_lens r else item spc r c)
    (seq 0 n) body spc w) as (s' & w' & Hrun & Ho & Ht & Hr & Hcs & Hit).
  - split_and!; try reflexivity. cbn. by rewrite app_nil_r.
  - intros k x s w1 Hk (Ho & Ht & Hr & Hcs & Hit).
    apply lookup_seq in Hk as [-> Hk]. cbn in Hk.
    destruct (store_entry_in_range sp s k col (sensor_sum all_grads int_lens k) w1)
      as (s2 & Hs & Hr2 & Hc2 & Hit2); [lia | lia |].
    eexists s2, _. split; [exact Hs|]. cbn [objs trace].
    split_and!; try congruence.
    + rewrite Ht, seq_S, fmap_app, app_assoc. reflexivity.
    + intros r c. rewrite Hit2, Hit.
      repeat case_bool_decide; destruct_and?; subst; try reflexivity;
        exfalso; naive_solver lia.
  - rewrite length_seq in *. exists s'. split.
    + rewrite Hrun. f_equal. by apply world_eta.
    + auto.
Qed.

(* ================================================================== *)
(** * 11. The column numbering *)

(** The (degree, order) pairs in the order the two outer loops visit them. *)
Definition moment_pairs (L : Z) : list (Z * Z) :=
  py_range 1 (L + 1) ≫= (fun deg => pair deg <$> py_range (- deg) (deg + 1)).

(** The pair a column belongs to. *)
Definition column_degree (c : Z) : Z := Z.sqrt (c + 1).
Definition column_order (c : Z) : Z := c + 1 - column_degree c ^ 2 - column_degree c.

(** The loops visit the columns 0, 1, 2, ... in this order, each once. *)
Lemma moment_columns_enumerate (L : Z) :
  (0 <= L)%Z ->
  (fun p : Z * Z => moment_column p.1 p.2) <$> moment_pairs L = seqZ 0 (n_columns L).
Proof.
  intros HL. rewrite <- (Z2Nat.id L HL). clear HL.
  induction (Z.to_nat L) as [|n IH]; [reflexivity|].
  unfold moment_pairs, py_range in *.
  replace (Z.of_nat (S n) + 1 - 1)%Z with (Z.of_nat (S n)) by lia.
  replace (Z.of_nat n + 1 - 1)%Z with (Z.of_nat n) in IH by lia.
  rewrite seqZ_S, bind_app, fmap_app, IH. cbn [mbind list_bind]. rewrite app_nil_r.
  rewrite <- list_fmap_compose.
  set (d := (1 + Z.of_nat n)%Z).
  rewrite (list_fmap_ext _ (Z.add (d ^ 2 + d - 1)))
    by (intros; cbn; unfold moment_column; lia).
  rewrite fmap_add_seqZ. unfold n_columns.
  replace ((Z.of_nat (S n) + 1) ^ 2 - 1)%Z
    with (((Z.of_nat n + 1) ^ 2 - 1) + (d + 1 - - d))%Z by lia.
  rewrite seqZ_app by lia. f_equal. f_equal. lia.
Qed.

Lemma moment_pairs_length (L : Z) :
  (0 <= L)%Z -> length (moment_pairs L) = Z.to_nat (n_columns L).
Proof.
  intros HL. rewrite <- (length_fmap (fun p : Z * Z => moment_column p.1 p.2)).
  by rewrite moment_columns_enumerate, length_seqZ.
Qed.

Lemma moment_pairs_elem (L d o : Z) :
  (d, o) ∈ moment_pairs L <-> (1 <= d <= L /\ - d <= o <= d)%Z.
Proof.
  unfold moment_pairs, py_range. rewrite list_elem_of_bind. split.
  - intros (deg & Ho & Hd). apply elem_of_seqZ in Hd.
    apply list_elem_of_fmap in Ho as (order & [= -> ->] & Ho).
    apply elem_of_seqZ in Ho. lia.
  - intros [Hd Ho]. exists d. split.
    + apply list_elem_of_fmap. exists o. split; [reflexivity|]. apply elem_of_seqZ. lia.
    + apply elem_of_seqZ. lia.
Qed.

(** The [k]-th pair visited writes column [k]. *)
Lemma moment_pairs_lookup (L : Z) (k : nat) (d o : Z) :
  (0 <= L)%Z -> moment_pairs L !! k = Some (d, o) ->
  moment_column d o = Z.of_nat k /\ (1 <= d <= L)%Z /\ (- d <= o <= d)%Z.
Proof.
  intros HL Hk. split.
  - pose proof (moment_columns_enumerate L HL) as He.
    apply (f_equal (fun l => l !! k)) in He.
    rewrite list_lookup_fmap, Hk in He. cbn in He. symmetry in He.
    apply lookup_seqZ in He as [-> _]. lia.
  - apply moment_pairs_elem. by eapply list_elem_of_lookup_2.
Qed.

(** The inverse of the numbering. *)
Lemma column_pair_inverse (d o : Z) :
  (1 <= d)%Z -> (- d <= o <= d)%Z ->
  column_degree (moment_column d o) = d /\ column_order (moment_column d o) = o.
Proof.
  intros Hd Ho. unfold column_order, column_degree, moment_column.
  assert (Hs : Z.sqrt (d ^ 2 + d + o - 1 + 1) = d).
  { apply Z.sqrt_unique. nia. }
  rewrite Hs. split; [reflexivity | lia].
Qed.

(* ================================================================== *)
(** * 12. Spherical coordinates *)

#[local] Open Scope R_scope.

(** One row of what [_cart_to_sph] returns. *)
Definition sph_of (p : vec3) : fvec3 :=
  (Num (norm3 p), Num (arctan2 p.1.2 p.1.1), arccos (f_div (Num p.2) (Num (norm3 p)))).

(** What the argument checks of [_sph_harmonic] ask of a row. *)
Definition sph_ok (s : fvec3) : Prop :=
  f_lt s.1.2 (Num (-2 * PI)) = false /\ f_gt s.1.2 (Num (2 * PI)) = false /\
  f_lt s.2 (Num 0) = false /\ f_gt s.2 (Num PI) = false.

Lemma cart_to_sph_rows (cart_pts : list vec3) :
  _cart_to_sph cart_pts = Ok (sph_of <$> cart_pts).
Proof.
  unfold _cart_to_sph. f_equal.
  induction cart_pts as [|[[x y] z] l IH]; [reflexivity|].
  cbn [fmap list_fmap zip zip_with] in *. rewrite IH. reflexivity.
Qed.

Lemma norm3_zero (p : vec3) : norm3 p = 0 <-> p = (0, 0, 0).
Proof.
  destruct p as [[x y] z]. unfold norm3. split.
  - intros H. apply sqrt_eq_0 in H; [|nra].
    assert (x = 0) by nra. assert (y = 0) by nra. assert (z = 0) by nra.
    by subst.
  - intros [= -> -> ->].
    replace (0 * 0 + 0 * 0 + 0 * 0) with 0 by ring. apply sqrt_0.
Qed.

(** At a point of norm zero the radius and the azimuth are 0 and the polar
    angle is [nan]: [0 / 0] is [nan], and so is its arc cosine. *)
Lemma sph_of_norm_zero (p : vec3) :
  norm3 p = 0 -> sph_of p = (Num 0, Num 0, NaN).
Proof.
  intros H. unfold sph_of. rewrite H. apply norm3_zero in H as ->. cbn.
  unfold arctan2, inf_of_sign.
  repeat (destruct (Rlt_dec _ _); try lra).
  destruct (Req_dec_T 0 0); [reflexivity | congruence].
Qed.

Lemma arctan2_bound (y x : R) : -2 * PI < arctan2 y x < 2 * PI.
Proof.
  pose proof PI_RGT_0. pose proof (atan_bound (y / x)).
  unfold arctan2. repeat destruct (Rlt_dec _ _); lra.
Qed.

(** The rows of [_cart_to_sph] pass the argument checks of [_sph_harmonic]. *)
Lemma sph_of_ok (p : vec3) : sph_ok (sph_of p).
Proof.
  pose proof PI_RGT_0. pose proof (arctan2_bound p.1.2 p.1.1).
  unfold sph_ok, sph_of, f_gt. cbn [fst snd f_lt]. split_and!.
  - destruct (Rlt_dec _ _); [lra | reflexivity].
  - destruct (Rlt_dec _ _); [lra | reflexivity].
  - destruct (f_div _ _) as [a| | |]; cbn; try reflexivity.
    pose proof (acos_bound a).
    repeat (destruct (Rlt_dec _ _); cbn; try reflexivity). lra.
  - destruct (f_div _ _) as [a| | |]; cbn; try reflexivity.
    pose proof (acos_bound a).
    repeat (destruct (Rlt_dec _ _); cbn; try reflexivity). lra.
Qed.

Lemma sph_harmonic_checks_pass (degree order : Z) (cvec_sph : list fvec3) :
  (Z.abs order <= degree)%Z -> Forall sph_ok cvec_sph ->
  _sph_harmonic_checks degree order ((fun s : fvec3 => s.1.2) <$> cvec_sph)
                       ((fun s : fvec3 => s.2) <$> cvec_sph) = Ok tt.
Proof.
  intros Ho Hok. unfold _sph_harmonic_checks.
  destruct (Z.gtb_spec (Z.abs order) degree) as [Hgt|_]; [lia|].
  assert (Hex : forall (f : fvec3 -> float64) (t : float64 -> bool),
             Forall (fun s => t (f s) = false) cvec_sph ->
             existsb t (f <$> cvec_sph) = false).
  { clear. intros f t Hf. induction Hf as [|s l Hs _ IH]; [reflexivity|].
    rewrite fmap_cons. cbn [existsb]. rewrite Hs, IH. reflexivity. }
  rewrite !Hex; [reflexivity | ..];
    (eapply Forall_impl; [exact Hok|]); intros s (? & ? & ? & ?); assumption.
Qed.

(* ================================================================== *)
(** * 13. The assembly loop *)

(** [_grad_in_components] and [_grad_out_components] share their shape:
    the checks, then the gradient row by row. *)
Definition checked_grad (g_at : Z -> Z -> fvec3 -> fvec3) (degree order : Z)
    (rad az pol : list float64) : result (list fvec3) :=
  _ ← _sph_harmonic_checks degree order az pol;
  mret (g_at degree order <$> zip (zip rad az) pol).

(** [all_grads] of one (degree, order) pair. *)
Definition weighted_flux (g_at : Z -> Z -> fvec3 -> fvec3) (cvec_sph : list fvec3)
    (ncoils : list vec3) (wcoils : list R) (deg order : Z) : list float64 :=
  zip_with f_mul (Num <$> wcoils)
    (zip_with row_dot (fvec_scale (Num (-1)) <$> (g_at deg order <$> cvec_sph))
              (fvec_of <$> ncoils)).

(** The entry of sensor [r] in column [c] before scaling and normalisation. *)
Definition basis_entry (g_at : Z -> Z -> fvec3 -> fvec3) (cvec_sph : list fvec3)
    (ncoils : list vec3) (wcoils : list R) (int_lens : list nat) (r c : nat)
  : float64 :=
  sensor_sum (weighted_flux g_at cvec_sph ncoils wcoils
                (column_degree (Z.of_nat c)) (column_order (Z.of_nat c)))
             int_lens r.

(** The writes of a full assembly of [m] columns over [n] sensors, in order. *)
Definition writes (sp : space) (n m : nat) : list event :=
  seq 0 m ≫= (fun c => (fun i => EvSetItem sp i c) <$> seq 0 n).

Lemma zip_columns (l : list fvec3) :
  zip (zip ((fun s : fvec3 => s.1.1) <$> l) ((fun s : fvec3 => s.1.2) <$> l))
      ((fun s : fvec3 => s.2) <$> l) = l.
Proof.
  induction l as [|[[a b] c] l IH]; [reflexivity|].
  rewrite !fmap_cons. cbn [zip zip_with fst snd]. by rewrite IH.
Qed.

Lemma writes_S sp n m :
  writes sp n (S m) = writes sp n m ++ ((fun i => EvSetItem sp i m) <$> seq 0 n).
Proof.
  unfold writes. rewrite seq_S, bind_app. cbn [mbind list_bind]. by rewrite app_nil_r.
Qed.

(** The loops of [fill_space]: every column below the column count is
    written for every sensor, in column order; the result is then scaled
    and normalised. *)
Lemma fill_space_spec sp g_at (L : Z) cvec_sph ncoils wcoils int_lens cs spc w :
  (0 <= L)%Z -> Forall sph_ok cvec_sph ->
  (length int_lens - 1 <= nrows spc)%nat ->
  ncols spc = Z.to_nat (n_columns L) ->
  exists A,
    fill_space sp (checked_grad g_at) L cvec_sph ncoils wcoils int_lens cs spc w =
      (Ok (normalize_columns (scale_rows A cs)),
       World (objs w) (trace w ++ writes sp (length int_lens - 1) (ncols spc))) /\
    nrows A = nrows spc /\ ncols A = ncols spc /\
    forall r c, item A r c =
                if bool_decide ((r < length int_lens - 1)%nat /\ (c < ncols spc)%nat)
                then basis_entry g_at cvec_sph ncoils wcoils int_lens r c
                else item spc r c.
Proof.
  intros HL Hok Hn Hc. unfold fill_space.
  set (n := (length int_lens - 1)%nat) in *.
  set (body := fill_column sp (checked_grad g_at) cvec_sph ncoils wcoils int_lens).
  assert (Hloop : exists A w',
    for_each (moment_pairs L) (fun p s => body p.1 p.2 s) spc w = (Ok A, w') /\
    objs w' = objs w /\
    trace w' = trace w ++ writes sp n (length (moment_pairs L)) /\
    nrows A = nrows spc /\ ncols A = ncols spc /\
    forall r c, item A r c =
                if bool_decide ((r < n)%nat /\ (c < length (moment_pairs L))%nat)
                then basis_entry g_at cvec_sph ncoils wcoils int_lens r c
                else item spc r c).
  { pose (I := fun (k : nat) (s : ndarray float64) (w' : world) =>
         objs w' = objs w /\ trace w' = trace w ++ writes sp n k /\
         nrows s = nrows spc /\ ncols s = ncols spc /\
         forall r c, item s r c =
                     if bool_decide ((r < n)%nat /\ (c < k)%nat)
                     then basis_entry g_at cvec_sph ncoils wcoils int_lens r c
                     else item spc r c).
    apply (for_each_invariant I); unfold I.
    - split_and!; try reflexivity.
      + cbn. by rewrite app_nil_r.
      + intros r c. rewrite bool_decide_eq_false_2; [reflexivity | lia].
    - intros k [d o] s w1 Hk (Ho & Ht & Hr & Hcs & Hit).
      pose proof (lookup_lt_Some _ _ _ Hk) as Hlt.
      rewrite moment_pairs_length in Hlt by assumption.
      destruct (moment_pairs_lookup L k d o HL Hk) as (Hcol & Hd & Hord).
      destruct (column_pair_inverse d o) as [Hdeg Hor]; [lia | lia |].
      rewrite Hcol in Hdeg, Hor.
      unfold body, fill_column. cbn [fst snd]. unfold checked_grad.
      rewrite sph_harmonic_checks_pass by (assumption || lia).
      unfold mbind at 1. unfold M_bind, lift. cbn [mbind result_bind mret result_ret].
      rewrite zip_columns, Hcol.
      destruct (sum_over_sensors_spec sp
                  (weighted_flux g_at cvec_sph ncoils wcoils d o) int_lens k s w1)
        as (s2 & Hs & Hr2 & Hc2 & Hit2); [fold n; lia | lia |].
      exists s2. eexists. split; [exact Hs|]. cbn [objs trace]. fold n.
      split_and!; try congruence.
      + rewrite Ht, writes_S, app_assoc. reflexivity.
      + intros r c. rewrite Hit2, Hit. fold n. unfold basis_entry.
        repeat case_bool_decide; destruct_and?; subst; try reflexivity;
          exfalso; naive_solver lia. }
  destruct Hloop as (A & w' & Hrun & Ho & Ht & Hr & Hcs & Hit).
  rewrite moment_pairs_length in Ht, Hit by assumption. rewrite <- Hc in Ht, Hit.
  exists A. split; [|auto].
  unfold mbind at 1. unfold M_bind.
  rewrite (for_each_nested (py_range 1 (L + 1))
             (fun deg => py_range (- deg) (deg + 1)) body spc w).
  fold (moment_pairs L). rewrite Hrun. cbn. f_equal. by apply world_eta.
Qed.

(* ================================================================== *)
(** * 14. [_sss_basis] as a whole *)

Lemma cumsum_from_length (a : nat) (l : list nat) :
  length (cumsum_from a l) = length l.
Proof. revert a. induction l as [|x l IH]; intros a; cbn; [reflexivity | by rewrite IH]. Qed.

(** The spherical coordinates of all integration points about [origin]. *)
Definition cvec_sph_of (origin : vec3) (coils : list coil) : list fvec3 :=
  sph_of <$> ((fun p : vec3 => (p.1.1 - origin.1.1, p.1.2 - origin.1.2, p.2 - origin.2))
                <$> (_concatenate_coils coils).1.1.1).

(** The entry of sensor [r] in column [c] of a basis before the scaling and
    the normalisation, from the coils. *)
Definition raw_entry (g_at : Z -> Z -> fvec3 -> fvec3) (origin : vec3)
    (coils : list coil) (r c : nat) : float64 :=
  basis_entry g_at (cvec_sph_of origin coils)
    (_concatenate_coils coils).1.1.2 (_concatenate_coils coils).1.2
    (O :: np_cumsum (_concatenate_coils coils).2) r c.

(** The message of the one error [_sss_basis] raises itself. *)
Definition too_many_bases (n_bases : Z) (n_sens : nat) : exn :=
  ValueError ("Number of requested bases (" +:+ str_of_Z n_bases
              +:+ ") exceeds number of sensors ("
              +:+ str_of_Z (Z.of_nat n_sens) +:+ ")").

Lemma n_columns_nonneg (L : Z) : (0 <= L)%Z -> (0 <= n_columns L)%Z.
Proof. unfold n_columns. nia. Qed.

(** More bases than sensors: the call raises, and the world is as before. *)
Lemma sss_basis_rejects g_in g_out origin coils (int_order ext_order : Z) w :
  (0 <= int_order)%Z -> (0 <= ext_order)%Z ->
  (get_num_moments int_order ext_order > Z.of_nat (length coils))%Z ->
  _sss_basis g_in g_out origin coils int_order ext_order w =
    (Raise (too_many_bases (get_num_moments int_order ext_order) (length coils)), w).
Proof.
  intros Hi He Hgt. unfold _sss_basis, _concatenate_coils.
  rewrite !length_fmap.
  pose proof (n_columns_nonneg _ Hi) as Hci. pose proof (n_columns_nonneg _ He) as Hce.
  unfold n_columns in Hci, Hce. unfold np_full, lift.
  destruct (Z.ltb_spec ((int_order + 1) ^ 2 - 1) 0) as [?|_]; [lia|].
  destruct (Z.ltb_spec ((ext_order + 1) ^ 2 - 1) 0) as [?|_]; [lia|].
  unfold mbind, M_bind.
  destruct (Z.gtb_spec (get_num_moments int_order ext_order) (Z.of_nat (length coils)))
    as [_|?]; [|lia].
  reflexivity.
Qed.

(** No more bases than sensors: the call returns the two bases, each the
    normalised, scaled array of the entries [raw_entry], and its writes are
    those of the two assemblies, the internal one first. *)
Lemma sss_basis_returns g_in g_out origin coils (int_order ext_order : Z) w :
  (0 <= int_order)%Z -> (0 <= ext_order)%Z ->
  (get_num_moments int_order ext_order <= Z.of_nat (length coils))%Z ->
  let n := length coils in
  let cs := coil_scale_of coils in
  exists A_in A_out,
    _sss_basis g_in g_out origin coils int_order ext_order w =
      (Ok (normalize_columns (scale_rows A_in cs), normalize_columns (scale_rows A_out cs)),
       World (objs w) (trace w ++ writes Internal n (Z.to_nat (n_columns int_order))
                               ++ writes External n (Z.to_nat (n_columns ext_order)))) /\
    (nrows A_in = n /\ ncols A_in = Z.to_nat (n_columns int_order)) /\
    (nrows A_out = n /\ ncols A_out = Z.to_nat (n_columns ext_order)) /\
    (forall r c, (r < n)%nat -> (c < ncols A_in)%nat ->
                 item A_in r c = raw_entry g_in origin coils r c) /\
    (forall r c, (r < n)%nat -> (c < ncols A_out)%nat ->
                 item A_out r c = raw_entry g_out origin coils r c).
Proof.
  intros Hi He Hle n cs. subst cs. unfold _sss_basis.
  pose proof (n_columns_nonneg _ Hi) as Hci. pose proof (n_columns_nonneg _ He) as Hce.
  unfold n_columns in Hci, Hce.
  destruct (_concatenate_coils coils) as [[[r_int_pts ncoils] wcoils] int_pts] eqn:Hcc.
  assert (Hlen : length int_pts = n).
  { unfold _concatenate_coils in Hcc. injection Hcc as _ _ _ <-. by rewrite length_fmap. }
  rewrite Hlen. unfold np_full, lift.
  destruct (Z.ltb_spec ((int_order + 1) ^ 2 - 1) 0) as [?|_]; [lia|].
  destruct (Z.ltb_spec ((ext_order + 1) ^ 2 - 1) 0) as [?|_]; [lia|].
  unfold mbind at 1 2. unfold M_bind at 1 2.
  destruct (Z.gtb_spec (get_num_moments int_order ext_order) (Z.of_nat n)) as [?|_]; [lia|].
  rewrite cart_to_sph_rows. unfold mbind at 1. unfold M_bind at 1.
  set (cvec_sph := sph_of <$> _).
  set (int_lens := O :: np_cumsum int_pts).
  assert (Hil : (length int_lens - 1 = n)%nat).
  { unfold int_lens, np_cumsum. cbn. rewrite cumsum_from_length. lia. }
  assert (Hok : Forall sph_ok cvec_sph).
  { unfold cvec_sph. apply Forall_fmap, Forall_true. intros p. apply sph_of_ok. }
  destruct (fill_space_spec Internal g_in int_order cvec_sph ncoils wcoils int_lens
              (coil_scale_of coils)
              (NdArray n (Z.to_nat ((int_order + 1) ^ 2 - 1)) (fun _ _ => NaN)) w)
    as (A_in & Hrun_in & Hr_in & Hc_in & Hit_in); [assumption | assumption | rewrite Hil; cbn; lia | reflexivity |].
  set (w1 := World (objs w) _) in Hrun_in.
  destruct (fill_space_spec External g_out ext_order cvec_sph ncoils wcoils int_lens
              (coil_scale_of coils)
              (NdArray n (Z.to_nat ((ext_order + 1) ^ 2 - 1)) (fun _ _ => NaN)) w1)
    as (A_out & Hrun_out & Hr_out & Hc_out & Hit_out); [assumption | assumption | rewrite Hil; cbn; lia | reflexivity |].
  exists A_in, A_out.
  change (_grad_in_components g_in) with (checked_grad g_in).
  change (_grad_out_components g_out) with (checked_grad g_out).
  unfold mbind, M_bind. rewrite Hrun_in, Hrun_out. cbn [objs trace nrows ncols item] in *.
  rewrite Hil in *. split_and!; try assumption.
  - unfold mret, M_ret. f_equal. f_equal. subst w1. cbn [trace].
    rewrite Hil, <- app_assoc. reflexivity.
  - intros r c Hr Hc. rewrite Hit_in, bool_decide_eq_true_2 by lia.
    unfold raw_entry, cvec_sph_of. rewrite Hcc. reflexivity.
  - intros r c Hr Hc. rewrite Hit_out, bool_decide_eq_true_2 by lia.
    unfold raw_entry, cvec_sph_of. rewrite Hcc. reflexivity.
Qed.

(** The writes of an assembly: which cells, and each once. *)
Lemma elem_of_writes sp sp' (n m i j : nat) :
  EvSetItem sp' i j ∈ writes sp n m <-> sp' = sp /\ (i < n)%nat /\ (j < m)%nat.
Proof.
  unfold writes. rewrite list_elem_of_bind. split.
  - intros (c & Hin & Hc). apply elem_of_seq in Hc.
    apply list_elem_of_fmap in Hin as (r & [= -> -> ->] & Hr).
    apply elem_of_seq in Hr. split; [reflexivity | lia].
  - intros (-> & Hi & Hj). exists j. split.
    + apply list_elem_of_fmap. exists i. split; [reflexivity|]. apply elem_of_seq. lia.
    + apply elem_of_seq. lia.
Qed.

Lemma writes_only_set_items sp n m e :
  e ∈ writes sp n m -> exists i j, e = EvSetItem sp i j.
Proof.
  unfold writes. rewrite list_elem_of_bind. intros (c & Hin & _).
  apply list_elem_of_fmap in Hin as (r & -> & _). eauto.
Qed.

Lemma NoDup_writes sp n m : NoDup (writes sp n m).
Proof.
  unfold writes. apply NoDup_bind.
  - intros c1 c2 e _ _ H1 H2.
    apply list_elem_of_fmap in H1 as (r1 & -> & _).
    apply list_elem_of_fmap in H2 as (r2 & [= _ <-] & _). reflexivity.
  - intros c _. apply NoDup_fmap_2; [|apply NoDup_seq].
    intros r1 r2 [= ->]. reflexivity.
  - apply NoDup_seq.
Qed.

Lemma NoDup_both_writes n m1 m2 :
  NoDup (writes Internal n m1 ++ writes External n m2).
Proof.
  apply list.NoDup_app. split_and!; [apply NoDup_writes | | apply NoDup_writes].
  intros e H1 H2.
  destruct (writes_only_set_items _ _ _ _ H1) as (i & j & ->).
  apply elem_of_writes in H2 as [[=] _].
Qed.

(* ================================================================== *)
(** * 15. Sums of float64 and of reals *)

Lemma f_sum_n_Num (n : nat) (f : nat -> float64) (g : nat -> R) :
  (forall i, (i < n)%nat -> f i = Num (g i)) -> f_sum_n n f = Num (sum_n n g).
Proof.
  induction n as [|n IH]; intros H; [reflexivity|].
  cbn [f_sum_n sum_n]. rewrite IH by (intros; apply H; lia).
  rewrite (H n) by lia. reflexivity.
Qed.

Lemma sum_n_ext (n : nat) (f g : nat -> R) :
  (forall i, (i < n)%nat -> f i = g i) -> sum_n n f = sum_n n g.
Proof.
  induction n as [|n IH]; intros H; [reflexivity|].
  cbn [sum_n]. rewrite IH by (intros; apply H; lia). rewrite (H n) by lia. reflexivity.
Qed.

Lemma sum_n_scale (n : nat) (c : R) (f : nat -> R) :
  sum_n n (fun i => c * f i) = c * sum_n n f.
Proof. induction n as [|n IH]; cbn [sum_n]; [ring | rewrite IH; ring]. Qed.

Lemma sum_n_plus (n : nat) (f g : nat -> R) :
  sum_n n (fun i => f i + g i) = sum_n n f + sum_n n g.
Proof. induction n as [|n IH]; cbn [sum_n]; [ring | rewrite IH; ring]. Qed.

Lemma sum_n_zero (n : nat) : sum_n n (fun _ => 0) = 0.
Proof. induction n as [|n IH]; cbn [sum_n]; [reflexivity | rewrite IH; ring]. Qed.

Lemma sum_n_squares_nonneg (n : nat) (f : nat -> R) : 0 <= sum_n n (fun i => f i * f i).
Proof. induction n as [|n IH]; cbn [sum_n]; [lra | nra]. Qed.

(** Exchanging two finite sums. *)
Lemma sum_n_exchange (n m : nat) (f : nat -> nat -> R) :
  sum_n n (fun i => sum_n m (fun j => f i j)) =
  sum_n m (fun j => sum_n n (fun i => f i j)).
Proof.
  induction n as [|n IH]; cbn [sum_n].
  - by rewrite sum_n_zero.
  - rewrite IH, <- sum_n_plus. reflexivity.
Qed.

(** A sum against the indicator of one index picks that term. *)
Lemma sum_n_delta (n k : nat) (f : nat -> R) :
  (k < n)%nat ->
  sum_n n (fun i => (if bool_decide (i = k) then 1 else 0) * f i) = f k.
Proof.
  induction n as [|n IH]; intros Hk; [lia|]. cbn [sum_n].
  destruct (decide (k = n)) as [->|Hne].
  - rewrite bool_decide_eq_true_2 by reflexivity.
    rewrite (sum_n_ext n _ (fun _ => 0)).
    + rewrite sum_n_zero. ring.
    + intros i Hi. rewrite bool_decide_eq_false_2 by lia. ring.
  - rewrite IH by lia. rewrite bool_decide_eq_false_2 by lia. ring.
Qed.

(* ================================================================== *)
(** * 16. Normalisation *)

Lemma inf_of_sign_not_finite (s : R) : ~ is_finite (inf_of_sign s).
Proof. unfold inf_of_sign. repeat destruct (Rlt_dec _ _); cbn; tauto. Qed.





Lemma column_sumsq_ext (A B : ndarray float64) (j : nat) :
  nrows A = nrows B ->
  (forall i, (i < nrows A)%nat -> item A i j = item B i j) ->
  column_sumsq A j = column_sumsq B j.
Proof.
  unfold column_sumsq. intros <- H. induction (nrows A) as [|n IH]; [reflexivity|].
  cbn [f_sum_n]. rewrite IH by (intros; apply H; lia). by rewrite (H n) by lia.
Qed.

(* ================================================================== *)
(** * 17. Concrete inputs *)

(** A gradient kernel to run the assembly with. *)
Definition sample_grad : Z -> Z -> fvec3 -> fvec3 := fun _ _ s => s.

(** Three sensors with one integration point each. *)
Definition sample_coils : list coil :=
  [ Coil "MEG0111" 1 [IntPoint (1, 0, 0) (1, 0, 0) 1];
    Coil "MEG0112" 3 [IntPoint (0, 1, 0) (0, 1, 0) 1];
    Coil "MEG0113" 3 [IntPoint (0, 0, 1) (0, 0, 1) 1] ].

Definition empty_world : world := World ∅ [].

(* ================================================================== *)
(** * 18. Properties of the coordinate transform and of the basis assembly *)

(** C7, as the code has it: [_cart_to_sph] never raises.  For every input
    it returns one row per point; at a point whose Euclidean norm is zero the
    row is radius 0, azimuth 0 and polar angle [nan] (the quotient [0 / 0] of
    NumPy's array division). *)
Theorem cart_to_sph_total (cart_pts : list vec3) :
  exists out,
    _cart_to_sph cart_pts = Ok out /\
    length out = length cart_pts /\
    forall i p, cart_pts !! i = Some p -> norm3 p = 0 ->
                out !! i = Some (Num 0, Num 0, NaN).
Proof.
  exists (sph_of <$> cart_pts). split_and!.
  - apply cart_to_sph_rows.
  - apply length_fmap.
  - intros i p Hi Hz. rewrite list_lookup_fmap, Hi. cbn.
    by rewrite sph_of_norm_zero.
Qed.

(** C7, the claim as stated fails: the origin has norm zero and
    [_cart_to_sph] returns on it. *)
Lemma cart_to_sph_origin_returns :
  norm3 (0, 0, 0) = 0 /\
  _cart_to_sph [(0, 0, 0)] = Ok [(Num 0, Num 0, NaN)] /\
  ~ raises (_cart_to_sph [(0, 0, 0)]).
Proof.
  assert (Hn : norm3 (0, 0, 0) = 0) by (by apply norm3_zero).
  assert (Hr : _cart_to_sph [(0, 0, 0)] = Ok [(Num 0, Num 0, NaN)]).
  { rewrite cart_to_sph_rows. cbn [fmap list_fmap]. by rewrite sph_of_norm_zero. }
  split_and!; [exact Hn | exact Hr |].
  intros [e He]. rewrite Hr in He. discriminate.
Qed.

(** C3: for non-negative orders, whenever [_sss_basis] returns, the internal
    basis has [(int_order + 1)^2 - 1] columns and the external basis has
    [(ext_order + 1)^2 - 1]; [get_num_moments] is the sum of the two counts;
    and it does return when that sum does not exceed the number of sensors. *)
Theorem sss_basis_column_counts g_in g_out origin coils (int_order ext_order : Z) w :
  (0 <= int_order)%Z -> (0 <= ext_order)%Z ->
  (forall S_in S_out w',
     _sss_basis g_in g_out origin coils int_order ext_order w = (Ok (S_in, S_out), w') ->
     Z.of_nat (ncols S_in) = ((int_order + 1) ^ 2 - 1)%Z /\
     Z.of_nat (ncols S_out) = ((ext_order + 1) ^ 2 - 1)%Z /\
     get_num_moments int_order ext_order =
       (Z.of_nat (ncols S_in) + Z.of_nat (ncols S_out))%Z) /\
  ((get_num_moments int_order ext_order <= Z.of_nat (length coils))%Z ->
   exists S_in S_out w',
     _sss_basis g_in g_out origin coils int_order ext_order w = (Ok (S_in, S_out), w')) /\
  get_num_moments int_order ext_order =
    (((int_order + 1) ^ 2 - 1) + ((ext_order + 1) ^ 2 - 1))%Z.
Proof.
  intros Hi He.
  pose proof (n_columns_nonneg _ Hi) as Hci. pose proof (n_columns_nonneg _ He) as Hce.
  unfold n_columns in Hci, Hce.
  split_and!.
  - intros S_in S_out w' Hrun.
    destruct (Z_le_gt_dec (get_num_moments int_order ext_order) (Z.of_nat (length coils)))
      as [Hle|Hgt].
    + destruct (sss_basis_returns g_in g_out origin coils int_order ext_order w Hi He Hle)
        as (A_in & A_out & Hr & [_ Hc_in] & [_ Hc_out] & _).
      rewrite Hr in Hrun. injection Hrun as <- <- _.
      cbn [ncols normalize_columns scale_rows]. rewrite Hc_in, Hc_out.
      unfold n_columns, get_num_moments. rewrite !Z2Nat.id by assumption. lia.
    + rewrite (sss_basis_rejects g_in g_out origin coils int_order ext_order w Hi He Hgt)
        in Hrun. discriminate.
  - intros Hle.
    destruct (sss_basis_returns g_in g_out origin coils int_order ext_order w Hi He Hle)
      as (A_in & A_out & Hr & _).
    eauto.
  - unfold get_num_moments. lia.
Qed.

(** C3 at one internal order, no external order and three sensors. *)
Lemma sss_basis_column_counts_witness :
  exists S_in S_out w',
    _sss_basis sample_grad sample_grad (0, 0, 0) sample_coils 1 0 empty_world =
      (Ok (S_in, S_out), w') /\
    Z.of_nat (ncols S_in) = 3%Z /\ Z.of_nat (ncols S_out) = 0%Z /\
    get_num_moments 1 0 = 3%Z.
Proof.
  destruct (sss_basis_column_counts sample_grad sample_grad (0, 0, 0) sample_coils 1 0
              empty_world ltac:(lia) ltac:(lia)) as (Hcount & Hret & Hsum).
  destruct Hret as (S_in & S_out & w' & Hrun); [unfold get_num_moments; cbn; lia|].
  destruct (Hcount S_in S_out w' Hrun) as (Hin & Hout & _).
  exists S_in, S_out, w'. split_and!; [exact Hrun | exact Hin | exact Hout | reflexivity].
Defined.

(** C4: for non-negative orders, [_sss_basis] raises exactly when the
    requested column count [get_num_moments] exceeds the number of sensors;
    the error is the one about the number of bases, and the world it leaves
    is the world it was called in: no basis entry has been computed. *)
Theorem sss_basis_rejects_exactly g_in g_out origin coils (int_order ext_order : Z) w :
  (0 <= int_order)%Z -> (0 <= ext_order)%Z ->
  (raises (_sss_basis g_in g_out origin coils int_order ext_order w).1 <->
   (get_num_moments int_order ext_order > Z.of_nat (length coils))%Z) /\
  (raises (_sss_basis g_in g_out origin coils int_order ext_order w).1 ->
   _sss_basis g_in g_out origin coils int_order ext_order w =
     (Raise (too_many_bases (get_num_moments int_order ext_order) (length coils)), w)).
Proof.
  intros Hi He.
  destruct (Z_le_gt_dec (get_num_moments int_order ext_order) (Z.of_nat (length coils)))
    as [Hle|Hgt].
  - destruct (sss_basis_returns g_in g_out origin coils int_order ext_order w Hi He Hle)
      as (A_in & A_out & Hr & _).
    rewrite Hr. cbn [fst]. split.
    + split; [intros [e [=]] | lia].
    + intros [e [=]].
  - rewrite (sss_basis_rejects g_in g_out origin coils int_order ext_order w Hi He Hgt).
    cbn [fst]. split; [|reflexivity].
    split; [intros _; exact Hgt | intros _; eexists; reflexivity].
Qed.

(** C4 at order 2 on three sensors: eight columns are asked for. *)
Lemma sss_basis_rejects_exactly_witness :
  _sss_basis sample_grad sample_grad (0, 0, 0) sample_coils 2 0 empty_world =
    (Raise (too_many_bases 8 3), empty_world).
Proof.
  destruct (sss_basis_rejects_exactly sample_grad sample_grad (0, 0, 0) sample_coils 2 0
              empty_world ltac:(lia) ltac:(lia)) as [Hiff Hraise].
  apply Hraise. apply Hiff. reflexivity.
Defined.

(** The pair of a column in range is in range, and is sent back to it. *)
Lemma column_pair_in_range (L c : Z) :
  (0 <= L)%Z -> (0 <= c <= (L + 1) ^ 2 - 2)%Z ->
  (1 <= column_degree c <= L)%Z /\
  (- column_degree c <= column_order c <= column_degree c)%Z /\
  moment_column (column_degree c) (column_order c) = c.
Proof.
  intros HL Hc. unfold column_order, moment_column, column_degree.
  pose proof (Z.sqrt_spec (c + 1) ltac:(lia)) as Hs.
  set (d := Z.sqrt (c + 1)) in *.
  assert (H0 : (0 <= d)%Z) by apply Z.sqrt_nonneg.
  rewrite !Z.pow_2_r in *. unfold Z.succ in Hs.
  assert (H1 : (1 <= d)%Z) by nia.
  assert (H2 : (d <= L)%Z) by nia.
  split_and!; lia.
Qed.

(** C10: for an order bound [L >= 0] the column numbering
    [degree^2 + degree + order - 1] is a bijection from the pairs with
    [1 <= degree <= L], [-degree <= order <= degree] onto [0 .. (L+1)^2 - 2]
    (in range, injective, onto).  Consequently a run of [_sss_basis] that
    passes the sensor check writes every cell of each basis exactly once: its
    writes are duplicate-free and are the cells of the two arrays, and every
    entry of the arrays that are then scaled and normalised is the sum
    computed for its sensor and column, none is the initial [nan]. *)
Theorem assembly_writes_each_entry_once g_in g_out origin coils
    (L int_order ext_order : Z) w :
  (0 <= L)%Z -> (0 <= int_order)%Z -> (0 <= ext_order)%Z ->
  (get_num_moments int_order ext_order <= Z.of_nat (length coils))%Z ->
  (forall d o, (1 <= d <= L)%Z -> (- d <= o <= d)%Z ->
               (0 <= moment_column d o <= (L + 1) ^ 2 - 2)%Z) /\
  (forall d o d' o', (1 <= d <= L)%Z -> (- d <= o <= d)%Z ->
                     (1 <= d' <= L)%Z -> (- d' <= o' <= d')%Z ->
                     moment_column d o = moment_column d' o' -> d = d' /\ o = o') /\
  (forall c, (0 <= c <= (L + 1) ^ 2 - 2)%Z ->
             exists d o, (1 <= d <= L)%Z /\ (- d <= o <= d)%Z /\ moment_column d o = c) /\
  exists S_in S_out A_in A_out ws,
    _sss_basis g_in g_out origin coils int_order ext_order w =
      (Ok (S_in, S_out), World (objs w) (trace w ++ ws)) /\
    NoDup ws /\
    (forall e, e ∈ ws <->
               exists sp i j, e = EvSetItem sp i j /\
                 (i < nrows (match sp with Internal => S_in | External => S_out end))%nat /\
                 (j < ncols (match sp with Internal => S_in | External => S_out end))%nat) /\
    S_in = normalize_columns (scale_rows A_in (coil_scale_of coils)) /\
    S_out = normalize_columns (scale_rows A_out (coil_scale_of coils)) /\
    (forall i j, (i < nrows S_in)%nat -> (j < ncols S_in)%nat ->
                 item A_in i j = raw_entry g_in origin coils i j) /\
    (forall i j, (i < nrows S_out)%nat -> (j < ncols S_out)%nat ->
                 item A_out i j = raw_entry g_out origin coils i j).
Proof.
  intros HL Hi He Hle. split_and!.
  - intros d o Hd Ho. unfold moment_column. nia.
  - intros d o d' o' Hd Ho Hd' Ho' Heq.
    destruct (column_pair_inverse d o) as [H1 H2]; [lia | lia |].
    destruct (column_pair_inverse d' o') as [H1' H2']; [lia | lia |].
    rewrite Heq in H1, H2. split; congruence.
  - intros c Hc. exists (column_degree c), (column_order c).
    by apply column_pair_in_range.
  - destruct (sss_basis_returns g_in g_out origin coils int_order ext_order w Hi He Hle)
      as (A_in & A_out & Hr & [Hr_in Hc_in] & [Hr_out Hc_out] & Hit_in & Hit_out).
    eexists _, _, A_in, A_out, _. split; [exact Hr|].
    cbn [nrows ncols normalize_columns scale_rows].
    split_and!; try reflexivity.
    + apply NoDup_both_writes.
    + intros e. rewrite elem_of_app. split.
      * intros [Hin|Hin];
          destruct (writes_only_set_items _ _ _ _ Hin) as (i & j & ->);
          apply elem_of_writes in Hin as (_ & Hlt_i & Hlt_j).
        -- exists Internal, i, j. split; [reflexivity | cbn; lia].
        -- exists External, i, j. split; [reflexivity | cbn; lia].
      * intros (sp & i & j & -> & Hlt_i & Hlt_j). destruct sp; cbn in Hlt_i, Hlt_j.
        -- left. apply elem_of_writes. split; [reflexivity | lia].
        -- right. apply elem_of_writes. split; [reflexivity | lia].
    + intros i j Hlt_i Hlt_j. cbn in Hlt_i, Hlt_j. apply Hit_in; lia.
    + intros i j Hlt_i Hlt_j. cbn in Hlt_i, Hlt_j. apply Hit_out; lia.
Qed.

(** C10 at bound 2, with one internal order on three sensors. *)
Lemma assembly_writes_each_entry_once_witness :
  (forall c, (0 <= c <= (2 + 1) ^ 2 - 2)%Z ->
             exists d o, (1 <= d <= 2)%Z /\ (- d <= o <= d)%Z /\ moment_column d o = c) /\
  exists S_in S_out ws,
    _sss_basis sample_grad sample_grad (0, 0, 0) sample_coils 1 0 empty_world =
      (Ok (S_in, S_out), World ∅ ([] ++ ws)) /\
    NoDup ws.
Proof.
  destruct (assembly_writes_each_entry_once sample_grad sample_grad (0, 0, 0)
              sample_coils 2 1 0 empty_world ltac:(lia) ltac:(lia) ltac:(lia))
    as (_ & _ & Hsur & S_in & S_out & A_in & A_out & ws & Hrun & Hnd & _).
  { unfold get_num_moments. cbn. lia. }
  split; [exact Hsur|]. exists S_in, S_out, ws. split; [exact Hrun | exact Hnd].
Defined.

(** The magnetometer rows are the ones scaled by 100. *)
Lemma coil_scale_of_lookup coils i c :
  coils !! i = Some c ->
  nth i (coil_scale_of coils) 1 = if (coil_class c =? 1)%Z then 100 else 1.
Proof.
  intros Hi. unfold coil_scale_of.
  apply nth_lookup_Some with (d := 1). by rewrite list_lookup_fmap, Hi.
Qed.

(* ================================================================== *)
(** * 19. The projector *)

(** The product of two matrices given by their entries, the inner dimension
    being [n]. *)
Definition mat_mul (n : nat) (X Y : nat -> nat -> R) (i j : nat) : R :=
  sum_n n (fun k => X i k * Y k j).

(** [X] is a left inverse of [A]: [X A = I].  This is what the
    pseudo-inverse of [A] is when [A] has full column rank and no singular
    value falls under the cutoff. *)
Definition is_left_inverse (X A : ndarray R) : Prop :=
  nrows X = ncols A /\ ncols X = nrows A /\
  forall i j, (i < ncols A)%nat -> (j < ncols A)%nat ->
    mat_mul (nrows A) (item X) (item A) i j = if bool_decide (i = j) then 1 else 0.

(** The four Penrose conditions, which single out the pseudo-inverse [X] of
    [A]: [A X A = A], [X A X = X], and [A X] and [X A] symmetric. *)
Definition is_pseudo_inverse (X A : ndarray R) : Prop :=
  let m := nrows A in
  let n := ncols A in
  let AX := mat_mul n (item A) (item X) in
  let XA := mat_mul m (item X) (item A) in
  nrows X = n /\ ncols X = m /\
  (forall i j, (i < m)%nat -> (j < n)%nat -> mat_mul m AX (item A) i j = item A i j) /\
  (forall i j, (i < n)%nat -> (j < m)%nat -> mat_mul n XA (item X) i j = item X i j) /\
  (forall i j, (i < m)%nat -> (j < m)%nat -> AX i j = AX j i) /\
  (forall i j, (i < n)%nat -> (j < n)%nat -> XA i j = XA j i).

Lemma coil_scale_nonzero coils k : nth k (coil_scale_of coils) 1 <> 0.
Proof.
  unfold coil_scale_of. revert k. induction coils as [|c l IH]; intros k.
  - destruct k; cbn; lra.
  - destruct k as [|k]; [|apply IH]. cbn. destruct (coil_class c =? 1)%Z; lra.
Qed.

Lemma np_dot_inv (a b c : ndarray R) :
  np_dot a b = Ok c ->
  ncols a = nrows b /\
  c = NdArray (nrows a) (ncols b) (fun i j => sum_n (ncols a) (fun k => item a i k * item b k j)).
Proof.
  unfold np_dot. case_bool_decide; [|discriminate]. intros [= <-]. by split.
Qed.

Lemma np_dot_ok (a b : ndarray R) :
  ncols a = nrows b ->
  np_dot a b =
  Ok (NdArray (nrows a) (ncols b) (fun i j => sum_n (ncols a) (fun k => item a i k * item b k j))).
Proof. intros H. unfold np_dot. by rewrite bool_decide_eq_true_2. Qed.

(** What a successful [reconstruct] computed. *)
Lemma reconstruct_inv pinv S_in S_out data cs mm recon :
  let pS := pinv 1e-15 (real_part (np_c_ S_in S_out)) in
  reconstruct pinv S_in S_out data cs = Ok (mm, recon) ->
  all_finite (np_c_ S_in S_out) = true /\
  ncols pS = nrows data /\ (ncols S_in <= nrows pS)%nat /\
  mm = NdArray (nrows pS) (ncols data)
         (fun j t => sum_n (ncols pS) (fun k => item pS j k * (item data k t * nth k cs 1))) /\
  recon = NdArray (nrows S_in) (ncols data)
            (fun i t => sum_n (ncols S_in) (fun j => to_real (item S_in i j) * item mm j t)).
Proof.
  intros pS. unfold reconstruct, scipy_pinv. intros H.
  destruct (all_finite (np_c_ S_in S_out)); [|discriminate].
  cbn [mbind result_bind] in H. fold pS in H.
  destruct (np_dot pS (mul_rows data cs)) as [mm'|e] eqn:Hmm; [|discriminate].
  cbn [mbind result_bind] in H.
  destruct (np_dot (real_part S_in) (rows_upto (ncols S_in) mm')) as [recon'|e] eqn:Hre;
    [|discriminate].
  cbn [mbind result_bind mret result_ret] in H. injection H as <- <-.
  apply np_dot_inv in Hmm as [Hd1 ->]. apply np_dot_inv in Hre as [Hd2 ->].
  cbn [nrows ncols rows_upto real_part mul_rows item] in *.
  split_and!; try reflexivity; try assumption. lia.
Qed.

(** The transpose, as a stand-in for [pinv]: it is the pseudo-inverse of an
    array with orthonormal columns. *)
Definition transpose_pinv : R -> ndarray R -> ndarray R :=
  fun _ a => NdArray (ncols a) (nrows a) (fun i j => item a j i).

(** Three sensors, the three unit vectors as internal basis, no external
    column, two samples. *)
Definition unit_S_in : ndarray float64 :=
  NdArray 3 3 (fun i j => if (i =? j)%nat then Num 1 else Num 0).
Definition empty_S_out : ndarray float64 := NdArray 3 0 (fun _ _ => Num 0).
Definition sample_data : ndarray R :=
  NdArray 3 2 (fun i t => if (t =? 0)%nat then 1 else INR i).

(** One application of the step leaves a matrix on which the moments are
    reproduced: the core of idempotence. *)
Lemma left_inverse_moments (pS A : ndarray R) (n_in : nat) (S m : nat -> nat -> R)
    (j t : nat) :
  is_left_inverse pS A -> (n_in <= ncols A)%nat -> (j < n_in)%nat ->
  (forall k j', (j' < n_in)%nat -> item A k j' = S k j') ->
  sum_n (nrows A) (fun k => item pS j k * sum_n n_in (fun j' => S k j' * m j' t)) = m j t.
Proof.
  intros (_ & _ & Hinv) Hle Hj HA.
  rewrite (sum_n_ext _ _ (fun k => sum_n n_in (fun j' => item pS j k * S k j' * m j' t))).
  2:{ intros k _. rewrite <- sum_n_scale. apply sum_n_ext. intros j' _. ring. }
  rewrite sum_n_exchange.
  rewrite (sum_n_ext _ _ (fun j' => (if bool_decide (j' = j) then 1 else 0) * m j' t)).
  - by apply (sum_n_delta n_in j (fun j' => m j' t)).
  - intros j' Hj'.
    rewrite (sum_n_ext _ _ (fun k => m j' t * (item pS j k * item A k j'))).
    2:{ intros k _. rewrite (HA k j' Hj'). ring. }
    rewrite sum_n_scale. fold (mat_mul (nrows A) (item pS) (item A) j j').
    rewrite Hinv by lia.
    repeat case_bool_decide; subst; try congruence; ring.
Qed.

(** Six gradiometers; an internal basis of the unit vectors e0, e1, e2 and
    an external basis of the unit vectors e0, e3, e4: the combined basis has
    unit columns and rank 5, the direction e0 being in both. *)
Definition grad_coils : list coil :=
  [ Coil "MEG0112" 3 []; Coil "MEG0113" 3 []; Coil "MEG0122" 3 [];
    Coil "MEG0123" 3 []; Coil "MEG0132" 3 []; Coil "MEG0133" 3 [] ].
Definition dup_S_in : ndarray float64 :=
  NdArray 6 3 (fun i j => if (i =? j)%nat then Num 1 else Num 0).
Definition dup_S_out : ndarray float64 :=
  NdArray 6 3 (fun i j =>
    if (i =? match j with O => O | _ => j + 2 end)%nat then Num 1 else Num 0).

(** Its pseudo-inverse: the rows e0/2, e1, e2, e0/2, e3, e4. *)
Definition dup_pinv_matrix : ndarray R :=
  NdArray 6 6 (fun i k =>
    match i with
    | 0%nat => if (k =? 0)%nat then / 2 else 0
    | 1%nat => if (k =? 1)%nat then 1 else 0
    | 2%nat => if (k =? 2)%nat then 1 else 0
    | 3%nat => if (k =? 0)%nat then / 2 else 0
    | 4%nat => if (k =? 3)%nat then 1 else 0
    | _ => if (k =? 4)%nat then 1 else 0
    end).
Definition dup_pinv : R -> ndarray R -> ndarray R := fun _ _ => dup_pinv_matrix.

(** One sample: the first column of [dup_S_in]. *)
Definition dup_data : ndarray R :=
  NdArray 6 1 (fun i _ => if (i =? 0)%nat then 1 else 0).

Lemma dup_pinv_is_pseudo_inverse :
  is_pseudo_inverse dup_pinv_matrix (real_part (np_c_ dup_S_in dup_S_out)).
Proof.
  unfold is_pseudo_inverse.
  cbn [nrows ncols real_part np_c_ dup_S_in dup_S_out dup_pinv_matrix Nat.add].
  split_and!; try reflexivity; intros i j Hi Hj;
    do 6 (destruct i as [|i]; [do 6 (destruct j as [|j]; [cbn; lra|]); lia|]); lia.
Qed.

(** C6, the claim as stated fails: with the rank-deficient combined basis
    above, whose pseudo-inverse (the four Penrose conditions hold) is what
    [pinv] returns, and the data equal to the first column of [S_in], the
    step yields e0/2 the first time and e0/4 the second time. *)
Lemma projection_not_idempotent_rank_deficient :
  is_pseudo_inverse (dup_pinv 1e-15 (real_part (np_c_ dup_S_in dup_S_out)))
                    (real_part (np_c_ dup_S_in dup_S_out)) /\
  (forall i t, item dup_data i t = to_real (item dup_S_in i O)) /\
  exists out1 out2,
    projection_step dup_pinv dup_S_in dup_S_out (coil_scale_of grad_coils) dup_data = Ok out1 /\
    projection_step dup_pinv dup_S_in dup_S_out (coil_scale_of grad_coils) out1 = Ok out2 /\
    item out1 O O = / 2 /\ item out2 O O = / 4 /\ ~ nd_eq out2 out1.
Proof.
  split_and!.
  - apply dup_pinv_is_pseudo_inverse.
  - intros i t. cbn. by destruct (i =? 0)%nat.
  - eexists _, _. split_and!; [reflexivity | reflexivity | cbn; lra | cbn; lra |].
    intros (_ & _ & H). specialize (H O O ltac:(cbn; lia) ltac:(cbn; lia)).
    cbn in H. lra.
Qed.

(* ================================================================== *)
(** * 20. Lists of positions *)

#[local] Close Scope R_scope.

(** [positions] with the enumeration started at [a]. *)
Definition positions_from {A} (P : A -> Prop) `{forall x, Decision (P x)}
    (a : nat) (l : list A) : list nat :=
  (filter (fun kx : nat * A => P kx.2) (zip (seq a (length l)) l)).*1.

Lemma positions_from_cons {A} (P : A -> Prop) `{forall x, Decision (P x)} a x (l : list A) :
  positions_from P a (x :: l) =
  if decide (P x) then a :: positions_from P (S a) l else positions_from P (S a) l.
Proof.
  unfold positions_from. cbn [length seq zip zip_with]. rewrite filter_cons. cbn [snd].
  destruct (decide (P x)); reflexivity.
Qed.

(** The [j]-th position found is at least [j] places on. *)
Lemma positions_from_lookup_ge {A} (P : A -> Prop) `{forall x, Decision (P x)}
    a (l : list A) j k :
  positions_from P a l !! j = Some k -> a + j <= k.
Proof.
  revert a j. induction l as [|x l IH]; intros a j Hj; [discriminate|].
  rewrite positions_from_cons in Hj. destruct (decide (P x)).
  - destruct j as [|j]; cbn in Hj.
    + injection Hj as <-. lia.
    + apply IH in Hj. lia.
  - apply IH in Hj. lia.
Qed.

Lemma positions_from_nil_inv {A} (P : A -> Prop) `{forall x, Decision (P x)} a (l : list A) :
  positions_from P a l = [] -> Forall (fun x => ~ P x) l.
Proof.
  revert a. induction l as [|x l IH]; intros a Hnil; [constructor|].
  rewrite positions_from_cons in Hnil. destruct (decide (P x)); [discriminate|].
  constructor; [assumption | by eapply IH].
Qed.

(** Positions that all lie below their own number are the leading ones:
    the elements with the property come first. *)
Lemma positions_from_bounded {A} (P : A -> Prop) `{forall x, Decision (P x)} a (l : list A) :
  Forall (fun k => k < a + length (positions_from P a l)) (positions_from P a l) ->
  exists n, positions_from P a l = seq a n /\ n <= length l /\
            Forall P (take n l) /\ Forall (fun x => ~ P x) (drop n l).
Proof.
  revert a. induction l as [|x l IH]; intros a Hb.
  - exists 0. split_and!; [reflexivity | cbn; lia | constructor | constructor].
  - rewrite positions_from_cons in Hb |- *. destruct (decide (P x)) as [Hx|Hx].
    + apply Forall_cons in Hb as [_ Hb]. cbn [length] in Hb.
      destruct (IH (S a)) as (n & Hn & Hle & Ht & Hd).
      { eapply Forall_impl; [exact Hb|]. cbn. intros k Hk. lia. }
      exists (S n). rewrite Hn. cbn [seq take drop length].
      split_and!; [reflexivity | lia | by constructor | exact Hd].
    + destruct (positions_from P (S a) l) as [|k0 ks] eqn:Hps.
      * exists 0. cbn [seq take drop]. split_and!; [reflexivity | lia | constructor |].
        constructor; [assumption | by eapply positions_from_nil_inv].
      * exfalso.
        assert (Hlast : is_Some ((k0 :: ks) !! length ks)).
        { apply lookup_lt_is_Some. cbn. lia. }
        destruct Hlast as [k Hk].
        pose proof Hk as Hge. rewrite <- Hps in Hge. apply positions_from_lookup_ge in Hge.
        rewrite Forall_forall in Hb. apply list_elem_of_lookup_2 in Hk.
        specialize (Hb k Hk). cbn [length] in Hb. lia.
Qed.

(** Conversely, when the elements with the property come first, their
    positions are the leading ones. *)
Lemma positions_from_prefix {A} (P : A -> Prop) `{forall x, Decision (P x)} a (l : list A) n :
  n <= length l -> Forall P (take n l) -> Forall (fun x => ~ P x) (drop n l) ->
  positions_from P a l = seq a n.
Proof.
  revert a n. induction l as [|x l IH]; intros a n Hle Ht Hd.
  - cbn in Hle. by replace n with 0 by lia.
  - rewrite positions_from_cons. destruct n as [|n]; cbn [take drop seq] in *.
    + apply Forall_cons in Hd as [Hx Hd]. destruct (decide (P x)); [contradiction|].
      apply (IH (S a) 0); [lia | constructor | exact Hd].
    + apply Forall_cons in Ht as [Hx Ht]. destruct (decide (P x)); [|contradiction].
      f_equal. apply IH; [cbn in Hle; lia | exact Ht | exact Hd].
Qed.

Lemma omap_lookup_seq {A} (l : list A) a n :
  a + n <= length l -> omap (fun k => l !! k) (seq a n) = take n (drop a l).
Proof.
  revert a. induction n as [|n IH]; intros a Hle; [by rewrite take_0|].
  destruct (lookup_lt_is_Some_2 l a ltac:(lia)) as [x Hx].
  change (seq a (S n)) with ([a] ++ seq (S a) n). rewrite omap_app.
  cbn [omap list_omap]. rewrite Hx, IH by lia.
  rewrite (drop_S l x a Hx). reflexivity.
Qed.

(** [mapM] in the [result] monad. *)
Lemma mapM_result_ok {A B} (f : A -> result B) (g : A -> B) (l : list A) :
  Forall (fun x => f x = Ok (g x)) l -> mapM f l = Ok (g <$> l).
Proof.
  induction 1 as [|x l Hx _ IH]; [reflexivity|].
  cbn [mapM]. rewrite Hx. cbn [mbind result_bind]. fold (mapM f l). rewrite IH. reflexivity.
Qed.

Lemma mapM_result_inv {A B} (f : A -> result B) (l : list A) (l' : list B) :
  mapM f l = Ok l' -> Forall2 (fun x y => f x = Ok y) l l'.
Proof.
  revert l'. induction l as [|x l IH]; intros l' H.
  - injection H as <-. constructor.
  - cbn [mapM] in H. destruct (f x) as [y|e] eqn:Hx; [|discriminate].
    cbn [mbind result_bind] in H. fold (mapM f l) in H.
    destruct (mapM f l) as [ys|e] eqn:Hl; [|discriminate].
    injection H as <-. constructor; [exact Hx | by apply IH].
Qed.

Lemma mapM_getitem_seq {A} (pre l : list A) :
  mapM (list_getitem (pre ++ l)) (seq (length pre) (length l)) = Ok l.
Proof.
  revert pre. induction l as [|x l IH]; intros pre; [reflexivity|].
  assert (Hx : list_getitem (pre ++ x :: l) (length pre) = Ok x).
  { unfold list_getitem. rewrite lookup_app_r by lia. by rewrite Nat.sub_diag. }
  cbn [length seq mapM]. rewrite Hx. cbn [mbind result_bind].
  fold (mapM (list_getitem (pre ++ x :: l)) (seq (S (length pre)) (length l))).
  specialize (IH (pre ++ [x])). rewrite <- app_assoc, length_app in IH. cbn in IH.
  rewrite Nat.add_1_r in IH. rewrite IH. reflexivity.
Qed.

Lemma list_index_NoDup (l : list string) (k : nat) (x : string) :
  NoDup l -> l !! k = Some x -> list_index l x = Ok k.
Proof.
  intros Hnd Hk. unfold list_index.
  assert (Hf : list_find (fun y => y = x) l = Some (k, x)).
  { apply list_find_Some. split_and!; [exact Hk | reflexivity |].
    intros j y Hj Hlt ->. pose proof (NoDup_lookup _ _ _ _ Hnd Hj Hk). lia. }
  by rewrite Hf.
Qed.

Lemma positions_from_lt {A} (P : A -> Prop) `{forall x, Decision (P x)} a (l : list A) :
  Forall (fun k => k < a + length l) (positions_from P a l).
Proof.
  revert a. induction l as [|x l IH]; intros a; [constructor|].
  rewrite positions_from_cons. cbn [length].
  assert (Hrest : Forall (fun k => k < a + S (length l)) (positions_from P (S a) l)).
  { eapply Forall_impl; [apply IH|]. cbn. intros k Hk. lia. }
  destruct (decide (P x)); [constructor; [lia | exact Hrest] | exact Hrest].
Qed.

Lemma omap_lookup_length {A} (l : list A) (ks : list nat) :
  Forall (fun k => k < length l) ks -> length (omap (fun k => l !! k) ks) = length ks.
Proof.
  induction 1 as [|k ks Hk _ IH]; [reflexivity|].
  cbn [omap list_omap]. destruct (lookup_lt_is_Some_2 l k Hk) as [x ->].
  cbn [length]. by f_equal.
Qed.

Lemma forallb_ltb_seq (n m : nat) :
  n <= m -> forallb (fun p => p <? m) (seq 0 n) = true.
Proof.
  intros Hle. apply forallb_forall. intros p Hp. apply in_seq in Hp.
  apply Nat.ltb_lt. lia.
Qed.

(* ================================================================== *)
(** * 21. The channel selection *)

(** Running a sequence of two steps that returns: both steps returned. *)
Lemma M_bind_inv {A B} (m : M A) (f : A -> M B) (w w' : world) (b : B) :
  (m ≫= f) w = (Ok b, w') ->
  exists a w1, m w = (Ok a, w1) /\ f a w1 = (Ok b, w').
Proof.
  unfold mbind, M_bind. destruct (m w) as [[a|e] w1]; [|discriminate].
  intros H. by exists a, w1.
Qed.

Lemma M_bind_ok {A B} (m : M A) (f : A -> M B) (w w1 : world) (a : A) :
  m w = (Ok a, w1) -> (m ≫= f) w = f a w1.
Proof. unfold mbind, M_bind. by intros ->. Qed.

(** The coil [_create_coils] makes of a channel. *)
Definition coil_of (geometry : channel -> Z * list int_point) (ch : channel) : coil :=
  Coil (ch_name ch) (geometry ch).1 (geometry ch).2.

Definition is_meg (ch : channel) : Prop := kind ch = FIFFV_MEG_CH.

(** With distinct channel names, looking the coils' names up gives back the
    positions their channels were taken from. *)
Lemma picks_are_positions geometry (chs : list channel) (ks : list nat) :
  NoDup (ch_name <$> chs) -> Forall (fun k => k < length chs) ks ->
  mapM (fun c => list_index (ch_name <$> chs) (chname c))
       (_create_coils geometry (omap (fun k => chs !! k) ks)) = Ok ks.
Proof.
  intros Hnd. induction 1 as [|k ks Hk _ IH]; [reflexivity|].
  cbn [omap list_omap]. destruct (lookup_lt_is_Some_2 chs k Hk) as [ch Hch].
  rewrite Hch. unfold _create_coils in *. rewrite fmap_cons. cbn [mapM chname].
  rewrite (list_index_NoDup _ k) by (assumption || by rewrite list_lookup_fmap, Hch).
  cbn [mbind result_bind].
  match goal with |- context [mapM ?f ?l] => change (mapM f l ≫= (fun ks' => mret (k :: ks')) = Ok (k :: ks)) end.
  rewrite IH. reflexivity.
Qed.

(** The leading channels' names are not among the others', and conversely. *)
Lemma leading_names (chs : list channel) (n : nat) :
  NoDup (ch_name <$> chs) ->
  Forall (fun c => ch_name c ∈ ch_name <$> take n chs) (take n chs) /\
  Forall (fun c => ~ ch_name c ∈ ch_name <$> take n chs) (drop n chs).
Proof.
  intros Hnd. split.
  - apply Forall_forall. intros c Hc. by apply list_elem_of_fmap_2.
  - rewrite <- (take_drop n chs) in Hnd at 1. rewrite fmap_app in Hnd.
    apply list.NoDup_app in Hnd as (_ & Hdis & _).
    apply Forall_forall. intros c Hc Hin. apply (Hdis _ Hin).
    by apply list_elem_of_fmap_2.
Qed.

(** When the MEG channels are the [n >= 1] leading channels and the names
    are distinct, the selection returns: the coils of those channels in
    order, the positions [0 .. n-1] and the first [n] data rows; the
    container [raw] itself is left restricted to those channels. *)
Lemma select_meg_forward geometry raw w r n :
  objs w !! raw = Some r -> NoDup (ch_names (info r)) ->
  0 < n -> n <= length (chs (info r)) ->
  Forall is_meg (take n (chs (info r))) ->
  Forall (fun c => ~ is_meg c) (drop n (chs (info r))) ->
  select_meg geometry raw w =
    (Ok (_create_coils geometry (take n (chs (info r))), seq 0 n,
         take_rows (take_rows (_data r) (seq 0 n)) (seq 0 n)),
     World (<[raw := MkRaw (MkInfo (take n (chs (info r))) (bads (info r))
                                   (maxshield (info r)) (proc_history (info r)))
                           (take_rows (_data r) (seq 0 n))]> (objs w))
           (trace w ++ [EvCreateCoils; EvPickChannels raw])).
Proof.
  intros Hr Hnd Hn Hle Hmeg Hrest. unfold select_meg.
  erewrite M_bind_ok; [|unfold deref; rewrite Hr; reflexivity].
  assert (Hps : pick_types_meg (info r) = seq 0 n).
  { apply (positions_from_prefix (fun c => kind c = FIFFV_MEG_CH)); assumption. }
  assert (Hchs : pick_info_chs (info r) (seq 0 n) = take n (chs (info r))).
  { unfold pick_info_chs. rewrite omap_lookup_seq by lia. by rewrite drop_0. }
  erewrite M_bind_ok; cycle 1.
  { unfold _make_coils. rewrite Hps, length_seq, Hchs.
    destruct (Nat.leb_spec n 0); [lia|].
    unfold emit, mbind, M_bind, mret, M_ret. reflexivity. }
  cbn [objs trace].
  erewrite M_bind_ok; cycle 1.
  { unfold lift. rewrite <- Hchs at 1. unfold pick_info_chs, ch_names.
    rewrite picks_are_positions; [reflexivity | exact Hnd |].
    apply Forall_forall. intros k Hk. apply elem_of_seq in Hk. lia. }
  set (all_coils := _create_coils geometry (take n (chs (info r)))).
  assert (Hlen : length all_coils = n).
  { unfold all_coils, _create_coils. rewrite length_fmap, length_take. lia. }
  erewrite M_bind_ok; cycle 1.
  { unfold lift. rewrite <- Hlen at 1.
    rewrite (mapM_getitem_seq [] all_coils
             : mapM (list_getitem all_coils) (seq 0 (length all_coils)) = Ok all_coils).
    reflexivity. }
  assert (Hidx : positions (fun c => ch_name c ∈ chname <$> all_coils) (chs (info r))
                 = seq 0 n).
  { assert (Hnames : chname <$> all_coils = ch_name <$> take n (chs (info r))).
    { unfold all_coils, _create_coils. rewrite <- list_fmap_compose. reflexivity. }
    rewrite Hnames. destruct (leading_names (chs (info r)) n Hnd) as [Hin Hout].
    apply (positions_from_prefix (fun c => ch_name c ∈ ch_name <$> take n (chs (info r))));
      assumption. }
  erewrite M_bind_ok; cycle 1.
  { unfold pick_channels_inplace, deref, emit, assign, mbind, M_bind. cbn [objs trace].
    rewrite Hr. cbn [objs trace]. unfold pick_channels. rewrite Hidx, Hchs. reflexivity. }
  erewrite M_bind_ok; cycle 1.
  { unfold deref. cbn [objs]. rewrite lookup_insert_eq. reflexivity. }
  erewrite M_bind_ok; cycle 1.
  { unfold lift, raw_getitem. cbn [_data nrows take_rows].
    rewrite forallb_ltb_seq by (rewrite length_seq; lia). reflexivity. }
  unfold mret, M_ret. rewrite <- app_assoc. reflexivity.
Qed.

(** A selection that returns found the MEG channels leading: otherwise a
    position exceeds the number of coils and [all_coils[ci]] raises. *)
Lemma select_meg_layout geometry raw w r coils picks data w' :
  objs w !! raw = Some r -> NoDup (ch_names (info r)) ->
  select_meg geometry raw w = (Ok (coils, picks, data), w') ->
  exists n, 0 < n /\ n <= length (chs (info r)) /\
            Forall is_meg (take n (chs (info r))) /\
            Forall (fun c => ~ is_meg c) (drop n (chs (info r))).
Proof.
  intros Hr Hnd H. unfold select_meg in H.
  apply M_bind_inv in H as (r0 & w0 & Hd & H).
  unfold deref in Hd. rewrite Hr in Hd. injection Hd as <- <-.
  apply M_bind_inv in H as ([all_coils meg_info] & w1 & Hmk & H).
  apply M_bind_inv in H as (picks0 & w2 & Hpk & H).
  apply M_bind_inv in H as (coils0 & w3 & Hco & _).
  unfold _make_coils in Hmk.
  set (ps := pick_types_meg (info r)) in *.
  destruct (Nat.leb_spec (length ps) 0) as [|Hpos]; [discriminate|].
  apply M_bind_inv in Hmk as ([] & w1' & _ & Hmk).
  unfold mret, M_ret in Hmk. injection Hmk as <- _ _.
  assert (Hlt : Forall (fun k => k < length (chs (info r))) ps).
  { apply (positions_from_lt (fun c => kind c = FIFFV_MEG_CH) 0). }
  unfold lift in Hpk, Hco. injection Hpk as Hpk _. injection Hco as Hco _.
  unfold pick_info_chs, ch_names in Hpk.
  rewrite picks_are_positions in Hpk by assumption. injection Hpk as <-.
  apply mapM_result_inv in Hco.
  assert (Hb : Forall (fun k => k < 0 + length ps) ps).
  { apply Forall_forall. intros k Hk.
    apply list_elem_of_lookup_1 in Hk as [j Hj].
    destruct (Forall2_lookup_l _ _ _ _ _ Hco Hj) as (c & _ & Hget).
    unfold list_getitem in Hget.
    destruct (_ !! k) eqn:Hl in Hget; [|discriminate].
    apply lookup_lt_Some in Hl. unfold _create_coils, pick_info_chs in Hl.
    rewrite length_fmap, omap_lookup_length in Hl by assumption. lia. }
  destruct (positions_from_bounded (fun c => kind c = FIFFV_MEG_CH) 0 (chs (info r)) Hb)
    as (n & Hn & Hle & Ht & Hdr).
  exists n. split_and!; try assumption.
  change ps with (positions_from (fun c => kind c = FIFFV_MEG_CH) 0 (chs (info r))) in Hpos.
  rewrite Hn, length_seq in Hpos. exact Hpos.
Qed.

(* ================================================================== *)
(** * 22. Properties of the orchestration *)

(** C5: a container with at least one channel flagged bad makes
    [maxwell_filter] raise the bad-channels error at once; the world it
    leaves is the world it was called in, so nothing was built, computed,
    copied or written (the trace has gained no event and no object has
    changed), whatever the other arguments are. *)
Theorem maxwell_filter_rejects_bad_channels g_in g_out pinv geometry raw origin
    (int_order ext_order : Z) w r :
  objs w !! raw = Some r -> bads (info r) <> [] ->
  maxwell_filter g_in g_out pinv geometry raw origin int_order ext_order w =
    (Raise (RuntimeError "Maxwell filter does not yet handle bad channels."), w).
Proof.
  intros Hr Hbads. unfold maxwell_filter.
  erewrite M_bind_ok; [|unfold deref; rewrite Hr; reflexivity].
  destruct (bads (info r)) as [|b l]; [contradiction|]. reflexivity.
Qed.

(** A recording of three MEG channels followed by one EEG channel, with two
    samples; and the same recording with a channel flagged bad. *)
Definition sample_chs : list channel :=
  [ Channel "MEG0111" 1 3022; Channel "MEG0112" 1 3012;
    Channel "MEG0113" 1 3012; Channel "EEG001" 2 1 ].
Definition sample_raw : Raw :=
  MkRaw (MkInfo sample_chs [] None None)
        (NdArray 4 2 (fun i t => INR (i + t))).
Definition sample_raw_bad : Raw :=
  MkRaw (MkInfo sample_chs ["MEG0112"] None None)
        (NdArray 4 2 (fun i t => INR (i + t))).
Definition sample_geometry : channel -> Z * list int_point :=
  fun ch => (if (coil_type ch =? 3022)%Z then 1 else 3, [IntPoint (1, 0, 0)%R (1, 0, 0)%R 1%R])%Z.
Definition world_of (r : Raw) : world := World {[ 0 := r ]} [].

(** C5 on the recording with a bad channel. *)
Lemma maxwell_filter_rejects_bad_channels_witness :
  maxwell_filter sample_grad sample_grad transpose_pinv sample_geometry 0 (0, 0, 40)%R 8 3
                 (world_of sample_raw_bad) =
    (Raise (RuntimeError "Maxwell filter does not yet handle bad channels."),
     world_of sample_raw_bad).
Proof.
  apply (maxwell_filter_rejects_bad_channels sample_grad sample_grad transpose_pinv
           sample_geometry 0 (0, 0, 40)%R 8 3 (world_of sample_raw_bad) sample_raw_bad).
  - reflexivity.
  - discriminate.
Defined.


Lemma sample_names_distinct : NoDup (ch_names (info sample_raw)).
Proof. compute_done. Qed.


(** [_sss_basis] touches no object. *)
Lemma sss_basis_objs g_in g_out origin coils (int_order ext_order : Z) w :
  (0 <= int_order)%Z -> (0 <= ext_order)%Z ->
  objs (_sss_basis g_in g_out origin coils int_order ext_order w).2 = objs w.
Proof.
  intros Hi He.
  destruct (Z_le_gt_dec (get_num_moments int_order ext_order) (Z.of_nat (length coils)))
    as [Hle|Hgt].
  - destruct (sss_basis_returns g_in g_out origin coils int_order ext_order w Hi He Hle)
      as (A_in & A_out & Hr & _).
    by rewrite Hr.
  - by rewrite (sss_basis_rejects g_in g_out origin coils int_order ext_order w Hi He Hgt).
Qed.

(** The recording as [maxwell_filter] leaves it when the MEG channels are
    its [n] leading channels: restricted to them. *)
Definition restricted (r : Raw) (n : nat) : Raw :=
  MkRaw (MkInfo (take n (chs (info r))) (bads (info r)) (maxshield (info r))
                (proc_history (info r)))
        (take_rows (_data r) (seq 0 n)).

(** The metres the origin is converted to. *)
Definition to_metres (origin : vec3) : vec3 :=
  (origin.1.1 / 1000, origin.1.2 / 1000, origin.2 / 1000)%R.

(** The provenance record of a call. *)
Definition provenance (origin : vec3) (int_order ext_order : Z) (nsens nmoments : nat)
  : proc_record :=
  ProcRecord int_order ext_order (to_metres origin) nsens nmoments "MNE's Maxwell Filter".

(** What the last three steps do once the reconstruction is there: a new
    object is allocated, given the provenance, and filled. *)
Lemma package_forward raw l (r1 : Raw) (v : ndarray R) origin (int_order ext_order : Z)
    (nsens nmoments : nat) (w : world) :
  objs w !! raw = Some r1 -> l = fresh (dom (objs w)) ->
  nrows v = nrows (_data r1) -> ncols v = ncols (_data r1) ->
  exists r_sss,
    (raw_copied ← raw_copy raw;
     raw_sss ← _update_info raw_copied (to_metres origin) int_order ext_order nsens nmoments;
     _ ← assign_data raw_sss v;
     mret raw_sss) w =
    (Ok l, World (<[l := r_sss]> (objs w))
                 (trace w ++ [EvCopy raw l; EvAssignData l])) /\
    l <> raw /\ objs w !! l = None /\
    info r_sss =
      MkInfo (chs (info r1)) (bads (info r1)) (Some false)
             (Some (provenance origin int_order ext_order nsens nmoments
                      :: default [] (proc_history (info r1)))) /\
    nrows (_data r_sss) = nrows (_data r1) /\ ncols (_data r_sss) = ncols (_data r1) /\
    forall i j, item (_data r_sss) i j = item v i j.
Proof.
  intros Hr Hl Hnr Hnc.
  assert (Hfresh : objs w !! l = None).
  { apply not_elem_of_dom. rewrite Hl. apply is_fresh. }
  assert (Hne : l <> raw) by (intros ->; congruence).
  eexists. split; [|split_and!; [exact Hne | exact Hfresh | ..]].
  - unfold raw_copy, _update_info, assign_data, deref, alloc, assign, emit,
      mbind, M_bind, mret, M_ret.
    cbn [objs trace]. rewrite Hr. cbn [objs trace]. rewrite <- Hl.
    rewrite lookup_insert_eq. cbn [objs trace info _data].
    rewrite lookup_insert_eq. cbn [objs trace info _data].
    rewrite bool_decide_eq_true_2 by (split; left; assumption).
    cbn [objs trace]. rewrite !insert_insert_eq, <- app_assoc. reflexivity.
  - cbn [info]. unfold provenance. by destruct (proc_history (info r1)).
  - reflexivity.
  - reflexivity.
  - intros i j. cbn [_data item]. by rewrite !bool_decide_eq_true_2 by assumption.
Qed.

(** The run of [maxwell_filter] up to the basis assembly, when the MEG
    channels are the [n] leading channels and none is bad. *)
Lemma maxwell_filter_prefix g_in g_out pinv geometry raw origin (int_order ext_order : Z)
    w r n :
  objs w !! raw = Some r -> bads (info r) = [] -> NoDup (ch_names (info r)) ->
  0 < n -> n <= length (chs (info r)) ->
  Forall is_meg (take n (chs (info r))) ->
  Forall (fun c => ~ is_meg c) (drop n (chs (info r))) ->
  maxwell_filter g_in g_out pinv geometry raw origin int_order ext_order w =
    (let coils := _create_coils geometry (take n (chs (info r))) in
     let data := take_rows (take_rows (_data r) (seq 0 n)) (seq 0 n) in
     '(S_in, S_out) ← _sss_basis g_in g_out (to_metres origin) coils int_order ext_order;
     _ ← emit EvPinv;
     '(mm, recon) ← lift (reconstruct pinv S_in S_out data (coil_scale_of coils));
     raw_copied ← raw_copy raw;
     raw_sss ← _update_info raw_copied (to_metres origin) int_order ext_order
                            (nrows data) (nrows mm);
     _ ← assign_data raw_sss (div_rows recon (coil_scale_of coils));
     mret raw_sss)
      (World (<[raw := restricted r n]> (objs w))
             (trace w ++ [EvCreateCoils; EvPickChannels raw])).
Proof.
  intros Hr Hb Hnd Hn Hle Hmeg Hrest. unfold maxwell_filter.
  erewrite M_bind_ok; [|unfold deref; rewrite Hr; reflexivity].
  rewrite Hb. cbn [length Nat.ltb Nat.leb].
  erewrite M_bind_ok; [|by apply select_meg_forward].
  reflexivity.
Qed.

(** The run that gets through: the container returned is a new object,
    holding the restricted recording's channels, the provenance record put
    before the history, and the reconstruction divided by the coil scale. *)
Lemma maxwell_filter_success g_in g_out pinv geometry raw origin (int_order ext_order : Z)
    w r n S_in S_out w2 mm recon :
  objs w !! raw = Some r -> bads (info r) = [] -> NoDup (ch_names (info r)) ->
  0 < n -> n <= length (chs (info r)) ->
  Forall is_meg (take n (chs (info r))) ->
  Forall (fun c => ~ is_meg c) (drop n (chs (info r))) ->
  _sss_basis g_in g_out (to_metres origin) (_create_coils geometry (take n (chs (info r))))
             int_order ext_order
             (World (<[raw := restricted r n]> (objs w))
                    (trace w ++ [EvCreateCoils; EvPickChannels raw])) =
    (Ok (S_in, S_out), w2) ->
  objs w2 = <[raw := restricted r n]> (objs w) -> nrows S_in = n ->
  reconstruct pinv S_in S_out (take_rows (take_rows (_data r) (seq 0 n)) (seq 0 n))
              (coil_scale_of (_create_coils geometry (take n (chs (info r))))) =
    Ok (mm, recon) ->
  exists raw_sss r_sss,
    maxwell_filter g_in g_out pinv geometry raw origin int_order ext_order w =
      (Ok raw_sss,
       World (<[raw_sss := r_sss]> (<[raw := restricted r n]> (objs w)))
             (trace w2 ++ [EvPinv; EvCopy raw raw_sss; EvAssignData raw_sss])) /\
    raw_sss <> raw /\ objs w !! raw_sss = None /\
    info r_sss =
      MkInfo (take n (chs (info r))) [] (Some false)
             (Some (provenance origin int_order ext_order n (nrows mm)
                      :: default [] (proc_history (info r)))) /\
    nrows (_data r_sss) = n /\ ncols (_data r_sss) = ncols (_data r) /\
    forall i j,
      item (_data r_sss) i j =
      (item recon i j
       / nth i (coil_scale_of (_create_coils geometry (take n (chs (info r))))) 1)%R.
Proof.
  intros Hr Hb Hnd Hn Hle Hmeg Hrest Hrun Hobjs HnS Hrec.
  destruct w2 as [o2 t2]. cbn [objs] in Hobjs. subst o2. cbn [trace].
  rewrite (maxwell_filter_prefix _ _ _ _ _ _ _ _ _ _ n Hr Hb Hnd Hn Hle Hmeg Hrest).
  cbv zeta.
  erewrite M_bind_ok; [|exact Hrun]. cbv beta iota.
  erewrite M_bind_ok; [|unfold emit; reflexivity].
  erewrite M_bind_ok; [|unfold lift; rewrite Hrec; reflexivity]. cbv beta iota.
  pose proof (reconstruct_inv _ _ _ _ _ _ _ Hrec) as Hinv. cbv zeta in Hinv.
  destruct Hinv as (_ & _ & _ & _ & Hre).
  set (cs := coil_scale_of _) in *. cbn [objs trace].
  set (w3 := World (<[raw := restricted r n]> (objs w)) (t2 ++ [EvPinv])).
  destruct (package_forward raw (fresh (dom (objs w3))) (restricted r n)
              (div_rows recon cs) origin int_order ext_order
              (nrows (take_rows (take_rows (_data r) (seq 0 n)) (seq 0 n))) (nrows mm) w3)
    as (r_sss & Hpk & Hne & Hfr & Hinfo & Hnr & Hnc & Hit).
  { apply lookup_insert_eq. }
  { reflexivity. }
  { rewrite Hre. cbn [nrows div_rows restricted _data take_rows]. by rewrite length_seq. }
  { rewrite Hre. reflexivity. }
  exists (fresh (dom (objs w3))), r_sss. split_and!.
  - rewrite Hpk. cbn [objs trace w3]. rewrite <- app_assoc. reflexivity.
  - exact Hne.
  - cbn [objs w3] in Hfr.
    rewrite lookup_insert_ne in Hfr by (intros Heq; by apply Hne). exact Hfr.
  - rewrite Hinfo. cbn [restricted info chs bads proc_history take_rows nrows].
    rewrite Hb, length_seq. reflexivity.
  - rewrite Hnr. cbn [restricted _data nrows take_rows]. apply length_seq.
  - rewrite Hnc. reflexivity.
  - intros i j. rewrite Hit. reflexivity.
Qed.

(** The two ways a call with the MEG channels leading can end.  Either it
    raises after the selection, and the store is the initial one with the
    input restricted; or it returns a new object, which holds the channels
    of the restricted input, a provenance record put before the history and
    as many data rows as MEG channels, the input being left restricted. *)
Lemma maxwell_filter_outcome g_in g_out pinv geometry raw origin
    (int_order ext_order : Z) w r n :
  objs w !! raw = Some r -> bads (info r) = [] -> NoDup (ch_names (info r)) ->
  0 < n -> n <= length (chs (info r)) ->
  Forall is_meg (take n (chs (info r))) ->
  Forall (fun c => ~ is_meg c) (drop n (chs (info r))) ->
  (0 <= int_order)%Z -> (0 <= ext_order)%Z ->
  (exists e w',
     maxwell_filter g_in g_out pinv geometry raw origin int_order ext_order w = (Raise e, w') /\
     objs w' = <[raw := restricted r n]> (objs w)) \/
  (exists raw_sss r_sss w' nmoments,
     maxwell_filter g_in g_out pinv geometry raw origin int_order ext_order w =
       (Ok raw_sss, w') /\
     objs w' = <[raw_sss := r_sss]> (<[raw := restricted r n]> (objs w)) /\
     raw_sss <> raw /\ objs w !! raw_sss = None /\
     info r_sss =
       MkInfo (take n (chs (info r))) [] (Some false)
              (Some (provenance origin int_order ext_order n nmoments
                       :: default [] (proc_history (info r)))) /\
     nrows (_data r_sss) = n /\ ncols (_data r_sss) = ncols (_data r)).
Proof.
  intros Hr Hb Hnd Hn Hle Hmeg Hrest Hi He.
  set (coils := _create_coils geometry (take n (chs (info r)))).
  set (w1 := World (<[raw := restricted r n]> (objs w))
                   (trace w ++ [EvCreateCoils; EvPickChannels raw])).
  assert (Hlen : length coils = n).
  { unfold coils, _create_coils. rewrite length_fmap, length_take. lia. }
  destruct (Z_le_gt_dec (get_num_moments int_order ext_order) (Z.of_nat (length coils)))
    as [Hfit|Hgt].
  - destruct (sss_basis_returns g_in g_out (to_metres origin) coils int_order ext_order w1
                Hi He Hfit) as (A_in & A_out & Hrun & [HnA _] & _).
    destruct (reconstruct pinv (normalize_columns (scale_rows A_in (coil_scale_of coils)))
                (normalize_columns (scale_rows A_out (coil_scale_of coils)))
                (take_rows (take_rows (_data r) (seq 0 n)) (seq 0 n)) (coil_scale_of coils))
      as [[mm recon]|e] eqn:Hrec.
    + right.
      destruct (maxwell_filter_success g_in g_out pinv geometry raw origin int_order
                  ext_order w r n _ _ _ mm recon Hr Hb Hnd Hn Hle Hmeg Hrest Hrun)
        as (l & r_sss & Hres & Hne & Hfr & Hinfo & Hnr & Hnc & _);
        [reflexivity | cbn; congruence | exact Hrec |].
      exists l, r_sss. eexists _, (nrows mm).
      split_and!; [exact Hres | reflexivity | exact Hne | exact Hfr | exact Hinfo
                  | exact Hnr | exact Hnc].
    + left. exists e. eexists. split.
      * rewrite (maxwell_filter_prefix _ _ _ _ _ _ _ _ _ _ n Hr Hb Hnd Hn Hle Hmeg Hrest).
        cbv zeta. erewrite M_bind_ok; [|exact Hrun]. cbv beta iota.
        erewrite M_bind_ok; [|unfold emit; reflexivity].
        unfold lift, mbind, M_bind. fold coils. rewrite Hrec. reflexivity.
      * reflexivity.
  - left. eexists _, _. split.
    + rewrite (maxwell_filter_prefix _ _ _ _ _ _ _ _ _ _ n Hr Hb Hnd Hn Hle Hmeg Hrest).
      cbv zeta. fold coils w1. unfold mbind, M_bind.
      rewrite (sss_basis_rejects g_in g_out (to_metres origin) coils int_order ext_order w1
                 Hi He Hgt).
      reflexivity.
    + reflexivity.
Qed.

(** C9: the container passed in does not come out of the call as it went
    in.  On the recording of three MEG channels followed by one EEG channel,
    with no bad channel, whatever the gradient kernels, the pseudo-inverse
    and the origin, and whether the call returns or raises after the
    selection, the object at the input's location holds afterwards the
    recording restricted to its three MEG channels: the EEG channel and its
    data row are gone from the input itself, because [pick_channels] runs on
    [raw] before [raw.copy()] is taken.  When the call returns, what it
    returns is another object than the input, a copy of the restricted
    recording (three channels, three rows) with the provenance record as its
    history. *)
Theorem maxwell_filter_restricts_input g_in g_out pinv origin :
  let w := world_of sample_raw in
  let run := maxwell_filter g_in g_out pinv sample_geometry 0 origin 1 0 w in
  objs w !! 0 = Some sample_raw /\
  ch_names (info sample_raw) = ["MEG0111"; "MEG0112"; "MEG0113"; "EEG001"] /\
  nrows (_data sample_raw) = 4 /\
  (exists r', objs run.2 !! 0 = Some r' /\
     ch_names (info r') = ["MEG0111"; "MEG0112"; "MEG0113"] /\
     nrows (_data r') = 3 /\ r' <> sample_raw) /\
  (forall raw_sss, run.1 = Ok raw_sss ->
     raw_sss <> 0 /\
     exists r_sss nmoments,
       objs run.2 !! raw_sss = Some r_sss /\
       ch_names (info r_sss) = ["MEG0111"; "MEG0112"; "MEG0113"] /\
       nrows (_data r_sss) = 3 /\ ncols (_data r_sss) = 2 /\
       proc_history (info r_sss) = Some [provenance origin 1 0 3 nmoments]).
Proof.
  intros w run.
  assert (Hne : restricted sample_raw 3 <> sample_raw).
  { intros Heq. apply (f_equal (fun r => nrows (_data r))) in Heq. discriminate Heq. }
  destruct (maxwell_filter_outcome g_in g_out pinv sample_geometry 0 origin 1 0
              (world_of sample_raw) sample_raw 3 eq_refl eq_refl sample_names_distinct
              ltac:(lia) ltac:(cbn; lia) ltac:(repeat constructor)
              ltac:(repeat constructor; discriminate) ltac:(lia) ltac:(lia))
    as [(e & w' & Hrun & Hobjs) | (l & r_sss & w' & nm & Hrun & Hobjs & Hl & _ & Hinfo & Hnr & Hnc)];
    fold w in Hrun; fold run in Hrun; rewrite Hrun; cbn [fst snd]; rewrite Hobjs.
  - split_and!; try reflexivity.
    + exists (restricted sample_raw 3).
      split_and!; [apply lookup_insert_eq | reflexivity | reflexivity | exact Hne].
    + intros raw_sss [=].
  - split_and!; try reflexivity.
    + exists (restricted sample_raw 3).
      split_and!; [|reflexivity | reflexivity | exact Hne].
      rewrite lookup_insert_ne by exact Hl. apply lookup_insert_eq.
    + intros raw_sss [= <-]. split; [exact Hl|].
      exists r_sss, nm. rewrite lookup_insert_eq, Hinfo, Hnr, Hnc.
      split_and!; reflexivity.
Qed.

(* ================================================================== *)
(** * 23. The spherical coordinates of a point *)

#[local] Open Scope R_scope.

(** [np.arctan2] takes its values in (-pi, pi]. *)
Lemma arctan2_range (y x : R) : - PI < arctan2 y x <= PI.
Proof.
  pose proof PI_RGT_0 as Hpi. pose proof (atan_bound (y / x)) as Hb.
  unfold arctan2.
  destruct (Rlt_dec 0 x) as [Hx|Hx]; [lra|].
  destruct (Rlt_dec x 0) as [Hx'|Hx'].
  - destruct (Rlt_dec y 0) as [Hy|Hy].
    + assert (Hq : 0 < y / x).
      { replace (y / x) with ((- y) * / (- x)) by (field; lra).
        apply Rmult_lt_0_compat; [lra|]. apply Rinv_0_lt_compat. lra. }
      pose proof (atan_increasing 0 (y / x) Hq) as Hi. rewrite atan_0 in Hi. lra.
    + assert (Hq : y / x <= 0).
      { replace (y / x) with (- (y * / (- x))) by (field; lra).
        assert (0 <= y * / (- x)); [|lra].
        apply Rmult_le_pos; [lra|]. left. apply Rinv_0_lt_compat. lra. }
      destruct Hq as [Hq|Hq].
      * pose proof (atan_increasing (y / x) 0 Hq) as Hi. rewrite atan_0 in Hi. lra.
      * rewrite Hq, atan_0. lra.
  - repeat destruct (Rlt_dec _ _); lra.
Qed.

Lemma norm3_pos (p : vec3) : norm3 p <> 0 -> 0 < norm3 p.
Proof.
  intros Hne. destruct p as [[x y] z]. unfold norm3 in *.
  pose proof (sqrt_pos (x * x + y * y + z * z)). lra.
Qed.

(** The third coordinate over the norm is a cosine. *)
Lemma polar_ratio_bound (x y z : R) :
  sqrt (x * x + y * y + z * z) <> 0 ->
  -1 <= z / sqrt (x * x + y * y + z * z) <= 1.
Proof.
  intros Hne. set (r := sqrt (x * x + y * y + z * z)) in *.
  assert (Hr : 0 < r) by (pose proof (sqrt_pos (x * x + y * y + z * z)); fold r in H; lra).
  assert (Hrr : r * r = x * x + y * y + z * z) by (apply sqrt_sqrt; nra).
  assert (Hz : - r <= z <= r) by (split; nra).
  assert (Hq : z / r * r = z) by (field; lra).
  split; nra.
Qed.

(** The planar part: [sqrt (x^2 + y^2)] and [arctan2 y x] are the polar
    coordinates of [(x, y)]. *)
Lemma arctan2_polar (x y : R) :
  sqrt (x * x + y * y) * cos (arctan2 y x) = x /\
  sqrt (x * x + y * y) * sin (arctan2 y x) = y.
Proof.
  unfold arctan2.
  destruct (Rlt_dec 0 x) as [Hx|Hx]; [|destruct (Rlt_dec x 0) as [Hx'|Hx']].
  - set (t := y / x).
    assert (Hs : 0 < sqrt (1 + t²)) by (apply sqrt_lt_R0; unfold Rsqr; nra).
    assert (Hrho : sqrt (x * x + y * y) = x * sqrt (1 + t²)).
    { apply sqrt_lem_1; [nra | nra |].
      replace (x * sqrt (1 + t²) * (x * sqrt (1 + t²)))
        with (x * x * (sqrt (1 + t²) * sqrt (1 + t²))) by ring.
      rewrite sqrt_sqrt by (unfold Rsqr; nra). unfold Rsqr, t. field. lra. }
    rewrite Hrho, cos_atan, sin_atan. fold t. split; [field; lra|].
    unfold t at 2. field. lra.
  - set (t := y / x).
    assert (Hs : 0 < sqrt (1 + t²)) by (apply sqrt_lt_R0; unfold Rsqr; nra).
    assert (Hrho : sqrt (x * x + y * y) = - x * sqrt (1 + t²)).
    { apply sqrt_lem_1; [nra | nra |].
      replace (- x * sqrt (1 + t²) * (- x * sqrt (1 + t²)))
        with (x * x * (sqrt (1 + t²) * sqrt (1 + t²))) by ring.
      rewrite sqrt_sqrt by (unfold Rsqr; nra). unfold Rsqr, t. field. lra. }
    rewrite Hrho.
    destruct (Rlt_dec y 0) as [Hy|Hy].
    + rewrite cos_minus, sin_minus, cos_PI, sin_PI, cos_atan, sin_atan. fold t.
      split; [field; lra|]. unfold t at 2. field. lra.
    + rewrite neg_cos, neg_sin, cos_atan, sin_atan. fold t.
      split; [field; lra|]. unfold t at 2. field. lra.
  - assert (x = 0) by lra. subst x.
    replace (0 * 0 + y * y) with (y * y) by ring.
    destruct (Rlt_dec 0 y) as [Hy|Hy]; [|destruct (Rlt_dec y 0) as [Hy'|Hy']].
    + rewrite sqrt_square by lra. rewrite cos_PI2, sin_PI2. split; ring.
    + replace (y * y) with ((- y) * (- y)) by ring. rewrite sqrt_square by lra.
      rewrite cos_neg, sin_neg, cos_PI2, sin_PI2. split; ring.
    + assert (y = 0) by lra. subst y.
      replace (0 * 0) with 0 by ring. rewrite sqrt_0. split; ring.
Qed.

(** A row of [_cart_to_sph] at a point of non-zero norm: three numbers, in
    range, from which the point is recovered. *)
Lemma sph_of_recovers (p : vec3) :
  norm3 p <> 0 ->
  exists az pol,
    sph_of p = (Num (norm3 p), Num az, Num pol) /\
    - PI < az <= PI /\ 0 <= pol <= PI /\
    norm3 p * sin pol * cos az = p.1.1 /\
    norm3 p * sin pol * sin az = p.1.2 /\
    norm3 p * cos pol = p.2.
Proof.
  intros Hne. pose proof (norm3_pos p Hne) as Hpos.
  destruct p as [[x y] z]. unfold sph_of. cbn [fst snd norm3] in *.
  set (r := sqrt (x * x + y * y + z * z)) in *.
  pose proof (polar_ratio_bound x y z Hne) as Hu. fold r in Hu.
  exists (arctan2 y x), (acos (z / r)).
  assert (Hrr : r * r = x * x + y * y + z * z) by (apply sqrt_sqrt; nra).
  assert (Hsin : r * sin (acos (z / r)) = sqrt (x * x + y * y)).
  { rewrite sin_acos by exact Hu. symmetry.
    assert (H1 : 0 <= 1 - (z / r)²) by (unfold Rsqr; nra).
    apply sqrt_lem_1; [nra | apply Rmult_le_pos; [lra | apply sqrt_pos] |].
    replace (r * sqrt (1 - (z / r)²) * (r * sqrt (1 - (z / r)²)))
      with (r * r * (sqrt (1 - (z / r)²) * sqrt (1 - (z / r)²))) by ring.
    rewrite sqrt_sqrt by exact H1. unfold Rsqr.
    replace (r * r * (1 - z / r * (z / r))) with (r * r - z * z) by (field; lra).
    lra. }
  destruct (arctan2_polar x y) as [Hc Hs].
  split_and!.
  - cbn [f_div]. destruct (Req_dec_T r 0) as [?|_]; [contradiction|].
    cbn [arccos]. destruct (Rlt_dec (z / r) (-1)); [lra|].
    destruct (Rlt_dec 1 (z / r)); [lra|]. reflexivity.
  - apply arctan2_range.
  - apply arctan2_range.
  - apply acos_bound.
  - apply acos_bound.
  - rewrite Hsin. exact Hc.
  - rewrite Hsin. exact Hs.
  - rewrite cos_acos by exact Hu. field. lra.
Qed.

(* ================================================================== *)
(** * 24. [_sph_to_cart_partials] *)

(** [np.cos], [np.sin] and the unary minus on a [float64]. *)
Definition f_cos (x : float64) : float64 :=
  match x with Num a => Num (cos a) | _ => NaN end.
Definition f_sin (x : float64) : float64 :=
  match x with Num a => Num (sin a) | _ => NaN end.
Definition f_neg (x : float64) : float64 :=
  match x with
  | Num a => Num (- a)
  | PosInf => NegInf
  | NegInf => PosInf
  | NaN => NaN
  end.

(** [np.dot(trans, v)] for a 3 x 3 array given by its rows. *)
Definition dot33 (trans : fvec3 * fvec3 * fvec3) (v : fvec3) : fvec3 :=
  (row_dot trans.1.1 v, row_dot trans.1.2 v, row_dot trans.2 v).

(** The body of the loop of [_sph_to_cart_partials]: the transformation
    matrix at a point [(rad, az, pol)] applied to the partial derivatives
    there. *)
Definition sph_to_cart_at (sph_pt sph_grad : fvec3) : fvec3 :=
  let c_a := f_cos sph_pt.1.2 in
  let s_a := f_sin sph_pt.1.2 in
  let c_p := f_cos sph_pt.2 in
  let s_p := f_sin sph_pt.2 in
  let trans := ((f_mul c_a s_p, f_neg s_a, f_mul c_a c_p),
                (f_mul s_a s_p, c_a, f_mul c_p s_a),
                (c_p, Num 0, f_neg s_p)) in
  dot33 trans sph_grad.

(** [_sph_to_cart_partials] on real arrays of three columns:
    [cart_grads = np.zeros_like(sph_grads)], then
    [cart_grads[pt_i, :] = np.dot(trans, sph_grad)] for the pairs
    [enumerate(zip(sph_pts, sph_grads))]. *)
Definition _sph_to_cart_partials (sph_pts sph_grads : list fvec3) : list fvec3 :=
  let cart_grads := replicate (length sph_grads) (Num 0, Num 0, Num 0) in
  let pairs := zip sph_pts sph_grads in
  foldl (fun cart_grads (e : nat * (fvec3 * fvec3)) =>
           <[e.1 := sph_to_cart_at e.2.1 e.2.2]> cart_grads)
        cart_grads (zip (seq 0 (length pairs)) pairs).

(** A loop that assigns [f x] at the positions of an enumeration fills that
    stretch of the list and leaves the rest. *)
Lemma foldl_insert_enumerate {A B} (f : A -> B) (l : list A) (a : nat) (init : list B) :
  (a + length l <= length init)%nat ->
  foldl (fun acc (e : nat * A) => <[e.1 := f e.2]> acc) init (zip (seq a (length l)) l)
  = take a init ++ (f <$> l) ++ drop (a + length l) init.
Proof.
  revert a init. induction l as [|x l IH]; intros a init Hle.
  - cbn. rewrite Nat.add_0_r. by rewrite take_drop.
  - cbn [length seq zip zip_with foldl fst snd] in *.
    rewrite IH by (rewrite length_insert; lia).
    rewrite (take_S_r (<[a := f x]> init) a (f x))
      by (apply list_lookup_insert_eq; lia).
    rewrite take_insert_ge by lia. rewrite drop_insert_lt by lia.
    rewrite fmap_cons, <- app_assoc. cbn [app].
    replace (S a + length l)%nat with (a + S (length l))%nat by lia. reflexivity.
Qed.

(** Row by row: the pairs that [zip] forms are transformed, the rows of
    [sph_grads] beyond them stay the zeros of [np.zeros_like]. *)
Lemma sph_to_cart_rows (sph_pts sph_grads : list fvec3) :
  _sph_to_cart_partials sph_pts sph_grads =
  zip_with sph_to_cart_at sph_pts sph_grads
  ++ replicate (length sph_grads - length sph_pts) (Num 0, Num 0, Num 0).
Proof.
  unfold _sph_to_cart_partials.
  rewrite (foldl_insert_enumerate (fun e : fvec3 * fvec3 => sph_to_cart_at e.1 e.2)
             (zip sph_pts sph_grads) 0).
  - rewrite take_0, drop_replicate, length_zip_with. cbn [app Nat.add].
    f_equal.
    + clear. revert sph_grads. induction sph_pts as [|p l IH]; intros [|g gs]; try reflexivity.
      cbn [zip zip_with fmap list_fmap fst snd]. f_equal. apply IH.
    + f_equal. lia.
  - rewrite length_zip_with, length_replicate. lia.
Qed.

(** On numbers the transformation is a rotation: it keeps the length of the
    vector of partial derivatives. *)
Lemma sph_to_cart_at_norm (rad : float64) (az pol a b c : R) :
  exists X Y Z,
    sph_to_cart_at (rad, Num az, Num pol) (Num a, Num b, Num c) = (Num X, Num Y, Num Z) /\
    X * X + Y * Y + Z * Z = a * a + b * b + c * c.
Proof.
  eexists _, _, _. split; [reflexivity|].
  pose proof (sin2_cos2 az) as Ha. pose proof (sin2_cos2 pol) as Hp. unfold Rsqr in Ha, Hp.
  set (ca := cos az) in *. set (sa := sin az) in *.
  set (cp := cos pol) in *. set (sp := sin pol) in *.
  replace ((ca * sp * a + - sa * b + ca * cp * c) * (ca * sp * a + - sa * b + ca * cp * c) +
           (sa * sp * a + ca * b + cp * sa * c) * (sa * sp * a + ca * b + cp * sa * c) +
           (cp * a + 0 * b + - sp * c) * (cp * a + 0 * b + - sp * c))
    with (a * a * ((sa * sa + ca * ca) * (sp * sp) + cp * cp)
          + b * b * (sa * sa + ca * ca)
          + c * c * ((sa * sa + ca * ca) * (cp * cp) + sp * sp)
          + 2 * a * c * sp * cp * ((sa * sa + ca * ca) - 1)) by ring.
  rewrite Ha. replace (1 * (sp * sp) + cp * cp) with (sp * sp + cp * cp) by ring.
  replace (1 * (cp * cp) + sp * sp) with (sp * sp + cp * cp) by ring.
  rewrite Hp. ring.
Qed.

(** The unit radial derivative scaled by the radius, at the spherical
    coordinates of a point, is the point itself. *)
Lemma sph_to_cart_at_radial (p : vec3) :
  norm3 p <> 0 ->
  sph_to_cart_at (sph_of p) (Num (norm3 p), Num 0, Num 0) = fvec_of p.
Proof.
  intros Hne.
  destruct (sph_of_recovers p Hne) as (az & pol & -> & _ & _ & Hx & Hy & Hz).
  destruct p as [[x y] z]. cbn [fst snd] in Hx, Hy, Hz.
  unfold sph_to_cart_at, dot33, row_dot, fvec_of.
  cbn [fst snd f_cos f_sin f_neg f_mul f_add].
  set (r := norm3 (x, y, z)) in *.
  f_equal; [f_equal|]; f_equal.
  - rewrite <- Hx. ring.
  - rewrite <- Hy. ring.
  - rewrite <- Hz. ring.
Qed.

Lemma norm3_nonzero (p : vec3) :
  p.1.1 <> 0 \/ p.1.2 <> 0 \/ p.2 <> 0 -> norm3 p <> 0.
Proof.
  intros H Hz. apply norm3_zero in Hz. subst p. cbn in H. tauto.
Qed.

(* ================================================================== *)
(** * 25. Properties of the coordinate transforms *)

(** X1: every row [_cart_to_sph] returns has a non-negative radius, an
    azimuth in (-pi, pi] and a polar angle that is [nan] or in [0, pi]; so
    the range checks of [_sph_harmonic] accept the azimuth and polar columns
    of any output of [_cart_to_sph] (a [nan] polar angle included, every
    comparison with it being false), and [_sph_harmonic] raises on them
    exactly when [|order| > degree]. *)
Theorem cart_to_sph_within_harmonic_ranges (cart_pts : list vec3) (degree order : Z) :
  exists out,
    _cart_to_sph cart_pts = Ok out /\
    (forall i s, out !! i = Some s ->
       exists r az, s.1.1 = Num r /\ 0 <= r /\ s.1.2 = Num az /\ - PI < az <= PI /\
                    (s.2 = NaN \/ exists pol, s.2 = Num pol /\ 0 <= pol <= PI)) /\
    (_sph_harmonic_checks degree order ((fun s : fvec3 => s.1.2) <$> out)
                          ((fun s : fvec3 => s.2) <$> out) = Ok tt
     <-> (Z.abs order <= degree)%Z).
Proof.
  exists (sph_of <$> cart_pts). split_and!.
  - apply cart_to_sph_rows.
  - intros i s Hs. apply list_lookup_fmap_Some in Hs as (p & -> & _).
    exists (norm3 p), (arctan2 p.1.2 p.1.1).
    split_and!; try reflexivity; try apply arctan2_range.
    + destruct p as [[x y] z]. apply sqrt_pos.
    + destruct (Req_dec (norm3 p) 0) as [Hz|Hnz].
      * left. by rewrite (sph_of_norm_zero p Hz).
      * right. destruct (sph_of_recovers p Hnz) as (az & pol & Heq & _ & Hpol & _).
        exists pol. by rewrite Heq.
  - split.
    + unfold _sph_harmonic_checks.
      destruct (Z.gtb_spec (Z.abs order) degree) as [Hgt|Hle]; [discriminate | intros _; lia].
    + intros Hle. apply sph_harmonic_checks_pass; [exact Hle|].
      apply Forall_fmap, Forall_true. intros p. apply sph_of_ok.
Qed.

(** X2: at a point of non-zero norm [_cart_to_sph] returns three numbers
    [(rad, az, pol)] from which the point is recovered:
    [x = rad sin(pol) cos(az)], [y = rad sin(pol) sin(az)],
    [z = rad cos(pol)]. *)
Theorem cart_to_sph_recovers_point (cart_pts : list vec3) (i : nat) (p : vec3) :
  cart_pts !! i = Some p -> norm3 p <> 0 ->
  exists out az pol,
    _cart_to_sph cart_pts = Ok out /\
    out !! i = Some (Num (norm3 p), Num az, Num pol) /\
    norm3 p * sin pol * cos az = p.1.1 /\
    norm3 p * sin pol * sin az = p.1.2 /\
    norm3 p * cos pol = p.2.
Proof.
  intros Hi Hne.
  destruct (sph_of_recovers p Hne) as (az & pol & Heq & _ & _ & Hx & Hy & Hz).
  exists (sph_of <$> cart_pts), az, pol. split_and!; try assumption.
  - apply cart_to_sph_rows.
  - by rewrite list_lookup_fmap, Hi, <- Heq.
Qed.

(** X2 at the points (3, 4, 0) and (0, 0, 2). *)
Lemma cart_to_sph_recovers_point_witness :
  exists out az pol,
    _cart_to_sph [(3, 4, 0); (0, 0, 2)] = Ok out /\
    out !! 0%nat = Some (Num (norm3 (3, 4, 0)), Num az, Num pol) /\
    norm3 (3, 4, 0) * sin pol * cos az = 3 /\
    norm3 (3, 4, 0) * sin pol * sin az = 4 /\
    norm3 (3, 4, 0) * cos pol = 0.
Proof.
  apply (cart_to_sph_recovers_point [(3, 4, 0); (0, 0, 2)] 0 (3, 4, 0)).
  - reflexivity.
  - apply norm3_nonzero. cbn. left. lra.
Defined.

(** X3: [_sph_to_cart_partials] returns as many rows as [sph_grads] has.
    Where both arrays have a row of numbers, the row returned has the
    Euclidean length of the row of partial derivatives (the transformation
    matrix is a rotation); the rows of [sph_grads] that [zip] leaves without
    a point are returned as zeros. *)
Theorem sph_to_cart_partials_rotates (sph_pts sph_grads : list fvec3) :
  length (_sph_to_cart_partials sph_pts sph_grads) = length sph_grads /\
  (forall i rad az pol a b c,
     sph_pts !! i = Some (rad, Num az, Num pol) ->
     sph_grads !! i = Some (Num a, Num b, Num c) ->
     exists X Y Z,
       _sph_to_cart_partials sph_pts sph_grads !! i = Some (Num X, Num Y, Num Z) /\
       X * X + Y * Y + Z * Z = a * a + b * b + c * c) /\
  (forall i, (length sph_pts <= i < length sph_grads)%nat ->
     _sph_to_cart_partials sph_pts sph_grads !! i = Some (Num 0, Num 0, Num 0)).
Proof.
  rewrite sph_to_cart_rows. split_and!.
  - rewrite length_app, length_zip_with, length_replicate. lia.
  - intros i rad az pol a b c Hp Hg.
    destruct (sph_to_cart_at_norm rad az pol a b c) as (X & Y & Z & Heq & Hn).
    exists X, Y, Z. split; [|exact Hn].
    pose proof (lookup_lt_Some _ _ _ Hp) as Hlp.
    pose proof (lookup_lt_Some _ _ _ Hg) as Hlg.
    rewrite lookup_app_l
      by (rewrite length_zip_with; apply Nat.min_glb_lt; assumption).
    apply lookup_zip_with_Some. eexists _, _. split_and!; [|exact Hp | exact Hg].
    by rewrite Heq.
  - intros i Hi. rewrite lookup_app_r by (rewrite length_zip_with; lia).
    apply lookup_replicate_2. rewrite length_zip_with. lia.
Qed.

(** X4: the two transforms fit together.  For points of non-zero norm,
    the radial derivative [(rad, 0, 0)] taken at the spherical coordinates
    [_cart_to_sph] returns is mapped by [_sph_to_cart_partials] to the point
    itself. *)
Theorem sph_to_cart_of_cart_to_sph (cart_pts : list vec3) :
  Forall (fun p => norm3 p <> 0) cart_pts ->
  exists sph,
    _cart_to_sph cart_pts = Ok sph /\
    _sph_to_cart_partials sph ((fun p => (Num (norm3 p), Num 0, Num 0)) <$> cart_pts)
    = fvec_of <$> cart_pts.
Proof.
  intros Hne. exists (sph_of <$> cart_pts). split; [apply cart_to_sph_rows|].
  rewrite sph_to_cart_rows, !length_fmap, Nat.sub_diag. cbn [replicate].
  rewrite app_nil_r.
  induction Hne as [|p l Hp _ IH]; [reflexivity|].
  rewrite !fmap_cons. cbn [zip_with]. rewrite IH. f_equal.
  by apply sph_to_cart_at_radial.
Qed.

(** X4 at the points (3, 4, 0) and (0, 0, 2). *)
Lemma sph_to_cart_of_cart_to_sph_witness :
  exists sph,
    _cart_to_sph [(3, 4, 0); (0, 0, 2)] = Ok sph /\
    _sph_to_cart_partials sph
      [(Num (norm3 (3, 4, 0)), Num 0, Num 0); (Num (norm3 (0, 0, 2)), Num 0, Num 0)]
    = [(Num 3, Num 4, Num 0); (Num 0, Num 0, Num 2)].
Proof.
  apply (sph_to_cart_of_cart_to_sph [(3, 4, 0); (0, 0, 2)]).
  repeat constructor; apply norm3_nonzero; cbn; [left | right; right]; lra.
Defined.

(* ================================================================== *)
(** * 26. The entries of a basis, sensor by sensor *)

(** What one integration point adds to the entry of its sensor in the
    column of (degree, order): the weight times the dot product of the
    negated gradient at the point with the normal there. *)
Definition point_flux (g_at : Z -> Z -> fvec3 -> fvec3) (origin : vec3) (deg order : Z)
    (pt : int_point) : float64 :=
  f_mul (Num (pt_w pt))
    (row_dot (fvec_scale (Num (-1))
                (g_at deg order
                   (sph_of ((pt_rmag pt).1.1 - origin.1.1, (pt_rmag pt).1.2 - origin.1.2,
                            (pt_rmag pt).2 - origin.2)%R)))
             (fvec_of (pt_cosmag pt))).

(** [all_grads], point by point. *)
Lemma weighted_flux_points g_at origin (pts : list int_point) (deg order : Z) :
  weighted_flux g_at
    (sph_of <$> ((fun p : vec3 => (p.1.1 - origin.1.1, p.1.2 - origin.1.2, p.2 - origin.2))
                   <$> (pt_rmag <$> pts)))
    (pt_cosmag <$> pts) (pt_w <$> pts) deg order
  = point_flux g_at origin deg order <$> pts.
Proof.
  unfold weighted_flux. induction pts as [|pt pts IH]; [reflexivity|].
  rewrite !fmap_cons. cbn [zip_with]. rewrite IH. reflexivity.
Qed.

(** [int_lens[r]] is the number of integration points of the coils before
    coil [r]. *)
Lemma int_lens_offset (coils : list coil) (acc r : nat) :
  (r <= length coils)%nat ->
  nth r (acc :: cumsum_from acc ((fun c => length (int_points c)) <$> coils)) O
  = (acc + length (take r coils ≫= int_points))%nat.
Proof.
  revert acc r. induction coils as [|c cs IH]; intros acc r Hr.
  - cbn in Hr. replace r with O by lia. cbn. lia.
  - destruct r as [|r]; [cbn; lia|].
    pose proof (IH (acc + length (int_points c))%nat r ltac:(cbn in Hr; lia)) as Hoff.
    rewrite fmap_cons. cbn [take]. rewrite bind_cons, length_app.
    transitivity (acc + length (int_points c)
                  + length (take r cs ≫= int_points))%nat; [exact Hoff | lia].
Qed.

(** The slice [all_grads[int_lens[r]:int_lens[r + 1]]] holds the values of
    the integration points of coil [r], and no other. *)
Lemma slice_of_own_points {B} (F : int_point -> B) (coils : list coil) (r : nat) (k : coil) :
  coils !! r = Some k ->
  py_slice (F <$> (coils ≫= int_points))
    (nth r (O :: np_cumsum ((fun c => length (int_points c)) <$> coils)) O)
    (nth (r + 1) (O :: np_cumsum ((fun c => length (int_points c)) <$> coils)) O)
  = F <$> int_points k.
Proof.
  intros Hk. pose proof (lookup_lt_Some _ _ _ Hk) as Hlt.
  unfold np_cumsum. rewrite !int_lens_offset by lia. cbn [Nat.add].
  replace (r + 1)%nat with (S r) by lia.
  rewrite (take_S_r coils r k Hk), bind_app, length_app. cbn [mbind list_bind].
  rewrite app_nil_r.
  rewrite <- (take_drop_middle coils r k Hk) at 1.
  rewrite bind_app, bind_cons, !fmap_app.
  unfold py_slice.
  rewrite drop_app_length' by (by rewrite length_fmap).
  replace (length (take r coils ≫= int_points) + length (int_points k)
           - length (take r coils ≫= int_points))%nat
    with (length (int_points k)) by lia.
  rewrite take_app_length' by (by rewrite length_fmap). reflexivity.
Qed.

(** The entry of sensor [r] before scaling and normalisation is the sum of
    what the integration points of coil [r] add. *)
Lemma raw_entry_own_points g_at origin coils (r c : nat) (k : coil) :
  coils !! r = Some k ->
  raw_entry g_at origin coils r c =
  np_sum (point_flux g_at origin (column_degree (Z.of_nat c)) (column_order (Z.of_nat c))
            <$> int_points k).
Proof.
  intros Hk. unfold raw_entry, basis_entry, sensor_sum, cvec_sph_of, _concatenate_coils.
  cbn [fst snd]. rewrite weighted_flux_points.
  by rewrite (slice_of_own_points _ coils r k Hk).
Qed.

(** With a negative (or zero) order bound the loops of [fill_space] are not
    entered: [range(1, order + 1)] is empty, and the array is scaled and
    normalised as it came. *)
Lemma fill_space_no_degree sp g_func (L : Z) cvec_sph ncoils wcoils int_lens cs spc w :
  (L <= 0)%Z ->
  fill_space sp g_func L cvec_sph ncoils wcoils int_lens cs spc w =
    (Ok (normalize_columns (scale_rows spc cs)), w).
Proof.
  intros HL. unfold fill_space, py_range, seqZ.
  replace (Z.to_nat (L + 1 - 1)) with O by lia. reflexivity.
Qed.

(* ================================================================== *)
(** * 27. More properties of the basis assembly *)



(** The error [np.empty] raises for a negative column count. *)
Definition negative_dimensions : exn :=
  ValueError "negative dimensions are not allowed".

(** X6: negative orders.  An order of -1 on either side asks [np.empty] for
    -1 columns and [_sss_basis] raises that [ValueError], before the count
    of requested bases is compared with the sensors and with the world as it
    was.  An internal order of -2 or less is not refused: the basis has
    [(int_order + 1)^2 - 1 >= 0] columns, [range(1, int_order + 1)] is empty,
    no entry is ever assigned, and when the call returns every entry of the
    internal basis is the [nan] of the initialisation; it does return when
    the external order is not -1 and [get_num_moments] does not exceed the
    number of sensors. *)
Theorem sss_basis_negative_orders g_in g_out origin coils (int_order ext_order : Z) w :
  ((int_order = -1 \/ ext_order = -1)%Z ->
   _sss_basis g_in g_out origin coils int_order ext_order w =
     (Raise negative_dimensions, w)) /\
  ((int_order <= -2)%Z -> (ext_order <> -1)%Z ->
   (get_num_moments int_order ext_order <= Z.of_nat (length coils))%Z ->
   exists S_in S_out w',
     _sss_basis g_in g_out origin coils int_order ext_order w = (Ok (S_in, S_out), w') /\
     nrows S_in = length coils /\
     Z.of_nat (ncols S_in) = ((int_order + 1) ^ 2 - 1)%Z /\
     forall i j, item S_in i j = NaN).
Proof.
  split.
  - intros Hm. unfold _sss_basis.
    destruct (_concatenate_coils coils) as [[[r_int_pts ncoils] wcoils] int_pts].
    unfold np_full, lift, mbind, M_bind.
    destruct (Z.ltb_spec ((int_order + 1) ^ 2 - 1) 0) as [_|Hi]; [reflexivity|].
    destruct (Z.ltb_spec ((ext_order + 1) ^ 2 - 1) 0) as [_|He]; [reflexivity|].
    exfalso. destruct Hm as [-> | ->]; cbn in *; lia.
  - intros Hi He Hle. unfold _sss_basis.
    destruct (_concatenate_coils coils) as [[[r_int_pts ncoils] wcoils] int_pts] eqn:Hcc.
    assert (Hlen : length int_pts = length coils).
    { unfold _concatenate_coils in Hcc. injection Hcc as _ _ _ <-. by rewrite length_fmap. }
    rewrite Hlen. unfold np_full, lift.
    destruct (Z.ltb_spec ((int_order + 1) ^ 2 - 1) 0) as [?|Hci]; [nia|].
    destruct (Z.ltb_spec ((ext_order + 1) ^ 2 - 1) 0) as [?|Hce]; [nia|].
    unfold mbind at 1 2. unfold M_bind at 1 2.
    destruct (Z.gtb_spec (get_num_moments int_order ext_order) (Z.of_nat (length coils)))
      as [?|_]; [lia|].
    rewrite cart_to_sph_rows. unfold mbind at 1. unfold M_bind at 1.
    set (cvec_sph := sph_of <$> _).
    set (int_lens := O :: np_cumsum int_pts).
    unfold mbind at 1. unfold M_bind at 1.
    rewrite fill_space_no_degree by lia.
    set (S_in := normalize_columns _).
    assert (HS : nrows S_in = length coils /\
                 Z.of_nat (ncols S_in) = ((int_order + 1) ^ 2 - 1)%Z /\
                 forall i j, item S_in i j = NaN).
    { unfold S_in. cbn [nrows ncols normalize_columns scale_rows item f_mul f_div].
      split_and!; [reflexivity | lia | reflexivity]. }
    destruct (Z_le_gt_dec ext_order 0) as [Hneg|Hpos].
    + unfold mbind, M_bind. rewrite fill_space_no_degree by lia.
      eexists S_in, _, _. split; [reflexivity | exact HS].
    + assert (Hil : (length int_lens - 1 = length coils)%nat).
      { unfold int_lens, np_cumsum. cbn. rewrite cumsum_from_length. lia. }
      destruct (fill_space_spec External g_out ext_order cvec_sph ncoils wcoils int_lens
                  (coil_scale_of coils)
                  (NdArray (length coils) (Z.to_nat ((ext_order + 1) ^ 2 - 1))
                           (fun _ _ => NaN)) w)
        as (A_out & Hrun_out & _); [lia | | rewrite Hil; cbn; lia | reflexivity |].
      { unfold cvec_sph. apply Forall_fmap, Forall_true. intros p. apply sph_of_ok. }
      change (_grad_out_components g_out) with (checked_grad g_out).
      unfold mbind, M_bind. rewrite Hrun_out.
      eexists S_in, _, _. split; [reflexivity | exact HS].
Qed.

(** X6 at the internal order -3 on three sensors: three columns of [nan]. *)
Lemma sss_basis_negative_orders_witness :
  _sss_basis sample_grad sample_grad (0, 0, 0) sample_coils (-1) 0 empty_world =
    (Raise negative_dimensions, empty_world) /\
  exists S_in S_out w',
    _sss_basis sample_grad sample_grad (0, 0, 0) sample_coils (-3) 0 empty_world =
      (Ok (S_in, S_out), w') /\
    nrows S_in = 3%nat /\ Z.of_nat (ncols S_in) = 3%Z /\ item S_in 0 0 = NaN.
Proof.
  split.
  - apply (sss_basis_negative_orders sample_grad sample_grad (0, 0, 0) sample_coils (-1) 0
             empty_world). left. reflexivity.
  - destruct (sss_basis_negative_orders sample_grad sample_grad (0, 0, 0) sample_coils
                (-3) 0 empty_world) as [_ H].
    destruct H as (S_in & S_out & w' & Hrun & Hn & Hc & Hnan);
      [lia | lia | unfold get_num_moments; cbn; lia |].
    exists S_in, S_out, w'. split_and!; [exact Hrun | exact Hn | exact Hc | apply Hnan].
Defined.

(* ================================================================== *)
(** * 28. Coil construction and the failures of the selection *)

#[local] Close Scope R_scope.

(** The channels found at the positions of those with a property are the
    channels with the property, in order. *)
Lemma omap_positions_from {A} (P : A -> Prop) `{forall x, Decision (P x)}
    (pre l : list A) :
  omap (fun k => (pre ++ l) !! k) (positions_from P (length pre) l) = filter P l.
Proof.
  revert pre. induction l as [|x l IH]; intros pre; [reflexivity|].
  rewrite positions_from_cons, filter_cons.
  specialize (IH (pre ++ [x])). rewrite <- app_assoc, length_app in IH. cbn in IH.
  rewrite Nat.add_1_r in IH.
  destruct (decide (P x)); [|exact IH].
  cbn [omap list_omap]. rewrite lookup_app_r by lia. rewrite Nat.sub_diag. cbn.
  f_equal. exact IH.
Qed.

Lemma pick_info_of_pick_types (i : Info) :
  pick_info_chs i (pick_types_meg i) = filter (fun c => kind c = FIFFV_MEG_CH) (chs i).
Proof. apply (omap_positions_from (fun c => kind c = FIFFV_MEG_CH) [] (chs i)). Qed.

Lemma length_positions_from {A} (P : A -> Prop) `{forall x, Decision (P x)}
    (a : nat) (l : list A) :
  length (positions_from P a l) = length (filter P l).
Proof.
  revert a. induction l as [|x l IH]; intros a; [reflexivity|].
  rewrite positions_from_cons, filter_cons.
  destruct (decide (P x)); cbn [length]; by rewrite IH.
Qed.

(** What [_make_coils] does, by whether there is a MEG channel. *)
Lemma make_coils_run geometry (i : Info) (w : world) :
  _make_coils geometry i w =
  match filter (fun c => kind c = FIFFV_MEG_CH) (chs i) with
  | [] => (Raise (RuntimeError "Could not find any MEG channels"), w)
  | megchs => (Ok (coil_of geometry <$> megchs, megchs),
               World (objs w) (trace w ++ [EvCreateCoils]))
  end.
Proof.
  unfold _make_coils. cbv zeta. rewrite pick_info_of_pick_types.
  assert (Hlen : length (pick_types_meg i)
                 = length (filter (fun c => kind c = FIFFV_MEG_CH) (chs i))).
  { apply (length_positions_from (fun c => kind c = FIFFV_MEG_CH) 0 (chs i)). }
  rewrite Hlen.
  destruct (filter _ (chs i)) as [|c l]; reflexivity.
Qed.

(** X7: [_make_coils] raises "Could not find any MEG channels" exactly when
    no channel of the record is of the MEG kind, and then nothing has been
    built; otherwise it returns one coil per MEG channel, in the order of the
    channels and named after them, with the MEG channels as [meg_info]. *)
Theorem make_coils_outcome geometry (i : Info) (w : world) :
  (raises (_make_coils geometry i w).1 <-> Forall (fun c => ~ is_meg c) (chs i)) /\
  (Forall (fun c => ~ is_meg c) (chs i) ->
   _make_coils geometry i w =
     (Raise (RuntimeError "Could not find any MEG channels"), w)) /\
  (Exists is_meg (chs i) ->
   exists megchs,
     megchs = filter (fun c => kind c = FIFFV_MEG_CH) (chs i) /\ megchs <> [] /\
     _make_coils geometry i w =
       (Ok (coil_of geometry <$> megchs, megchs),
        World (objs w) (trace w ++ [EvCreateCoils])) /\
     chname <$> (coil_of geometry <$> megchs) = ch_name <$> megchs).
Proof.
  rewrite make_coils_run.
  destruct (filter (fun c => kind c = FIFFV_MEG_CH) (chs i)) as [|c l] eqn:Hf.
  - assert (Hnone : Forall (fun c => ~ is_meg c) (chs i)).
    { apply Forall_forall. intros c Hc Hm.
      assert (Hin : c ∈ filter (fun c => kind c = FIFFV_MEG_CH) (chs i))
        by (apply list_elem_of_filter; split; assumption).
      rewrite Hf in Hin. by apply not_elem_of_nil in Hin. }
    split_and!.
    + split; [intros _; exact Hnone | intros _; eexists; reflexivity].
    + reflexivity.
    + intros Hex. exfalso. apply Exists_exists in Hex as (c & Hc & Hm).
      rewrite Forall_forall in Hnone. by apply (Hnone c Hc).
  - assert (Hsome : Exists is_meg (chs i)).
    { apply Exists_exists. exists c.
      assert (Hin : c ∈ filter (fun c => kind c = FIFFV_MEG_CH) (chs i))
        by (rewrite Hf; left).
      apply list_elem_of_filter in Hin as [Hm Hc]. split; assumption. }
    split_and!.
    + split; [intros [e [=]]|].
      intros Hnone. exfalso. apply Exists_exists in Hsome as (c' & Hc & Hm).
      rewrite Forall_forall in Hnone. by apply (Hnone c' Hc).
    + intros Hnone. exfalso. apply Exists_exists in Hsome as (c' & Hc & Hm).
      rewrite Forall_forall in Hnone. by apply (Hnone c' Hc).
    + intros _. exists (c :: l). split_and!; [reflexivity | discriminate | reflexivity |].
      rewrite <- list_fmap_compose. reflexivity.
Qed.

Lemma filter_none {A} (P : A -> Prop) `{forall x, Decision (P x)} (l : list A) :
  Forall (fun x => ~ P x) l -> filter P l = [].
Proof.
  induction 1 as [|x l Hx _ IH]; [reflexivity|].
  rewrite filter_cons. by destruct (decide (P x)).
Qed.

(** A position outside the list makes the comprehension
    [[l[k] for k in ks]] raise. *)
Lemma mapM_getitem_raises {A} (l : list A) (ks : list nat) :
  Exists (fun k => length l <= k) ks ->
  mapM (list_getitem l) ks = Raise (IndexError "list index out of range").
Proof.
  induction ks as [|k ks IH]; intros Hex; [by apply Exists_nil in Hex|].
  cbn [mapM].
  destruct (list_getitem l k) as [x|e] eqn:Hg; unfold list_getitem in Hg;
    destruct (l !! k) as [y|] eqn:Hl; try discriminate; [|by injection Hg as <-].
  cbn [mbind result_bind]. fold (mapM (list_getitem l) ks).
  rewrite IH; [reflexivity|].
  apply Exists_cons in Hex as [Hhere|Htl]; [|exact Htl].
  apply lookup_lt_Some in Hl. lia.
Qed.

(** When a channel that is not MEG comes before a MEG channel, some MEG
    position is not below the number of MEG channels. *)
Lemma meg_position_out_of_range (chs : list channel) (k k' : nat) (c c' : channel) :
  k < k' -> chs !! k = Some c -> ~ is_meg c -> chs !! k' = Some c' -> is_meg c' ->
  let ps := positions (fun c => kind c = FIFFV_MEG_CH) chs in
  0 < length ps /\ Exists (fun p => length ps <= p) ps.
Proof.
  intros Hlt Hk Hc Hk' Hc' ps.
  change ps with (positions_from (fun c => kind c = FIFFV_MEG_CH) 0 chs).
  set (qs := positions_from (fun c => kind c = FIFFV_MEG_CH) 0 chs).
  split.
  - destruct qs as [|q qs'] eqn:Hq; [|cbn; lia]. exfalso.
    apply positions_from_nil_inv in Hq. rewrite Forall_forall in Hq.
    apply (Hq c'); [by eapply list_elem_of_lookup_2 | exact Hc'].
  - destruct (decide (Forall (fun p => p < 0 + length qs) qs)) as [Hb|Hnb].
    + exfalso.
      destruct (positions_from_bounded (fun c => kind c = FIFFV_MEG_CH) 0 chs Hb)
        as (n & _ & Hle & Ht & Hd).
      destruct (decide (k' < n)) as [Hin|Hout].
      * rewrite Forall_forall in Ht. apply Hc, (Ht c).
        apply list_elem_of_lookup_2 with k. apply lookup_take_Some. split; [exact Hk | lia].
      * rewrite Forall_forall in Hd. apply (Hd c'); [|exact Hc'].
        apply list_elem_of_lookup_2 with (k' - n). rewrite lookup_drop.
        by replace (n + (k' - n)) with k' by lia.
    + apply not_Forall_Exists in Hnb; [|intros p; apply _].
      eapply Exists_impl; [exact Hnb|]. cbn. intros p Hp. lia.
Qed.

(** X8: the two ways the channel selection of [maxwell_filter] fails, on a
    record without bad channels.  With no MEG channel the call raises
    "Could not find any MEG channels" and the world is as it was.  With
    distinct channel names and a channel that is not MEG placed before a MEG
    channel, [all_coils[ci]] is asked for a position past the end of
    [all_coils]: the call raises [IndexError] after the coils were built and
    before [pick_channels] runs, so no object has changed. *)
Theorem maxwell_filter_selection_failures g_in g_out pinv geometry raw origin
    (int_order ext_order : Z) w r :
  objs w !! raw = Some r -> bads (info r) = [] ->
  (Forall (fun c => ~ is_meg c) (chs (info r)) ->
   maxwell_filter g_in g_out pinv geometry raw origin int_order ext_order w =
     (Raise (RuntimeError "Could not find any MEG channels"), w)) /\
  (NoDup (ch_names (info r)) ->
   (exists k k' c c', k < k' /\ chs (info r) !! k = Some c /\ ~ is_meg c /\
                      chs (info r) !! k' = Some c' /\ is_meg c') ->
   maxwell_filter g_in g_out pinv geometry raw origin int_order ext_order w =
     (Raise (IndexError "list index out of range"),
      World (objs w) (trace w ++ [EvCreateCoils]))).
Proof.
  intros Hr Hb. split.
  - intros Hnone. unfold maxwell_filter.
    erewrite M_bind_ok; [|unfold deref; rewrite Hr; reflexivity].
    rewrite Hb. cbn [length Nat.ltb Nat.leb].
    unfold select_meg, mbind at 1. unfold M_bind at 1.
    erewrite M_bind_ok; [|unfold deref; rewrite Hr; reflexivity].
    unfold mbind, M_bind. rewrite make_coils_run.
    assert (Hf : filter (fun c => kind c = FIFFV_MEG_CH) (chs (info r)) = []).
    { apply filter_none. exact Hnone. }
    rewrite Hf. reflexivity.
  - intros Hnd (k & k' & c & c' & Hlt & Hk & Hc & Hk' & Hc').
    destruct (meg_position_out_of_range (chs (info r)) k k' c c' Hlt Hk Hc Hk' Hc')
      as [Hpos Hex].
    unfold maxwell_filter.
    erewrite M_bind_ok; [|unfold deref; rewrite Hr; reflexivity].
    rewrite Hb. cbn [length Nat.ltb Nat.leb].
    unfold select_meg, mbind at 1. unfold M_bind at 1.
    erewrite M_bind_ok; [|unfold deref; rewrite Hr; reflexivity].
    fold (pick_types_meg (info r)) in Hpos, Hex.
    set (ps := pick_types_meg (info r)) in *.
    assert (Hltp : Forall (fun p => p < length (chs (info r))) ps).
    { apply (positions_from_lt (fun c => kind c = FIFFV_MEG_CH) 0). }
    erewrite M_bind_ok; cycle 1.
    { unfold _make_coils. fold ps.
      destruct (Nat.leb_spec (length ps) 0) as [?|_]; [lia|].
      unfold emit, mbind, M_bind, mret, M_ret. reflexivity. }
    cbn [objs trace].
    erewrite M_bind_ok; cycle 1.
    { unfold lift, pick_info_chs, ch_names.
      rewrite picks_are_positions by assumption. reflexivity. }
    unfold mbind, M_bind, lift.
    rewrite mapM_getitem_raises; [reflexivity|].
    unfold _create_coils, pick_info_chs.
    rewrite length_fmap, omap_lookup_length by exact Hltp. exact Hex.
Qed.

(** A recording of EEG channels only, and one whose EEG channel comes before
    its MEG channel. *)
Definition eeg_raw : Raw :=
  MkRaw (MkInfo [Channel "EEG001" 2 1; Channel "EEG002" 2 1] [] None None)
        (NdArray 2 2 (fun i t => INR (i + t))).
Definition eeg_first_raw : Raw :=
  MkRaw (MkInfo [Channel "EEG001" 2 1; Channel "MEG0111" 1 3022] [] None None)
        (NdArray 2 2 (fun i t => INR (i + t))).

(** X8 on these two recordings. *)
Lemma maxwell_filter_selection_failures_witness :
  maxwell_filter sample_grad sample_grad transpose_pinv sample_geometry 0 (0, 0, 40)%R 1 0
                 (world_of eeg_raw) =
    (Raise (RuntimeError "Could not find any MEG channels"), world_of eeg_raw) /\
  maxwell_filter sample_grad sample_grad transpose_pinv sample_geometry 0 (0, 0, 40)%R 1 0
                 (world_of eeg_first_raw) =
    (Raise (IndexError "list index out of range"),
     World (objs (world_of eeg_first_raw)) [EvCreateCoils]).
Proof.
  split.
  - apply (maxwell_filter_selection_failures sample_grad sample_grad transpose_pinv
             sample_geometry 0 (0, 0, 40)%R 1 0 (world_of eeg_raw) eeg_raw eq_refl eq_refl).
    repeat constructor; discriminate.
  - apply (maxwell_filter_selection_failures sample_grad sample_grad transpose_pinv
             sample_geometry 0 (0, 0, 40)%R 1 0 (world_of eeg_first_raw) eeg_first_raw
             eq_refl eq_refl).
    + compute_done.
    + exists 0, 1, (Channel "EEG001" 2 1), (Channel "MEG0111" 1 3022).
      split_and!; [lia | reflexivity | discriminate | reflexivity | reflexivity].
Defined.

(* ================================================================== *)
(** * 29. The provenance record *)

(** X9: [_update_info] works on the object it is given and returns that
    same object: the shield flag is set to [False], the record of the call
    is put in front of the history (which is created when the key is
    missing), and the channels, the bad-channel list, the data and every
    other object stay as they were.  Two calls in a row leave two records,
    the later call's first. *)
Theorem update_info_prepends raw (r : Raw) (w : world)
    (o1 o2 : vec3) (i1 e1 i2 e2 : Z) (n1 m1 n2 m2 : nat) :
  objs w !! raw = Some r ->
  let rec1 := ProcRecord i1 e1 o1 n1 m1 "MNE's Maxwell Filter" in
  let rec2 := ProcRecord i2 e2 o2 n2 m2 "MNE's Maxwell Filter" in
  let old := default [] (proc_history (info r)) in
  _update_info raw o1 i1 e1 n1 m1 w =
    (Ok raw,
     World (<[raw := MkRaw (MkInfo (chs (info r)) (bads (info r)) (Some false)
                                   (Some (rec1 :: old)))
                           (_data r)]> (objs w))
           (trace w)) /\
  (raw_sss ← _update_info raw o1 i1 e1 n1 m1;
   _update_info raw_sss o2 i2 e2 n2 m2) w =
    (Ok raw,
     World (<[raw := MkRaw (MkInfo (chs (info r)) (bads (info r)) (Some false)
                                   (Some (rec2 :: rec1 :: old)))
                           (_data r)]> (objs w))
           (trace w)).
Proof.
  intros Hr rec1 rec2 old.
  assert (H1 : _update_info raw o1 i1 e1 n1 m1 w =
    (Ok raw,
     World (<[raw := MkRaw (MkInfo (chs (info r)) (bads (info r)) (Some false)
                                   (Some (rec1 :: old)))
                           (_data r)]> (objs w))
           (trace w))).
  { unfold _update_info, deref, assign, mbind, M_bind, mret, M_ret. rewrite Hr.
    cbn [objs trace]. subst old rec1. by destruct (proc_history (info r)). }
  split; [exact H1|].
  erewrite M_bind_ok; [|exact H1].
  unfold _update_info, deref, assign, mbind, M_bind, mret, M_ret. cbn [objs trace].
  rewrite lookup_insert_eq. cbn [objs trace info _data chs bads proc_history].
  by rewrite insert_insert_eq.
Qed.

(** X9 on the recording of three MEG channels and one EEG channel, which
    has no history yet. *)
Lemma update_info_prepends_witness :
  exists r',
    (raw_sss ← _update_info 0 (0, 0, 0.04)%R 8 3 3 80;
     _update_info raw_sss (0, 0, 0.04)%R 4 2 3 32) (world_of sample_raw) =
      (Ok 0, World {[ 0 := r' ]} []) /\
    proc_history (info r') =
      Some [ProcRecord 4 2 (0, 0, 0.04)%R 3 32 "MNE's Maxwell Filter";
            ProcRecord 8 3 (0, 0, 0.04)%R 3 80 "MNE's Maxwell Filter"] /\
    maxshield (info r') = Some false /\ chs (info r') = sample_chs /\
    _data r' = _data sample_raw.
Proof.
  destruct (update_info_prepends 0 sample_raw (world_of sample_raw)
              (0, 0, 0.04)%R (0, 0, 0.04)%R 8 3 4 2 3 80 3 32 eq_refl) as [_ H2].
  eexists. split.
  - rewrite H2. cbn [objs trace world_of]. by rewrite insert_singleton.
  - split_and!; reflexivity.
Defined.

(* ================================================================== *)
(** * 30. More properties of the projector *)

#[local] Open Scope R_scope.

(** When [reconstruct] returns, and what. *)
Lemma reconstruct_ok pinv S_in S_out data cs :
  let pS := pinv 1e-15 (real_part (np_c_ S_in S_out)) in
  all_finite (np_c_ S_in S_out) = true ->
  ncols pS = nrows data -> (ncols S_in <= nrows pS)%nat ->
  exists mm recon,
    reconstruct pinv S_in S_out data cs = Ok (mm, recon) /\
    mm = NdArray (nrows pS) (ncols data)
           (fun j t => sum_n (ncols pS) (fun k => item pS j k * (item data k t * nth k cs 1))) /\
    recon = NdArray (nrows S_in) (ncols data)
              (fun i t => sum_n (ncols S_in) (fun j => to_real (item S_in i j) * item mm j t)).
Proof.
  intros pS Hfin Hc Hle. eexists _, _. split; [|split; reflexivity].
  unfold reconstruct, scipy_pinv. rewrite Hfin. cbn [mbind result_bind]. fold pS.
  rewrite (np_dot_ok pS (mul_rows data cs)) by (cbn [nrows mul_rows]; exact Hc).
  cbn [mbind result_bind].
  rewrite np_dot_ok by (cbn [nrows ncols rows_upto real_part]; lia).
  reflexivity.
Qed.

(** [a * d1 + d2], entry by entry, in the shape of [d1]. *)
Definition nd_axpy (a : R) (d1 d2 : ndarray R) : ndarray R :=
  NdArray (nrows d1) (ncols d1) (fun i t => a * item d1 i t + item d2 i t).

(** X10: the projection-and-reconstruction step is linear in the data.
    When it returns on two data matrices of one shape, it returns on
    [a * d1 + d2], and what it returns is [a] times the first result plus the
    second. *)
Theorem projection_step_linear pinv S_in S_out coils (a : R) (d1 d2 o1 o2 : ndarray R) :
  nrows d2 = nrows d1 -> ncols d2 = ncols d1 ->
  projection_step pinv S_in S_out (coil_scale_of coils) d1 = Ok o1 ->
  projection_step pinv S_in S_out (coil_scale_of coils) d2 = Ok o2 ->
  exists o,
    projection_step pinv S_in S_out (coil_scale_of coils) (nd_axpy a d1 d2) = Ok o /\
    nd_eq o (nd_axpy a o1 o2).
Proof.
  intros Hr Hc H1 H2. unfold projection_step in H1, H2.
  destruct (reconstruct pinv S_in S_out d1 (coil_scale_of coils))
    as [[mm1 recon1]|e] eqn:Hrec1; [|discriminate].
  destruct (reconstruct pinv S_in S_out d2 (coil_scale_of coils))
    as [[mm2 recon2]|e] eqn:Hrec2; [|discriminate].
  cbn [mbind result_bind mret result_ret] in H1, H2.
  injection H1 as <-. injection H2 as <-.
  apply reconstruct_inv in Hrec1, Hrec2. cbv zeta in Hrec1, Hrec2.
  set (pS := pinv 1e-15 (real_part (np_c_ S_in S_out))) in *.
  set (cs := coil_scale_of coils) in *.
  destruct Hrec1 as (Hfin & Hc1 & Hle & -> & ->).
  destruct Hrec2 as (_ & _ & _ & -> & ->).
  destruct (reconstruct_ok pinv S_in S_out (nd_axpy a d1 d2) cs Hfin)
    as (mm & recon & Hrec & -> & ->); [exact Hc1 | exact Hle |].
  fold pS in Hrec |- *.
  exists (div_rows (NdArray (nrows S_in) (ncols (nd_axpy a d1 d2))
            (fun i t => sum_n (ncols S_in) (fun j => to_real (item S_in i j) *
               item (NdArray (nrows pS) (ncols (nd_axpy a d1 d2))
                 (fun j t => sum_n (ncols pS) (fun k =>
                    item pS j k * (item (nd_axpy a d1 d2) k t * nth k cs 1)))) j t))) cs).
  split.
  - unfold projection_step. rewrite Hrec. reflexivity.
  - unfold nd_eq. cbn [nrows ncols div_rows nd_axpy item].
    split_and!; try reflexivity.
    intros i t _ _.
    rewrite (sum_n_ext _ _ (fun j =>
      a * (to_real (item S_in i j) *
           sum_n (ncols pS) (fun k => item pS j k * (item d1 k t * nth k cs 1)))
      + to_real (item S_in i j) *
           sum_n (ncols pS) (fun k => item pS j k * (item d2 k t * nth k cs 1)))).
    + rewrite sum_n_plus, sum_n_scale. unfold Rdiv. ring.
    + intros j _.
      rewrite (sum_n_ext _ _ (fun k =>
        a * (item pS j k * (item d1 k t * nth k cs 1))
        + item pS j k * (item d2 k t * nth k cs 1))) by (intros k _; ring).
      rewrite sum_n_plus, sum_n_scale. ring.
Qed.

(** X10 on three sensors and two samples. *)
Lemma projection_step_linear_witness :
  exists o1 o,
    projection_step transpose_pinv unit_S_in empty_S_out (coil_scale_of sample_coils)
                    sample_data = Ok o1 /\
    projection_step transpose_pinv unit_S_in empty_S_out (coil_scale_of sample_coils)
                    (nd_axpy 2 sample_data sample_data) = Ok o /\
    nd_eq o (nd_axpy 2 o1 o1).
Proof.
  assert (H1 : exists o1,
             projection_step transpose_pinv unit_S_in empty_S_out
               (coil_scale_of sample_coils) sample_data = Ok o1)
    by (eexists; reflexivity).
  destruct H1 as [o1 H1].
  destruct (projection_step_linear transpose_pinv unit_S_in empty_S_out sample_coils 2
              sample_data sample_data o1 o1 eq_refl eq_refl H1 H1) as (o & Ho & Heq).
  exists o1, o. split_and!; [exact H1 | exact Ho | exact Heq].
Defined.

(** The moments of a combination of external columns vanish on the internal
    rows, when the pseudo-inverse is a left inverse. *)
Lemma left_inverse_other_block (pS A : ndarray R) (n_in n_out : nat)
    (S m : nat -> nat -> R) (j t : nat) :
  is_left_inverse pS A -> (n_in + n_out <= ncols A)%nat -> (j < n_in)%nat ->
  (forall k j', (j' < n_out)%nat -> item A k (n_in + j') = S k j') ->
  sum_n (nrows A) (fun k => item pS j k * sum_n n_out (fun j' => S k j' * m j' t)) = 0.
Proof.
  intros (_ & _ & Hinv) Hle Hj HA.
  rewrite (sum_n_ext _ _ (fun k => sum_n n_out (fun j' => item pS j k * S k j' * m j' t))).
  2:{ intros k _. rewrite <- sum_n_scale. apply sum_n_ext. intros j' _. ring. }
  rewrite sum_n_exchange.
  rewrite (sum_n_ext _ _ (fun _ => 0)); [apply sum_n_zero|].
  intros j' Hj'.
  rewrite (sum_n_ext _ _ (fun k => m j' t * (item pS j k * item A k (n_in + j')))).
  2:{ intros k _. rewrite (HA k j' Hj'). ring. }
  rewrite sum_n_scale. fold (mat_mul (nrows A) (item pS) (item A) j (n_in + j')).
  rewrite Hinv by lia.
  rewrite bool_decide_eq_false_2 by lia. ring.
Qed.

(** A signal in the column span of a basis, as the sensors record it: the
    combination [np.dot(S, c)] of the columns, row [i] divided by the coil
    scale of sensor [i]. *)
Definition span_signal (S : ndarray float64) (c : nat -> nat -> R) (T : nat)
    (cs : list R) : ndarray R :=
  NdArray (nrows S) T
    (fun i t => sum_n (ncols S) (fun j => to_real (item S i j) * c j t) / nth i cs 1).

(** X11: signal space separation.  When the two bases are finite, have the
    same rows, and the pseudo-inverse of the combined basis is a left inverse
    of it (full column rank, nothing cut off), the
    projection-and-reconstruction step returns a signal of the internal span
    unchanged, and returns zero on a signal of the external span. *)
Theorem projection_separates pinv S_in S_out coils (c : nat -> nat -> R) (T : nat) :
  nrows S_out = nrows S_in ->
  all_finite (np_c_ S_in S_out) = true ->
  is_left_inverse (pinv 1e-15 (real_part (np_c_ S_in S_out)))
                  (real_part (np_c_ S_in S_out)) ->
  (exists o,
     projection_step pinv S_in S_out (coil_scale_of coils)
                     (span_signal S_in c T (coil_scale_of coils)) = Ok o /\
     nd_eq o (span_signal S_in c T (coil_scale_of coils))) /\
  (exists o,
     projection_step pinv S_in S_out (coil_scale_of coils)
                     (span_signal S_out c T (coil_scale_of coils)) = Ok o /\
     nrows o = nrows S_in /\ ncols o = T /\
     forall i t, (i < nrows o)%nat -> (t < ncols o)%nat -> item o i t = 0).
Proof.
  intros Hrows Hfin Hinv.
  set (pS := pinv 1e-15 (real_part (np_c_ S_in S_out))) in *.
  set (cs := coil_scale_of coils).
  pose proof Hinv as (HrX & HcX & _).
  cbn [nrows ncols real_part np_c_] in HrX, HcX.
  split.
  - destruct (reconstruct_ok pinv S_in S_out (span_signal S_in c T cs) cs Hfin)
      as (mm & recon & Hrec & -> & ->); fold pS.
    { cbn [nrows span_signal]. exact HcX. }
    { lia. }
    fold pS in Hrec. eexists. split.
    + unfold projection_step. rewrite Hrec. reflexivity.
    + unfold nd_eq. cbn [nrows ncols div_rows span_signal item].
      split_and!; try reflexivity.
      intros i t _ _. f_equal. apply sum_n_ext. intros j Hj. f_equal.
      rewrite HcX.
      rewrite (sum_n_ext _ _
        (fun k => item pS j k *
           sum_n (ncols S_in) (fun j' => to_real (item S_in k j') * c j' t))).
      * change (nrows S_in) with (nrows (real_part (np_c_ S_in S_out))).
        apply (left_inverse_moments pS (real_part (np_c_ S_in S_out)) (ncols S_in)
                 (fun k j' => to_real (item S_in k j')) c j t);
          [exact Hinv | cbn; lia | exact Hj |].
        intros k j' Hj'. cbn [item real_part np_c_].
        destruct (Nat.ltb_spec j' (ncols S_in)); [reflexivity | lia].
      * intros k _. f_equal. field. apply coil_scale_nonzero.
  - destruct (reconstruct_ok pinv S_in S_out (span_signal S_out c T cs) cs Hfin)
      as (mm & recon & Hrec & -> & ->); fold pS.
    { cbn [nrows span_signal]. congruence. }
    { lia. }
    fold pS in Hrec. eexists. split.
    + unfold projection_step. rewrite Hrec. reflexivity.
    + cbn [nrows ncols div_rows span_signal item].
      split_and!; try reflexivity.
      intros i t _ _.
      rewrite (sum_n_ext _ _ (fun _ => 0)); [rewrite sum_n_zero; unfold Rdiv; ring|].
      intros j Hj. rewrite HcX.
      rewrite (sum_n_ext _ _
        (fun k => item pS j k *
           sum_n (ncols S_out) (fun j' => to_real (item S_out k j') * c j' t))).
      * change (nrows S_in) with (nrows (real_part (np_c_ S_in S_out))).
        rewrite (left_inverse_other_block pS (real_part (np_c_ S_in S_out)) (ncols S_in)
                   (ncols S_out) (fun k j' => to_real (item S_out k j')) c j t);
          [ring | exact Hinv | cbn; lia | exact Hj |].
        intros k j' Hj'. cbn [item real_part np_c_].
        destruct (Nat.ltb_spec (ncols S_in + j') (ncols S_in)); [lia|].
        by replace (ncols S_in + j' - ncols S_in)%nat with j' by lia.
      * intros k _. f_equal. field. apply coil_scale_nonzero.
Qed.

(** Three sensors: the unit vectors e0 and e1 as internal basis, e2 as
    external basis. *)
Definition sep_S_in : ndarray float64 :=
  NdArray 3 2 (fun i j => if (i =? j)%nat then Num 1 else Num 0).
Definition sep_S_out : ndarray float64 :=
  NdArray 3 1 (fun i j => if (i =? j + 2)%nat then Num 1 else Num 0).

(** X11 on these bases, with one sample and the coefficients 5, 5. *)
Lemma projection_separates_witness :
  (exists o,
     projection_step transpose_pinv sep_S_in sep_S_out (coil_scale_of sample_coils)
       (span_signal sep_S_in (fun _ _ => 5) 1 (coil_scale_of sample_coils)) = Ok o /\
     nd_eq o (span_signal sep_S_in (fun _ _ => 5) 1 (coil_scale_of sample_coils))) /\
  (exists o,
     projection_step transpose_pinv sep_S_in sep_S_out (coil_scale_of sample_coils)
       (span_signal sep_S_out (fun _ _ => 5) 1 (coil_scale_of sample_coils)) = Ok o /\
     item o 2 0 = 0).
Proof.
  destruct (projection_separates transpose_pinv sep_S_in sep_S_out sample_coils
              (fun _ _ => 5) 1 eq_refl eq_refl) as [Hin Hout].
  - split_and!; [reflexivity | reflexivity |].
    intros i j Hi Hj. cbn [ncols real_part np_c_ sep_S_in sep_S_out Nat.add] in Hi, Hj.
    do 3 (destruct i as [|i];
          [do 3 (destruct j as [|j]; [cbn; case_bool_decide; try lia; lra|]); lia|]); lia.
  - split; [exact Hin|].
    destruct Hout as (o & Ho & Hn & Hc & Hz). exists o. split; [exact Ho|].
    apply Hz; [rewrite Hn | rewrite Hc]; cbn; lia.
Defined.

(* ================================================================== *)
(** * 31. A call that returns *)

#[local] Close Scope R_scope.

(** X12: what a call of [maxwell_filter] that returns has done, for a
    record without bad channels, with distinct channel names, and
    non-negative orders.  The MEG channels are the [n >= 1] leading
    channels.  The bases [S_in], [S_out] were assembled for the coils of
    these channels about the origin divided by 1000; the object returned is
    a new one, not the input; it holds the MEG channels only, the shield
    flag [False], a provenance record (orders, origin in metres, [n]
    sensors, as many moments as the pseudo-inverse has rows) in front of the
    input's history, and as data what the projection-and-reconstruction step
    returns on the first [n] data rows.  The input is left restricted to the
    MEG channels, no other object is touched, and the effects came in the
    order: coils, channel restriction, internal then external assembly,
    pseudo-inverse, copy, data assignment. *)
Theorem maxwell_filter_returns_filtered_copy g_in g_out pinv geometry raw origin
    (int_order ext_order : Z) w r raw_sss w' :
  objs w !! raw = Some r -> bads (info r) = [] -> NoDup (ch_names (info r)) ->
  (0 <= int_order)%Z -> (0 <= ext_order)%Z ->
  maxwell_filter g_in g_out pinv geometry raw origin int_order ext_order w =
    (Ok raw_sss, w') ->
  exists n S_in S_out out r_sss w1,
    (0 < n /\ n <= length (chs (info r)) /\
     Forall is_meg (take n (chs (info r))) /\
     Forall (fun c => ~ is_meg c) (drop n (chs (info r)))) /\
    _sss_basis g_in g_out (to_metres origin)
               (_create_coils geometry (take n (chs (info r)))) int_order ext_order
               (World (<[raw := restricted r n]> (objs w))
                      (trace w ++ [EvCreateCoils; EvPickChannels raw])) =
      (Ok (S_in, S_out), w1) /\
    projection_step pinv S_in S_out
      (coil_scale_of (_create_coils geometry (take n (chs (info r)))))
      (take_rows (take_rows (_data r) (seq 0 n)) (seq 0 n)) = Ok out /\
    raw_sss <> raw /\ objs w !! raw_sss = None /\
    objs w' = <[raw_sss := r_sss]> (<[raw := restricted r n]> (objs w)) /\
    info r_sss =
      MkInfo (take n (chs (info r))) [] (Some false)
             (Some (provenance origin int_order ext_order n
                      (nrows (pinv 1e-15%R (real_part (np_c_ S_in S_out))))
                      :: default [] (proc_history (info r)))) /\
    nd_eq (_data r_sss) out /\ ncols out = ncols (_data r) /\
    trace w' =
      trace w ++ [EvCreateCoils; EvPickChannels raw]
      ++ writes Internal n (Z.to_nat (n_columns int_order))
      ++ writes External n (Z.to_nat (n_columns ext_order))
      ++ [EvPinv; EvCopy raw raw_sss; EvAssignData raw_sss].
Proof.
  intros Hr Hb Hnd Hi He H.
  assert (Hlay : exists n, 0 < n /\ n <= length (chs (info r)) /\
                   Forall is_meg (take n (chs (info r))) /\
                   Forall (fun c => ~ is_meg c) (drop n (chs (info r)))).
  { pose proof H as H0. unfold maxwell_filter in H0.
    apply M_bind_inv in H0 as (r0 & w0 & Hd & H0).
    unfold deref in Hd. rewrite Hr in Hd. injection Hd as <- <-.
    rewrite Hb in H0. cbn [length Nat.ltb Nat.leb] in H0.
    apply M_bind_inv in H0 as ([[coils picks] data] & w0 & Hsel & _).
    by eapply select_meg_layout. }
  destruct Hlay as (n & Hn & Hle & Hmeg & Hrest).
  set (coils := _create_coils geometry (take n (chs (info r)))) in *.
  set (w0 := World (<[raw := restricted r n]> (objs w))
                   (trace w ++ [EvCreateCoils; EvPickChannels raw])).
  assert (Hlen : length coils = n).
  { unfold coils, _create_coils. rewrite length_fmap, length_take. lia. }
  destruct (Z_le_gt_dec (get_num_moments int_order ext_order) (Z.of_nat (length coils)))
    as [Hfit|Hgt]; cycle 1.
  { exfalso.
    rewrite (maxwell_filter_prefix _ _ _ _ _ _ _ _ _ _ n Hr Hb Hnd Hn Hle Hmeg Hrest) in H.
    cbv zeta in H. fold coils w0 in H. unfold mbind, M_bind in H.
    rewrite (sss_basis_rejects g_in g_out (to_metres origin) coils int_order ext_order w0
               Hi He Hgt) in H.
    discriminate. }
  destruct (sss_basis_returns g_in g_out (to_metres origin) coils int_order ext_order w0
              Hi He Hfit) as (A_in & A_out & Hrun & [HnA _] & _).
  set (S_in := normalize_columns (scale_rows A_in (coil_scale_of coils))) in *.
  set (S_out := normalize_columns (scale_rows A_out (coil_scale_of coils))) in *.
  destruct (reconstruct pinv S_in S_out
              (take_rows (take_rows (_data r) (seq 0 n)) (seq 0 n)) (coil_scale_of coils))
    as [[mm recon]|e] eqn:Hrec; cycle 1.
  { exfalso.
    rewrite (maxwell_filter_prefix _ _ _ _ _ _ _ _ _ _ n Hr Hb Hnd Hn Hle Hmeg Hrest) in H.
    cbv zeta in H. erewrite M_bind_ok in H; [|exact Hrun]. cbv beta iota in H.
    erewrite M_bind_ok in H; [|unfold emit; reflexivity].
    unfold lift, mbind, M_bind in H. fold coils in H. rewrite Hrec in H. discriminate. }
  destruct (maxwell_filter_success g_in g_out pinv geometry raw origin int_order
              ext_order w r n _ _ _ mm recon Hr Hb Hnd Hn Hle Hmeg Hrest Hrun)
    as (l & r_sss & Hres & Hne & Hfr & Hinfo & Hnr & Hnc & Hit);
    [reflexivity | unfold S_in; cbn; congruence | exact Hrec |].
  rewrite Hres in H. injection H as <- <-.
  pose proof (reconstruct_inv _ _ _ _ _ _ _ Hrec) as Hinv. cbv zeta in Hinv.
  destruct Hinv as (_ & _ & _ & Hmm & Hre).
  exists n, S_in, S_out, (div_rows recon (coil_scale_of coils)), r_sss.
  eexists.
  split; [split_and!; assumption|].
  split; [exact Hrun|].
  split; [unfold projection_step; fold coils; rewrite Hrec; reflexivity|].
  split; [exact Hne|]. split; [exact Hfr|]. split; [reflexivity|].
  split; [rewrite Hinfo, Hmm; reflexivity|].
  split; [|split].
  - unfold nd_eq. rewrite Hnr, Hnc. rewrite Hre at 1 2. cbn [nrows ncols div_rows take_rows].
    split_and!; [unfold S_in; cbn; congruence | reflexivity |].
    intros i j _ _. rewrite Hit. reflexivity.
  - rewrite Hre. reflexivity.
  - cbn [trace w0]. rewrite Hlen, <- !app_assoc. reflexivity.
Qed.

#[local] Open Scope R_scope.

Lemma all_finite_intro (a : ndarray float64) :
  (forall i j, (i < nrows a)%nat -> (j < ncols a)%nat -> is_finite (item a i j)) ->
  all_finite a = true.
Proof.
  intros H. unfold all_finite. apply forallb_forall. intros i Hi. apply in_seq in Hi.
  apply forallb_forall. intros j Hj. apply in_seq in Hj.
  specialize (H i j ltac:(lia) ltac:(lia)). by destruct (item a i j).
Qed.

(** A column of numbers that is not all zero is normalised to numbers. *)
Lemma normalize_finite_column (B : ndarray float64) (j : nat) (b : nat -> R) :
  (forall i, (i < nrows B)%nat -> item B i j = Num (b i)) ->
  sum_n (nrows B) (fun i => b i * b i) <> 0 ->
  forall i, (i < nrows B)%nat ->
    item (normalize_columns B) i j
    = Num (b i / sqrt (sum_n (nrows B) (fun i => b i * b i))).
Proof.
  intros Hb Hs i Hi. cbn [normalize_columns item]. unfold column_sumsq.
  rewrite (f_sum_n_Num _ _ (fun i => b i * b i))
    by (intros k Hk; rewrite Hb by exact Hk; reflexivity).
  rewrite Hb by exact Hi. cbn [f_sqrt].
  pose proof (sum_n_squares_nonneg (nrows B) b) as Hnn.
  destruct (Rlt_dec _ 0) as [Hneg|_]; [lra|]. cbn [f_div].
  destruct (Req_dec_T _ 0) as [Hz|_]; [|reflexivity].
  apply sqrt_eq_0 in Hz; [contradiction | exact Hnn].
Qed.

(** A kernel to run a whole call with: the same gradient everywhere. *)
Definition unit_grad : Z -> Z -> fvec3 -> fvec3 :=
  fun _ _ _ => (Num (-1), Num 0, Num 0).

(** The call on the recording of three MEG channels and one EEG channel
    gets through. *)
Lemma sample_call_returns :
  exists raw_sss w',
    maxwell_filter unit_grad unit_grad transpose_pinv sample_geometry 0%nat (0, 0, 40) 1 0
                   (world_of sample_raw) = (Ok raw_sss, w').
Proof.
  set (coils := _create_coils sample_geometry (take 3%nat (chs (info sample_raw)))).
  set (w0 := World (<[0%nat := restricted sample_raw 3%nat]> (objs (world_of sample_raw)))
                   (trace (world_of sample_raw) ++ [EvCreateCoils; EvPickChannels 0%nat])).
  destruct (sss_basis_returns unit_grad unit_grad (to_metres (0, 0, 40)) coils 1 0 w0
              ltac:(lia) ltac:(lia))
    as (A_in & A_out & Hrun & [Hr_in Hc_in] & [Hr_out Hc_out] & Hit_in & _).
  { unfold get_num_moments. cbn. lia. }
  change (length coils) with 3%nat in *.
  change (Z.to_nat (n_columns 1)) with 3%nat in *.
  change (Z.to_nat (n_columns 0)) with 0%nat in *.
  set (cs := coil_scale_of coils) in *.
  set (S_in := normalize_columns (scale_rows A_in cs)) in *.
  set (S_out := normalize_columns (scale_rows A_out cs)) in *.
  assert (Hentry : forall i j, (i < 3)%nat -> (j < 3)%nat -> item A_in i j = Num 1).
  { intros i j Hi Hj. rewrite Hit_in by lia.
    assert (Hk : exists k, coils !! i = Some k /\
                   int_points k = [IntPoint (1, 0, 0) (1, 0, 0) 1]).
    { destruct i as [|[|[|i]]]; [eexists; split; reflexivity .. | lia]. }
    destruct Hk as (k & Hk & Hpts).
    rewrite (raw_entry_own_points _ _ coils i j k Hk), Hpts.
    cbn. f_equal. lra. }
  assert (Hfin_in : forall i j, (i < 3)%nat -> (j < 3)%nat -> is_finite (item S_in i j)).
  { intros i j Hi Hj. unfold S_in.
    rewrite (normalize_finite_column (scale_rows A_in cs) j (fun i => 1 * nth i cs 1)).
    - exact I.
    - intros k Hk. cbn [nrows scale_rows] in Hk. cbn [scale_rows item].
      rewrite Hentry by lia. reflexivity.
    - cbn [nrows scale_rows]. rewrite Hr_in. cbn. lra.
    - cbn [nrows scale_rows]. lia. }
  assert (Hfin : all_finite (np_c_ S_in S_out) = true).
  { apply all_finite_intro. intros i j Hi Hj.
    cbn [nrows ncols np_c_ normalize_columns scale_rows S_in S_out] in Hi, Hj.
    cbn [item np_c_].
    replace (ncols S_in) with 3%nat by (unfold S_in; cbn; lia).
    destruct (Nat.ltb_spec j 3); [apply Hfin_in; lia | lia]. }
  destruct (reconstruct_ok transpose_pinv S_in S_out
              (take_rows (take_rows (_data sample_raw) (seq 0%nat 3%nat)) (seq 0%nat 3%nat)) cs Hfin)
    as (mm & recon & Hrec & _).
  { cbn [ncols nrows transpose_pinv real_part np_c_ take_rows]. unfold S_in. cbn. lia. }
  { cbn [ncols nrows transpose_pinv real_part np_c_]. lia. }
  destruct (maxwell_filter_success unit_grad unit_grad transpose_pinv sample_geometry 0%nat
              (0, 0, 40) 1 0 (world_of sample_raw) sample_raw 3%nat S_in S_out _ mm recon
              eq_refl eq_refl sample_names_distinct ltac:(lia) ltac:(cbn; lia)
              ltac:(repeat constructor) ltac:(repeat constructor; discriminate) Hrun)
    as (l & r_sss & Hres & _); [reflexivity | unfold S_in; cbn; lia | exact Hrec |].
  eauto.
Qed.

(** X12 on that call. *)
Lemma maxwell_filter_returns_filtered_copy_witness :
  exists raw_sss w' r_sss,
    maxwell_filter unit_grad unit_grad transpose_pinv sample_geometry 0%nat (0, 0, 40) 1 0
                   (world_of sample_raw) = (Ok raw_sss, w') /\
    raw_sss <> 0%nat /\ objs w' !! raw_sss = Some r_sss /\
    maxshield (info r_sss) = Some false /\ bads (info r_sss) = [].
Proof.
  destruct sample_call_returns as (raw_sss & w' & Hcall).
  destruct (maxwell_filter_returns_filtered_copy unit_grad unit_grad transpose_pinv
              sample_geometry 0%nat (0, 0, 40) 1 0 (world_of sample_raw) sample_raw raw_sss w'
              eq_refl eq_refl sample_names_distinct ltac:(lia) ltac:(lia) Hcall)
    as (n & S_in & S_out & out & r_sss & w1 & _ & _ & _ & Hne & _ & Hobjs & Hinfo & _).
  exists raw_sss, w', r_sss.
  split_and!; [exact Hcall | exact Hne | | by rewrite Hinfo | by rewrite Hinfo].
  rewrite Hobjs. apply lookup_insert_eq.
Defined.

(* ================================================================== *)
(** * 32. [_alegendre_deriv] *)

(** [x - y] *)
Definition f_sub (x y : float64) : float64 := f_add x (f_neg y).

(** [scipy.misc.factorial(n)]: [n!] as a float, and 0 for a negative [n]. *)
Definition factorial (n : Z) : R :=
  if (n <? 0)%Z then 0 else INR (fact (Z.to_nat n)).

(** [_alegendre_deriv(degree, order, val)] at one entry of [val];
    [lpmv] is SciPy's associated Legendre function [lpmv(m, v, x)]. *)
Definition _alegendre_deriv (lpmv : Z -> Z -> float64 -> float64)
    (degree order : Z) (val : float64) : float64 :=
  let '(order, C) :=
    if (order <? 0)%Z then
      let order := Z.abs order in
      (order,
       f_div (f_mul (Num (IZR ((-1) ^ order))) (Num (factorial (degree - order))))
             (Num (factorial (degree + order))))
    else (order, Num 1) in
  f_div
    (f_mul C
       (f_add (f_mul (f_mul (Num (IZR order)) val) (lpmv order degree val))
              (f_mul (f_mul (Num (IZR ((degree + order) * (degree - order + 1))))
                            (f_sqrt (f_sub (Num 1) (f_mul val val))))
                     (lpmv (order - 1)%Z degree val))))
    (f_sub (Num 1) (f_mul val val)).

Lemma factorial_pos (n : Z) : (0 <= n)%Z -> 0 < factorial n.
Proof.
  intros Hn. unfold factorial. destruct (Z.ltb_spec n 0); [lia|].
  apply lt_0_INR. apply lt_O_fact.
Qed.

Lemma is_finite_Num (x : float64) : is_finite x -> exists a, x = Num a.
Proof. destruct x; try contradiction. eauto. Qed.

(** Adding [nan] gives [nan]. *)
Lemma f_add_NaN_r (x : float64) : f_add x NaN = NaN.
Proof. by destruct x. Qed.

(** X13: [_alegendre_deriv] has no guard at the poles.  For a degree that
    is not negative and a Legendre function that returns numbers on numbers,
    the value returned is a number exactly when [val] is a number strictly
    between -1 and 1: at [val = 1] or [val = -1] (the cosine of a polar
    angle 0 or pi) the division by [1 - val ** 2] is a division by zero and
    the result is [inf] or [nan]; outside [-1, 1] and at [nan] or [inf] the
    result is [nan]. *)
Theorem alegendre_deriv_finite_iff (lpmv : Z -> Z -> float64 -> float64)
    (degree order : Z) (val : float64) :
  (0 <= degree)%Z ->
  (forall m v x, is_finite (lpmv m v (Num x))) ->
  (is_finite (_alegendre_deriv lpmv degree order val)
   <-> exists v, val = Num v /\ -1 < v < 1).
Proof.
  intros Hd Hl. unfold _alegendre_deriv.
  assert (HC : exists c,
    (if (order <? 0)%Z
     then (Z.abs order,
           f_div (f_mul (Num (IZR ((-1) ^ Z.abs order)))
                        (Num (factorial (degree - Z.abs order))))
                 (Num (factorial (degree + Z.abs order))))
     else (order, Num 1))
    = ((if (order <? 0)%Z then Z.abs order else order), Num c)).
  { destruct (Z.ltb_spec order 0) as [Hneg|Hpos]; [|by exists 1].
    pose proof (factorial_pos (degree + Z.abs order) ltac:(lia)) as Hf.
    cbn [f_mul f_div]. destruct (Req_dec_T _ 0) as [Hz|_]; [lra|]. eauto. }
  destruct HC as (c & ->).
  set (m := if (order <? 0)%Z then Z.abs order else order).
  destruct val as [v| | |]; cbn [f_mul f_sub f_neg f_add f_sqrt f_div].
  - destruct (is_finite_Num _ (Hl m degree v)) as (p & ->).
    destruct (is_finite_Num _ (Hl (m - 1)%Z degree v)) as (q & ->).
    destruct (Rlt_dec (1 + - (v * v)) 0) as [Hout|Hin].
    + cbn [f_mul f_add f_div is_finite].
      split; [contradiction | intros (v' & [= <-] & Hv); nra].
    + cbn [f_mul f_add f_div]. destruct (Req_dec_T (1 + - (v * v)) 0) as [Hz|Hnz].
      * split; [intros H; by apply inf_of_sign_not_finite in H|].
        intros (v' & [= <-] & Hv). nra.
      * cbn [is_finite]. split; [intros _ | intros _; exact I].
        exists v. split; [reflexivity | nra].
  - rewrite ?f_add_NaN_r. cbn [f_div is_finite].
    split; [contradiction | intros (v & [=] & _)].
  - rewrite ?f_add_NaN_r. cbn [f_div is_finite].
    split; [contradiction | intros (v & [=] & _)].
  - rewrite ?f_add_NaN_r. cbn [f_div is_finite].
    split; [contradiction | intros (v & [=] & _)].
Qed.

(** A stand-in for SciPy's [lpmv]: a number everywhere. *)
Definition const_lpmv : Z -> Z -> float64 -> float64 := fun _ _ _ => Num 1.

(** X13 at degree 1 and order -1: a number at [val = 1/2], none at the pole
    [val = 1]. *)
Lemma alegendre_deriv_finite_iff_witness :
  is_finite (_alegendre_deriv const_lpmv 1 (-1) (Num (1 / 2))) /\
  ~ is_finite (_alegendre_deriv const_lpmv 1 (-1) (Num 1)).
Proof.
  split.
  - apply (alegendre_deriv_finite_iff const_lpmv 1 (-1) (Num (1 / 2)));
      [lia | intros; exact I |].
    exists (1 / 2). split; [reflexivity | lra].
  - intros H.
    apply (alegendre_deriv_finite_iff const_lpmv 1 (-1) (Num 1)) in H;
      [|lia | intros; exact I].
    destruct H as (v & [= <-] & Hv). lra.
Defined.

(* ================================================================== *)
(** * 33. A call that fails after the selection *)

#[local] Close Scope R_scope.

(** X14: too few MEG channels for the orders asked.  On a record without
    bad channels, with distinct names and its [n >= 1] MEG channels leading,
    when [get_num_moments] exceeds [n] the call raises the [ValueError] of
    [_sss_basis] about the number of requested bases; by then the coils
    were built and [pick_channels] has run, so the error leaves the input
    container restricted to its MEG channels, and nothing else was done. *)
Theorem maxwell_filter_too_few_sensors g_in g_out pinv geometry raw origin
    (int_order ext_order : Z) w r n :
  objs w !! raw = Some r -> bads (info r) = [] -> NoDup (ch_names (info r)) ->
  0 < n -> n <= length (chs (info r)) ->
  Forall is_meg (take n (chs (info r))) ->
  Forall (fun c => ~ is_meg c) (drop n (chs (info r))) ->
  (0 <= int_order)%Z -> (0 <= ext_order)%Z ->
  (get_num_moments int_order ext_order > Z.of_nat n)%Z ->
  maxwell_filter g_in g_out pinv geometry raw origin int_order ext_order w =
    (Raise (too_many_bases (get_num_moments int_order ext_order) n),
     World (<[raw := restricted r n]> (objs w))
           (trace w ++ [EvCreateCoils; EvPickChannels raw])).
Proof.
  intros Hr Hb Hnd Hn Hle Hmeg Hrest Hi He Hgt.
  rewrite (maxwell_filter_prefix _ _ _ _ _ _ _ _ _ _ n Hr Hb Hnd Hn Hle Hmeg Hrest).
  cbv zeta. unfold mbind, M_bind.
  assert (Hlen : length (_create_coils geometry (take n (chs (info r)))) = n).
  { unfold _create_coils. rewrite length_fmap, length_take. lia. }
  rewrite sss_basis_rejects by (rewrite ?Hlen; assumption).
  rewrite Hlen. reflexivity.
Qed.

(** X14 on the recording of three MEG channels and one EEG channel, with
    the default orders 8 and 3: 95 bases are asked of 3 sensors. *)
Lemma maxwell_filter_too_few_sensors_witness :
  maxwell_filter sample_grad sample_grad transpose_pinv sample_geometry 0 (0, 0, 40)%R 8 3
                 (world_of sample_raw) =
    (Raise (too_many_bases 95 3),
     World {[ 0 := restricted sample_raw 3 ]} [EvCreateCoils; EvPickChannels 0]).
Proof.
  rewrite (maxwell_filter_too_few_sensors sample_grad sample_grad transpose_pinv
             sample_geometry 0 (0, 0, 40)%R 8 3 (world_of sample_raw) sample_raw 3
             eq_refl eq_refl sample_names_distinct ltac:(lia) ltac:(cbn; lia)
             ltac:(repeat constructor) ltac:(repeat constructor; discriminate)
             ltac:(lia) ltac:(lia) ltac:(reflexivity)).
  cbn [objs trace world_of app]. by rewrite insert_singleton.
Defined.

(* ================================================================== *)
(** * 34. The selection on duplicate channel names *)



(* ================================================================== *)
(** * 35. The projector on a basis with an external column *)

#[local] Open Scope R_scope.

(** C1: the projection-and-reconstruction step, for every pair of bases,
    data matrix and coil list.  The combined basis [S_tot = np.c_[S_in,
    S_out]] has the rows of [S_in] and the columns of [S_in] followed by
    those of [S_out].  The step returns exactly when [S_tot] is finite and
    [pinv(S_tot, 1e-15)] has as many columns as the data has rows and at
    least [S_in.shape[1]] rows.  What it returns has one row per sensor and
    one column per sample, and its entry for sensor [i] and sample [t] is
    [(1 / coil_scale[i]) * sum_j S_in[i, j] * mm[j, t]] over the
    [S_in.shape[1]] leading rows [j] of the moment vector
    [mm = pinv(S_tot, 1e-15) . (coil_scale * data)], whatever rows follow;
    [coil_scale[k]] is 100 at the coils of class 1 and 1 elsewhere. *)
Theorem projector_reconstruction pinv S_in S_out data coils :
  let cs := coil_scale_of coils in
  let S_tot := np_c_ S_in S_out in
  let pS := pinv 1e-15 (real_part S_tot) in
  (nrows S_tot = nrows S_in /\ ncols S_tot = (ncols S_in + ncols S_out)%nat /\
   (forall i j, (j < ncols S_in)%nat -> item S_tot i j = item S_in i j) /\
   (forall i j, item S_tot i (ncols S_in + j) = item S_out i j)) /\
  ((exists out, projection_step pinv S_in S_out cs data = Ok out) <->
   all_finite S_tot = true /\ ncols pS = nrows data /\ (ncols S_in <= nrows pS)%nat) /\
  (forall out, projection_step pinv S_in S_out cs data = Ok out ->
     nrows out = nrows S_in /\ ncols out = ncols data /\
     forall i t,
       item out i t =
       / nth i cs 1 *
       sum_n (ncols S_in) (fun j =>
         to_real (item S_in i j) *
         sum_n (nrows data) (fun k => item pS j k * (nth k cs 1 * item data k t)))) /\
  (forall k c, coils !! k = Some c ->
     nth k cs 1 = if (coil_class c =? 1)%Z then 100 else 1).
Proof.
  intros cs S_tot pS. split_and!.
  - reflexivity.
  - reflexivity.
  - intros i j Hj. cbn [item S_tot np_c_].
    destruct (Nat.ltb_spec j (ncols S_in)); [reflexivity | lia].
  - intros i j. cbn [item S_tot np_c_].
    destruct (Nat.ltb_spec (ncols S_in + j) (ncols S_in)); [lia|].
    by replace (ncols S_in + j - ncols S_in)%nat with j by lia.
  - split.
    + intros [out H]. unfold projection_step in H.
      destruct (reconstruct pinv S_in S_out data cs) as [[mm recon]|e] eqn:Hrec;
        [|discriminate].
      apply reconstruct_inv in Hrec. cbv zeta in Hrec.
      destruct Hrec as (Hfin & Hc & Hle & _). by split_and!.
    + intros (Hfin & Hc & Hle).
      destruct (reconstruct_ok pinv S_in S_out data cs Hfin Hc Hle)
        as (mm & recon & Hrec & _).
      eexists. unfold projection_step. rewrite Hrec. reflexivity.
  - intros out H. unfold projection_step in H.
    destruct (reconstruct pinv S_in S_out data cs) as [[mm recon]|e] eqn:Hrec;
      [|discriminate].
    cbn [mbind result_bind mret result_ret] in H. injection H as <-.
    apply reconstruct_inv in Hrec. cbv zeta in Hrec. fold S_tot pS in Hrec.
    destruct Hrec as (_ & Hc & _ & -> & ->).
    cbn [nrows ncols div_rows item]. split_and!; try reflexivity.
    intros i t. unfold Rdiv. rewrite Rmult_comm. f_equal. rewrite Hc.
    apply sum_n_ext. intros j _. f_equal. apply sum_n_ext. intros k _. ring.
  - intros k c. apply coil_scale_of_lookup.
Qed.

(** The Gram matrix of the columns of an array. *)
Definition gram (A : ndarray R) (i j : nat) : R :=
  sum_n (nrows A) (fun k => item A k i * item A k j).

(** A stand-in for [pinv] on arrays of two independent columns:
    [(A^T A)^-1 A^T], their pseudo-inverse. *)
Definition pinv_two_columns : R -> ndarray R -> ndarray R :=
  fun _ A =>
    let a := gram A 0 0 in
    let b := gram A 0 1 in
    let d := gram A 1 1 in
    NdArray 2 (nrows A)
      (fun j k => match j with
                  | O => (d * item A k 0 - b * item A k 1) / (a * d - b * b)
                  | _ => (a * item A k 1 - b * item A k 0) / (a * d - b * b)
                  end).

(** Three sensors, a magnetometer first; the internal basis is the column
    e0, the external basis the column e0 + e1, which is not orthogonal to
    it; one sample with the values 1, 1, 0. *)
Definition obl_S_in : ndarray float64 :=
  NdArray 3 1 (fun i _ => if (i =? 0)%nat then Num 1 else Num 0).
Definition obl_S_out : ndarray float64 :=
  NdArray 3 1 (fun i _ => if (i <? 2)%nat then Num 1 else Num 0).
Definition obl_data : ndarray R :=
  NdArray 3 1 (fun i _ => if (i <? 2)%nat then 1 else 0).

(** C1 on these bases: the step returns; the scaled data is
    (100, 1, 0) = 99 e0 + (e0 + e1), the moments are (99, 1), the leading
    moment alone is kept, and sensor 0 gets 99 / 100. *)
Lemma projector_reconstruction_witness :
  ncols (np_c_ obl_S_in obl_S_out) = 2%nat /\
  exists out,
    projection_step pinv_two_columns obl_S_in obl_S_out (coil_scale_of sample_coils)
                    obl_data = Ok out /\
    nrows out = 3%nat /\ ncols out = 1%nat /\
    item out 0 0 = 99 / 100 /\ item out 1 0 = 0 /\ item out 2 0 = 0.
Proof.
  destruct (projector_reconstruction pinv_two_columns obl_S_in obl_S_out obl_data
              sample_coils) as ((_ & Hcols & _) & Hiff & Hform & _).
  split; [exact Hcols|].
  destruct (proj2 Hiff) as [out Hout].
  { split_and!; [reflexivity | reflexivity | cbn; lia]. }
  destruct (Hform out Hout) as (Hr & Hc & Hit).
  exists out. split_and!; [exact Hout | exact Hr | exact Hc | ..];
    rewrite Hit; cbn; unfold gram; cbn; field.
Defined.

(* ================================================================== *)
(** * 36. Idempotence of the projector *)

(** [X] is a generalized inverse of [A]: [A X A = A], the first of the
    Penrose conditions.  The pseudo-inverse is one, as long as no singular
    value of [A] is cut off. *)
Definition is_generalized_inverse (X A : ndarray R) : Prop :=
  nrows X = ncols A /\ ncols X = nrows A /\
  forall i j, (i < nrows A)%nat -> (j < ncols A)%nat ->
    mat_mul (nrows A) (mat_mul (ncols A) (item A) (item X)) (item A) i j = item A i j.

(** The column spans of the two bases have only the zero vector in common:
    a combination of internal columns that is also a combination of
    external columns is zero. *)
Definition spans_meet_in_zero (S_in S_out : ndarray float64) : Prop :=
  forall a b : nat -> R,
    (forall i, (i < nrows S_in)%nat ->
       sum_n (ncols S_in) (fun j => to_real (item S_in i j) * a j)
       = sum_n (ncols S_out) (fun j => to_real (item S_out i j) * b j)) ->
    forall i, (i < nrows S_in)%nat ->
      sum_n (ncols S_in) (fun j => to_real (item S_in i j) * a j) = 0.

Lemma sum_n_split (a b : nat) (f : nat -> R) :
  sum_n (a + b) f = sum_n a f + sum_n b (fun j => f (a + j)%nat).
Proof.
  induction b as [|b IH].
  - rewrite Nat.add_0_r. cbn. ring.
  - replace (a + S b)%nat with (S (a + b)) by lia. cbn [sum_n]. rewrite IH. ring.
Qed.

Lemma sum_n_minus (n : nat) (f g : nat -> R) :
  sum_n n (fun i => f i - g i) = sum_n n f - sum_n n g.
Proof. induction n as [|n IH]; cbn [sum_n]; [ring | rewrite IH; ring]. Qed.

(** A generalized inverse reproduces the combinations of the columns of
    [A]: [A X (A c) = A c], here for a combination of the leading [n_in]
    columns and row [i]. *)
Lemma generalized_inverse_reproduces (m n n_in : nat) (A X : nat -> nat -> R)
    (c : nat -> R) (i : nat) :
  (forall j', (j' < n_in)%nat -> mat_mul m (mat_mul n A X) A i j' = A i j') ->
  sum_n n (fun j => A i j * sum_n m (fun k => X j k * sum_n n_in (fun j' => A k j' * c j')))
  = sum_n n_in (fun j' => A i j' * c j').
Proof.
  intros HA.
  rewrite (sum_n_ext _ _ (fun j => sum_n m (fun k =>
             A i j * X j k * sum_n n_in (fun j' => A k j' * c j')))).
  2:{ intros j _. rewrite <- sum_n_scale. apply sum_n_ext. intros k _. ring. }
  rewrite sum_n_exchange.
  rewrite (sum_n_ext _ _ (fun k => sum_n n_in (fun j' =>
             mat_mul n A X i k * A k j' * c j'))).
  2:{ intros k _.
      rewrite (sum_n_ext _ _ (fun j => sum_n n_in (fun j' => A k j' * c j') * (A i j * X j k)))
        by (intros j _; ring).
      rewrite sum_n_scale. fold (mat_mul n A X i k).
      rewrite Rmult_comm, <- sum_n_scale. apply sum_n_ext. intros j' _. ring. }
  rewrite sum_n_exchange. apply sum_n_ext. intros j' Hj'.
  rewrite (sum_n_ext _ _ (fun k => c j' * (mat_mul n A X i k * A k j')))
    by (intros k _; ring).
  rewrite sum_n_scale. fold (mat_mul m (mat_mul n A X) A i j').
  rewrite HA by exact Hj'. ring.
Qed.

(** C6, as the code has it: when [pinv] returns a generalized inverse of
    the combined basis ([S_tot . pinv(S_tot) . S_tot = S_tot], as the
    pseudo-inverse does when no singular value is cut off) and the column
    spans of [S_in] and [S_out] have only the zero vector in common, the
    projection-and-reconstruction step applied to its own output returns
    that output again.  This holds for every data matrix on which the step
    returns, those in the column span of [S_in] among them, and for
    rank-deficient bases as well. *)
Theorem projection_idempotent_disjoint_spans pinv S_in S_out coils data out1 :
  is_generalized_inverse (pinv 1e-15 (real_part (np_c_ S_in S_out)))
                         (real_part (np_c_ S_in S_out)) ->
  spans_meet_in_zero S_in S_out ->
  projection_step pinv S_in S_out (coil_scale_of coils) data = Ok out1 ->
  exists out2,
    projection_step pinv S_in S_out (coil_scale_of coils) out1 = Ok out2 /\
    nd_eq out2 out1.
Proof.
  intros Hg Hsp H1. unfold projection_step in H1.
  destruct (reconstruct pinv S_in S_out data (coil_scale_of coils))
    as [[mm1 recon1]|e] eqn:Hrec1; [|discriminate].
  cbn [mbind result_bind mret result_ret] in H1. injection H1 as <-.
  apply reconstruct_inv in Hrec1. cbv zeta in Hrec1.
  set (A := real_part (np_c_ S_in S_out)) in *.
  set (pS := pinv 1e-15 A) in *.
  set (cs := coil_scale_of coils) in *.
  destruct Hrec1 as (Hfin & Hc & Hle & Hmm1 & Hre1).
  destruct Hg as (HrX & HcX & HAXA).
  cbn [nrows ncols real_part np_c_ A] in HrX, HcX.
  set (out1 := div_rows recon1 cs).
  destruct (reconstruct_ok pinv S_in S_out out1 cs Hfin) as (mm2 & recon2 & Hrec2 & Hmm2 & Hre2).
  { fold A pS. unfold out1. rewrite Hre1. cbn [nrows div_rows]. exact HcX. }
  { fold A pS. exact Hle. }
  fold A pS in Hmm2.
  exists (div_rows recon2 cs). split.
  { unfold projection_step. rewrite Hrec2. reflexivity. }
  assert (Hscaled : forall k t,
            item out1 k t * nth k cs 1
            = sum_n (ncols S_in) (fun j' => item A k j' * item mm1 j' t)).
  { intros k t. unfold out1. rewrite Hre1. cbn [div_rows item].
    transitivity (sum_n (ncols S_in) (fun j => to_real (item S_in k j) * item mm1 j t)).
    - field. apply coil_scale_nonzero.
    - apply sum_n_ext. intros j' Hj'. cbn [item A real_part np_c_].
      destruct (Nat.ltb_spec j' (ncols S_in)); [reflexivity | lia]. }
  assert (Hrepro : forall i t, (i < nrows S_in)%nat ->
            sum_n (ncols S_in + ncols S_out) (fun j => item A i j * item mm2 j t)
            = sum_n (ncols S_in) (fun j' => item A i j' * item mm1 j' t)).
  { intros i t Hi. rewrite Hmm2. cbn [item].
    rewrite (sum_n_ext _ _ (fun j => item A i j *
               sum_n (nrows S_in) (fun k => item pS j k *
                 sum_n (ncols S_in) (fun j' => item A k j' * item mm1 j' t)))).
    - apply (generalized_inverse_reproduces (nrows S_in) (ncols S_in + ncols S_out)
               (ncols S_in) (item A) (item pS) (fun j' => item mm1 j' t) i).
      intros j' Hj'. apply (HAXA i j'); cbn [nrows ncols A real_part np_c_]; lia.
    - intros j _. f_equal. rewrite HcX. apply sum_n_ext. intros k _.
      by rewrite Hscaled. }
  unfold nd_eq. rewrite Hre2. unfold out1. rewrite Hre1.
  cbn [nrows ncols div_rows item].
  split_and!; try reflexivity.
  intros i t Hi _. f_equal.
  assert (Hzero : sum_n (ncols S_in)
                    (fun j => to_real (item S_in i j) * (item mm2 j t - item mm1 j t)) = 0).
  { apply (Hsp (fun j => item mm2 j t - item mm1 j t)
               (fun j => - item mm2 (ncols S_in + j)%nat t)); [|exact Hi].
    intros i' Hi'.
    pose proof (sum_n_split (ncols S_in) (ncols S_out)
                  (fun j => item A i' j * item mm2 j t)) as Hs.
    pose proof (Hrepro i' t Hi') as Hr'.
    rewrite Hs in Hr'.
    assert (HA_in : forall f, sum_n (ncols S_in) (fun j => item A i' j * f j)
                    = sum_n (ncols S_in) (fun j => to_real (item S_in i' j) * f j)).
    { intros f. apply sum_n_ext. intros j Hj. cbn [item A real_part np_c_].
      destruct (Nat.ltb_spec j (ncols S_in)); [reflexivity | lia]. }
    assert (HA_out : forall f, sum_n (ncols S_out) (fun j => item A i' (ncols S_in + j)%nat * f j)
                    = sum_n (ncols S_out) (fun j => to_real (item S_out i' j) * f j)).
    { intros f. apply sum_n_ext. intros j Hj. cbn [item A real_part np_c_].
      destruct (Nat.ltb_spec (ncols S_in + j) (ncols S_in)); [lia|].
      by replace (ncols S_in + j - ncols S_in)%nat with j by lia. }
    rewrite (HA_in (fun j => item mm2 j t)), (HA_in (fun j => item mm1 j t)) in Hr'.
    rewrite (HA_out (fun j => item mm2 (ncols S_in + j)%nat t)) in Hr'.
    rewrite (sum_n_ext _ _ (fun j => to_real (item S_in i' j) * item mm2 j t
                                     - to_real (item S_in i' j) * item mm1 j t))
      by (intros j _; ring).
    rewrite sum_n_minus.
    rewrite (sum_n_ext (ncols S_out) _
               (fun j => -1 * (to_real (item S_out i' j) * item mm2 (ncols S_in + j)%nat t)))
      by (intros j _; ring).
    rewrite sum_n_scale. lra. }
  rewrite (sum_n_ext _ _ (fun j => to_real (item S_in i j) * item mm2 j t
                                   - to_real (item S_in i j) * item mm1 j t)) in Hzero
    by (intros j _; ring).
  rewrite sum_n_minus in Hzero. lra.
Qed.

Lemma pseudo_inverse_generalized (X A : ndarray R) :
  is_pseudo_inverse X A -> is_generalized_inverse X A.
Proof. intros (Hr & Hc & H1 & _). by split_and!. Qed.

(** Three sensors; the internal basis has the column e0 twice, the external
    basis is e1: a combined basis of rank 2 with three columns, whose spans
    meet in zero only. *)
Definition rank_S_in : ndarray float64 :=
  NdArray 3 2 (fun i _ => if (i =? 0)%nat then Num 1 else Num 0).
Definition rank_S_out : ndarray float64 :=
  NdArray 3 1 (fun i _ => if (i =? 1)%nat then Num 1 else Num 0).

(** Its pseudo-inverse: the rows e0/2, e0/2, e1. *)
Definition rank_pinv_matrix : ndarray R :=
  NdArray 3 3 (fun j k =>
    match j with
    | 0%nat | 1%nat => if (k =? 0)%nat then / 2 else 0
    | _ => if (k =? 1)%nat then 1 else 0
    end).
Definition rank_pinv : R -> ndarray R -> ndarray R := fun _ _ => rank_pinv_matrix.

(** One sample in the span of the internal basis: 3 e0. *)
Definition rank_data : ndarray R :=
  NdArray 3 1 (fun i _ => if (i =? 0)%nat then 3 else 0).

Lemma rank_pinv_is_pseudo_inverse :
  is_pseudo_inverse rank_pinv_matrix (real_part (np_c_ rank_S_in rank_S_out)).
Proof.
  unfold is_pseudo_inverse.
  cbn [nrows ncols real_part np_c_ rank_S_in rank_S_out rank_pinv_matrix Nat.add].
  split_and!; try reflexivity; intros i j Hi Hj;
    do 3 (destruct i as [|i]; [do 3 (destruct j as [|j]; [cbn; lra|]); lia|]); lia.
Qed.

Lemma rank_spans_meet_in_zero : spans_meet_in_zero rank_S_in rank_S_out.
Proof.
  intros a b H i Hi. cbn [nrows rank_S_in] in Hi.
  pose proof (H 0%nat ltac:(cbn; lia)) as H0. cbn in H0.
  destruct i as [|[|[|i]]]; cbn; lra.
Qed.

(** C6 on this rank-deficient basis: the matrix [pinv] returns is the
    pseudo-inverse (the four Penrose conditions), the two internal columns
    coincide, and the step returns 3 e0 on 3 e0, the first time and the
    second. *)
Lemma projection_idempotent_disjoint_spans_witness :
  is_pseudo_inverse (rank_pinv 1e-15 (real_part (np_c_ rank_S_in rank_S_out)))
                    (real_part (np_c_ rank_S_in rank_S_out)) /\
  (forall i, item rank_S_in i 0 = item rank_S_in i 1) /\
  exists out1 out2,
    projection_step rank_pinv rank_S_in rank_S_out (coil_scale_of sample_coils)
                    rank_data = Ok out1 /\
    projection_step rank_pinv rank_S_in rank_S_out (coil_scale_of sample_coils)
                    out1 = Ok out2 /\
    nd_eq out2 out1 /\ item out1 0 0 = 3.
Proof.
  split; [apply rank_pinv_is_pseudo_inverse|]. split; [reflexivity|].
  assert (H1 : exists out1,
             projection_step rank_pinv rank_S_in rank_S_out
               (coil_scale_of sample_coils) rank_data = Ok out1 /\ item out1 0 0 = 3).
  { eexists. split; [reflexivity|]. cbn. field. }
  destruct H1 as (out1 & H1 & Hval).
  destruct (projection_idempotent_disjoint_spans rank_pinv rank_S_in rank_S_out
              sample_coils rank_data out1) as (out2 & H2 & Heq);
    [apply pseudo_inverse_generalized, rank_pinv_is_pseudo_inverse
    | apply rank_spans_meet_in_zero | exact H1 |].
  exists out1, out2. split_and!; [exact H1 | exact H2 | exact Heq | exact Hval].
Defined.

(* ================================================================== *)
(** * 37. The norm of the basis columns *)





(** ** A column of zeros on sensors with integration points *)



















#[local] Close Scope R_scope.
